(** * b-bot: the resilient batch submission pipeline

    A shallow embedding of the parts of the repository that the
    specification's testable properties talk about:

    - [Progress]: [ProgressState] / [ProgressTracker]
      (src/presentation/progress/ProgressTracker.js);
    - [Errors]: the error classes and [ErrorFactory] (the errors module) and
      the retry classification of [HttpClient] and [Command];
    - [Commands]: [Command], [SubscribeUserCommand], [BatchProcessCommand]
      (src/infrastructure/commands/index.js);
    - [Dedup]: [DeduplicationService] and its key strategies
      (src/domain/services/DeduplicationService.js);
    - [Limiter]: the token bucket [RateLimiter] of the HTTP client;
    - [Persistence]: [ProgressCheckpoint] and [ProgressPersistence]
      (src/presentation/progress/ProgressPersistence.js).

    and of the code around them:

    - [ProgressSummary]: the summaries of [ProgressState];
    - [Pool]: the [Semaphore] of the concurrent batch mode;
    - [Retries]: the answers of the API along the tries of a command;
    - [Http]: the configuration, the request loop and the header
      sanitizer of [HttpClient];
    - [DedupReport], [Similarity]: the groups, the statistics and the
      string similarity of [DeduplicationService];
    - [Store]: saving, cleaning up and deleting checkpoints;
    - [Session]: [ImportSession] and the batching of [ImportCsvUseCase];
    - [Fields]: the field names [ValidationService] normalizes.

    JavaScript numbers that the code only counts with are integers ([Z]);
    numbers the code divides or scales are rationals ([Q]), an exact
    idealisation of IEEE doubles.  Clock readings ([Date.now()]) are inputs
    of the operations.  Strings are sequences of code units below 256;
    [toLowerCase] and [trim] are JavaScript's on ASCII text
    ([ascii_text]). *)

From Stdlib Require Import ZArith QArith Qround Qminmax Lia Lqa Ascii String.
From Stdlib Require Import Sorting.Sorted Sorting.Permutation.
From stdpp Require Import base option list strings gmap.

Local Open Scope Z_scope.

(** Boolean strict comparison on rationals, as in a JS [a < b] test. *)
Definition Qlt_bool (a b : Q) : bool := negb (Qle_bool b a).

(* ================================================================== *)
(** * Progress tracker *)

Module Progress.

Inductive Status := idle | active | paused | completed | failed | shutdown.

(** The [statistics] object of a [ProgressState]. *)
Record Statistics := {
  successRate : Q;
  errorRate : Q;
  throughput : Q;
  duration : Q;
  memoryUsage : Q
}.

(** A partial [statistics] object (the payload of STATISTICS_UPDATE):
    an absent property is [None]. *)
Record StatisticsPatch := {
  p_successRate : option Q;
  p_errorRate : option Q;
  p_throughput : option Q;
  p_duration : option Q;
  p_memoryUsage : option Q
}.

(** [{ ...s, ...p }] *)
Definition spread (s : Statistics) (p : StatisticsPatch) : Statistics :=
  {| successRate := default (successRate s) (p_successRate p);
     errorRate := default (errorRate s) (p_errorRate p);
     throughput := default (throughput s) (p_throughput p);
     duration := default (duration s) (p_duration p);
     memoryUsage := default (memoryUsage s) (p_memoryUsage p) |}.

(** An entry of the [errors], [warnings] or [milestones] arrays. *)
Record Entry := { timestamp : Z; what : string; detail : string }.

Record ProgressState := {
  sessionId : option string;
  currentPhase : string;
  status : Status;
  startTime : option Z;
  endTime : option Z;
(* overall progress *)
totalRecords : Z;
processedRecords : Z;
successfulRecords : Z;
failedRecords : Z;
(* batch progress *)
totalBatches : Z;
currentBatch : Z;
currentBatchSize : Z;
currentBatchProcessed : Z;
(* performance metrics *)
recordsPerSecond : Q;
estimatedTimeRemaining : Q;
averageBatchTime : Q;
(* error tracking *)
errors : list Entry;
warnings : list Entry;
lastError : option string;
lastWarning : option string;
(* milestones *)
milestones : list Entry;
lastMilestone : option string;
statistics : Statistics
}.

(** [new ProgressState()] *)
Definition new_ProgressState : ProgressState :=
  {| sessionId := None; currentPhase := "initialization"; status := idle;
     startTime := None; endTime := None;
     totalRecords := 0; processedRecords := 0;
     successfulRecords := 0; failedRecords := 0;
     totalBatches := 0; currentBatch := 0;
     currentBatchSize := 0; currentBatchProcessed := 0;
     recordsPerSecond := 0%Q; estimatedTimeRemaining := 0%Q;
     averageBatchTime := 0%Q;
     errors := []; warnings := []; lastError := None; lastWarning := None;
     milestones := []; lastMilestone := None;
     statistics := {| successRate := 0%Q; errorRate := 0%Q; throughput := 0%Q;
                      duration := 0%Q; memoryUsage := 0%Q |} |}.

(** Progress events, one constructor per [ProgressEventType] with the
    properties [update] reads; [OtherEvent] is an event whose [type] is
    none of the ten. *)
Inductive ProgressEvent :=
| PHASE_CHANGE (phase : string)
| BATCH_START (batchNumber batchSize : Z)
| BATCH_PROGRESS (processed : Z)
| BATCH_COMPLETE (batchDuration : Q)
| RECORD_PROCESSED (success : bool)
| ERROR_OCCURRED (error context : string)
| WARNING_OCCURRED (warning context : string)
| MILESTONE_REACHED (milestone data : string)
| SESSION_COMPLETE (success : bool)
| STATISTICS_UPDATE (stats : option StatisticsPatch)
| OtherEvent.

(** What a call reads from its environment: the clock (milliseconds; the
    readings taken within one call are one instant) and the heap size
    reported by [process.memoryUsage()]. *)
Record Env := { now : Z; heapUsed : Q }.

Section Setters.
Variable s : ProgressState.

Definition set_phase (p : string) : ProgressState :=
  {| sessionId := sessionId s; currentPhase := p; status := status s;
     startTime := startTime s; endTime := endTime s;
     totalRecords := totalRecords s; processedRecords := processedRecords s;
     successfulRecords := successfulRecords s; failedRecords := failedRecords s;
     totalBatches := totalBatches s; currentBatch := currentBatch s;
     currentBatchSize := currentBatchSize s;
     currentBatchProcessed := currentBatchProcessed s;
     recordsPerSecond := recordsPerSecond s;
     estimatedTimeRemaining := estimatedTimeRemaining s;
     averageBatchTime := averageBatchTime s;
     errors := errors s; warnings := warnings s;
     lastError := lastError s; lastWarning := lastWarning s;
     milestones := milestones s; lastMilestone := lastMilestone s;
     statistics := statistics s |}.

Definition set_session (st : Status) (start stop : option Z) (total batches : Z)
  : ProgressState :=
  {| sessionId := sessionId s; currentPhase := currentPhase s; status := st;
     startTime := start; endTime := stop;
     totalRecords := total; processedRecords := processedRecords s;
     successfulRecords := successfulRecords s; failedRecords := failedRecords s;
     totalBatches := batches; currentBatch := currentBatch s;
     currentBatchSize := currentBatchSize s;
     currentBatchProcessed := currentBatchProcessed s;
     recordsPerSecond := recordsPerSecond s;
     estimatedTimeRemaining := estimatedTimeRemaining s;
     averageBatchTime := averageBatchTime s;
     errors := errors s; warnings := warnings s;
     lastError := lastError s; lastWarning := lastWarning s;
     milestones := milestones s; lastMilestone := lastMilestone s;
     statistics := statistics s |}.

Definition set_sessionId (sid : option string) : ProgressState :=
  {| sessionId := sid; currentPhase := currentPhase s; status := status s;
     startTime := startTime s; endTime := endTime s;
     totalRecords := totalRecords s; processedRecords := processedRecords s;
     successfulRecords := successfulRecords s; failedRecords := failedRecords s;
     totalBatches := totalBatches s; currentBatch := currentBatch s;
     currentBatchSize := currentBatchSize s;
     currentBatchProcessed := currentBatchProcessed s;
     recordsPerSecond := recordsPerSecond s;
     estimatedTimeRemaining := estimatedTimeRemaining s;
     averageBatchTime := averageBatchTime s;
     errors := errors s; warnings := warnings s;
     lastError := lastError s; lastWarning := lastWarning s;
     milestones := milestones s; lastMilestone := lastMilestone s;
     statistics := statistics s |}.

Definition set_counters (processed successful failed_ : Z) : ProgressState :=
  {| sessionId := sessionId s; currentPhase := currentPhase s; status := status s;
     startTime := startTime s; endTime := endTime s;
     totalRecords := totalRecords s; processedRecords := processed;
     successfulRecords := successful; failedRecords := failed_;
     totalBatches := totalBatches s; currentBatch := currentBatch s;
     currentBatchSize := currentBatchSize s;
     currentBatchProcessed := currentBatchProcessed s;
     recordsPerSecond := recordsPerSecond s;
     estimatedTimeRemaining := estimatedTimeRemaining s;
     averageBatchTime := averageBatchTime s;
     errors := errors s; warnings := warnings s;
     lastError := lastError s; lastWarning := lastWarning s;
     milestones := milestones s; lastMilestone := lastMilestone s;
     statistics := statistics s |}.

Definition set_batch (number size done_ : Z) : ProgressState :=
  {| sessionId := sessionId s; currentPhase := currentPhase s; status := status s;
     startTime := startTime s; endTime := endTime s;
     totalRecords := totalRecords s; processedRecords := processedRecords s;
     successfulRecords := successfulRecords s; failedRecords := failedRecords s;
     totalBatches := totalBatches s; currentBatch := number;
     currentBatchSize := size; currentBatchProcessed := done_;
     recordsPerSecond := recordsPerSecond s;
     estimatedTimeRemaining := estimatedTimeRemaining s;
     averageBatchTime := averageBatchTime s;
     errors := errors s; warnings := warnings s;
     lastError := lastError s; lastWarning := lastWarning s;
     milestones := milestones s; lastMilestone := lastMilestone s;
     statistics := statistics s |}.

Definition set_metrics (rps eta avg : Q) : ProgressState :=
  {| sessionId := sessionId s; currentPhase := currentPhase s; status := status s;
     startTime := startTime s; endTime := endTime s;
     totalRecords := totalRecords s; processedRecords := processedRecords s;
     successfulRecords := successfulRecords s; failedRecords := failedRecords s;
     totalBatches := totalBatches s; currentBatch := currentBatch s;
     currentBatchSize := currentBatchSize s;
     currentBatchProcessed := currentBatchProcessed s;
     recordsPerSecond := rps; estimatedTimeRemaining := eta;
     averageBatchTime := avg;
     errors := errors s; warnings := warnings s;
     lastError := lastError s; lastWarning := lastWarning s;
     milestones := milestones s; lastMilestone := lastMilestone s;
     statistics := statistics s |}.

Definition set_tracking (es ws : list Entry) (le lw : option string)
    (ms : list Entry) (lm : option string) : ProgressState :=
  {| sessionId := sessionId s; currentPhase := currentPhase s; status := status s;
     startTime := startTime s; endTime := endTime s;
     totalRecords := totalRecords s; processedRecords := processedRecords s;
     successfulRecords := successfulRecords s; failedRecords := failedRecords s;
     totalBatches := totalBatches s; currentBatch := currentBatch s;
     currentBatchSize := currentBatchSize s;
     currentBatchProcessed := currentBatchProcessed s;
     recordsPerSecond := recordsPerSecond s;
     estimatedTimeRemaining := estimatedTimeRemaining s;
     averageBatchTime := averageBatchTime s;
     errors := es; warnings := ws; lastError := le; lastWarning := lw;
     milestones := ms; lastMilestone := lm;
     statistics := statistics s |}.

Definition set_statistics (st : Statistics) : ProgressState :=
  {| sessionId := sessionId s; currentPhase := currentPhase s; status := status s;
     startTime := startTime s; endTime := endTime s;
     totalRecords := totalRecords s; processedRecords := processedRecords s;
     successfulRecords := successfulRecords s; failedRecords := failedRecords s;
     totalBatches := totalBatches s; currentBatch := currentBatch s;
     currentBatchSize := currentBatchSize s;
     currentBatchProcessed := currentBatchProcessed s;
     recordsPerSecond := recordsPerSecond s;
     estimatedTimeRemaining := estimatedTimeRemaining s;
     averageBatchTime := averageBatchTime s;
     errors := errors s; warnings := warnings s;
     lastError := lastError s; lastWarning := lastWarning s;
     milestones := milestones s; lastMilestone := lastMilestone s;
     statistics := st |}.
End Setters.

Definition set_status (s : ProgressState) (st : Status) : ProgressState :=
  set_session s st (startTime s) (endTime s) (totalRecords s) (totalBatches s).

(** [updatePerformanceMetrics()] *)
Definition updatePerformanceMetrics (env : Env) (s : ProgressState) : ProgressState :=
  match startTime s with
  | None => s
  | Some t0 =>
      let seconds := (inject_Z (now env - t0) / 1000)%Q in
      if Qlt_bool 0 seconds then
        let rps := (inject_Z (processedRecords s) / seconds)%Q in
        if Qlt_bool 0 rps && (0 <? totalRecords s) then
          let remainingRecords := totalRecords s - processedRecords s in
          set_metrics s rps (inject_Z remainingRecords / rps)%Q (averageBatchTime s)
        else set_metrics s rps (estimatedTimeRemaining s) (averageBatchTime s)
      else s
  end.

(** [updateAverageBatchTime(duration)]: exponential moving average. *)
Definition updateAverageBatchTime (d : Q) (s : ProgressState) : ProgressState :=
  let avg :=
    if Qeq_bool (averageBatchTime s) 0 then d
    else (averageBatchTime s * (8 # 10) + d * (2 # 10))%Q in
  set_metrics s (recordsPerSecond s) (estimatedTimeRemaining s) avg.

(** [updateCommonMetrics()] *)
Definition updateCommonMetrics (env : Env) (s : ProgressState) : ProgressState :=
  let st := statistics s in
  let sr := if 0 <? processedRecords s
            then (inject_Z (successfulRecords s) / inject_Z (processedRecords s) * 100)%Q
            else successRate st in
  let er := if 0 <? processedRecords s
            then (inject_Z (failedRecords s) / inject_Z (processedRecords s) * 100)%Q
            else errorRate st in
  let du := match startTime s with
            | Some t0 => inject_Z (now env - t0)
            | None => duration st
            end in
  set_statistics s
    {| successRate := sr; errorRate := er;
       throughput := recordsPerSecond s;
       duration := du;
       memoryUsage := (heapUsed env / 1024 / 1024)%Q |}.

(** [ProgressState.update(event)]: the [switch] on the event type, then
    the common metrics. *)
Definition update (env : Env) (event : ProgressEvent) (s : ProgressState)
  : ProgressState :=
  let s1 :=
    match event with
    | PHASE_CHANGE p => set_phase s p
    | BATCH_START n size => set_batch s n size 0
    | BATCH_PROGRESS k => set_batch s (currentBatch s) (currentBatchSize s) k
    | BATCH_COMPLETE d =>
        let s' := set_batch s (currentBatch s) (currentBatchSize s) (currentBatchSize s) in
        if negb (Qeq_bool d 0) then updateAverageBatchTime d s' else s'
    | RECORD_PROCESSED ok =>
        let s' :=
          if ok
          then set_counters s (processedRecords s + 1) (successfulRecords s + 1)
                 (failedRecords s)
          else set_counters s (processedRecords s + 1) (successfulRecords s)
                 (failedRecords s + 1) in
        updatePerformanceMetrics env s'
    | ERROR_OCCURRED e c =>
        set_tracking s
          (errors s ++ [ {| timestamp := now env; what := e; detail := c |} ])
          (warnings s) (Some e) (lastWarning s) (milestones s) (lastMilestone s)
    | WARNING_OCCURRED w c =>
        set_tracking s (errors s)
          (warnings s ++ [ {| timestamp := now env; what := w; detail := c |} ])
          (lastError s) (Some w) (milestones s) (lastMilestone s)
    | MILESTONE_REACHED m d =>
        set_tracking s (errors s) (warnings s) (lastError s) (lastWarning s)
          (milestones s ++ [ {| timestamp := now env; what := m; detail := d |} ])
          (Some m)
    | SESSION_COMPLETE ok =>
        set_session s (if ok then completed else failed) (startTime s)
          (Some (now env)) (totalRecords s) (totalBatches s)
    | STATISTICS_UPDATE (Some p) => set_statistics s (spread (statistics s) p)
    | STATISTICS_UPDATE None => s
    | OtherEvent => s
    end in
  updateCommonMetrics env s1.

(** The tracker: its state, the throttle clock, whether the periodic
    timer is armed, and the events handed to the observers so far. *)
Record ProgressTracker := {
  state : ProgressState;
  updateFrequency : Z;
  lastUpdateTime : Z;
  updateInterval : bool;
  notified : list ProgressEvent
}.

(** [sessionId || `session_${Date.now()}`]: the id the constructor keeps
    for the argument it is given, a missing or empty one being replaced
    by [generated], the text of the template at the clock's reading. *)
Definition this_sessionId (sessionId : option string) (generated : string) : string :=
  match sessionId with
  | Some given => if String.eqb given "" then generated else given
  | None => generated
  end.

(** [new ProgressTracker(sessionId)], from the id the constructor keeps:
    [sid] is [this.sessionId], the value of [this_sessionId]. *)
Definition new_ProgressTracker (sid : string) : ProgressTracker :=
  {| state := set_sessionId new_ProgressState (Some sid);
     updateFrequency := 100; lastUpdateTime := 0;
     updateInterval := false; notified := [] |}.

Definition with_state (t : ProgressTracker) (s : ProgressState) : ProgressTracker :=
  {| state := s; updateFrequency := updateFrequency t;
     lastUpdateTime := lastUpdateTime t; updateInterval := updateInterval t;
     notified := notified t |}.

Definition with_timer (t : ProgressTracker) (armed : bool) : ProgressTracker :=
  {| state := state t; updateFrequency := updateFrequency t;
     lastUpdateTime := lastUpdateTime t; updateInterval := armed;
     notified := notified t |}.

(** The events that are never throttled. *)
Definition always_notified (e : ProgressEvent) : bool :=
  match e with
  | SESSION_COMPLETE _ | PHASE_CHANGE _ | MILESTONE_REACHED _ _
  | ERROR_OCCURRED _ _ => true
  | _ => false
  end.

(** [updateProgress(event)]: the state is always updated, the observers
    are notified unless the event falls in the throttle window. *)
Definition updateProgress (env : Env) (e : ProgressEvent) (t : ProgressTracker)
  : ProgressTracker :=
  let s := update env e (state t) in
  if (now env - lastUpdateTime t <? updateFrequency t) && negb (always_notified e)
  then with_state t s
  else {| state := s; updateFrequency := updateFrequency t;
          lastUpdateTime := now env; updateInterval := updateInterval t;
          notified := notified t ++ [e] |}.

(** The public methods of the tracker and the firing of its periodic
    timer ([timerFired]). *)
Inductive TrackerCall :=
| startSession (cfgTotalRecords cfgTotalBatches : Z) (initialPhase : option string)
    (enablePeriodicUpdates : bool)
| progressEvent (e : ProgressEvent)
| sessionComplete (success : bool)
| pause
| resume
| shutdownTracker
| timerFired.

(** [config.initialPhase || 'initialization'] *)
Definition or_initialization (phase : option string) : string :=
  match phase with
  | Some p => if String.eqb p "" then "initialization" else p
  | None => "initialization"
  end.

Definition call (env : Env) (c : TrackerCall) (t : ProgressTracker) : ProgressTracker :=
  match c with
  | startSession total batches phase periodic =>
      let s := set_session (state t) active (Some (now env)) (endTime (state t))
                 total batches in
      let t' := updateProgress env (PHASE_CHANGE (or_initialization phase))
                  (with_state t s) in
      if periodic then with_timer t' true else t'
  | progressEvent e => updateProgress env e t
  | sessionComplete ok =>
      let s := set_session (state t) (if ok then completed else failed)
                 (startTime (state t)) (Some (now env))
                 (totalRecords (state t)) (totalBatches (state t)) in
      with_timer (updateProgress env (SESSION_COMPLETE ok) (with_state t s)) false
  | pause => with_timer (with_state t (set_status (state t) paused)) false
  | resume => with_timer (with_state t (set_status (state t) active)) true
  | shutdownTracker =>
      {| state := set_status (state t) shutdown;
         updateFrequency := updateFrequency t;
         lastUpdateTime := lastUpdateTime t; updateInterval := false;
         notified := notified t |}
  | timerFired =>
      if updateInterval t then
        match status (state t) with
        | active =>
            let st := statistics (state t) in
            updateProgress env
              (STATISTICS_UPDATE (Some {| p_successRate := Some (successRate st);
                                         p_errorRate := Some (errorRate st);
                                         p_throughput := Some (throughput st);
                                         p_duration := Some (duration st);
                                         p_memoryUsage := Some (memoryUsage st) |})) t
        | _ => t
        end
      else t
  end.

(** The trackers reached after each call of a sequence, oldest first. *)
Fixpoint history (t : ProgressTracker) (calls : list (Env * TrackerCall))
  : list ProgressTracker :=
  match calls with
  | [] => []
  | (env, c) :: rest => let t' := call env c t in t' :: history t' rest
  end.

(** The states reached after each event fed to a bare [ProgressState]. *)
Fixpoint updates (s : ProgressState) (events : list (Env * ProgressEvent))
  : list ProgressState :=
  match events with
  | [] => []
  | (env, e) :: rest => let s' := update env e s in s' :: updates s' rest
  end.

(** The three counters of a state, as a triple. *)
Definition counters (s : ProgressState) : Z * Z * Z :=
  (processedRecords s, successfulRecords s, failedRecords s).

(** The counter invariant of the data model. *)
Definition counters_consistent (s : ProgressState) : Prop :=
  processedRecords s = successfulRecords s + failedRecords s.

End Progress.

(* ================================================================== *)
(** * Errors and their retry classification *)

Module Errors.

(** The [retryAfter] argument of a [RateLimitError]: absent
    ([null]/[undefined]), a number, or the text of a Retry-After header
    (a non-empty numeric string, which JavaScript multiplies as the
    number it denotes). *)
Inductive RetryAfter :=
| RaAbsent
| RaNumber (seconds : Z)
| RaHeader (seconds : Z).

(** [retryAfter ? ... : ...]: a non-empty string is truthy, a number is
    truthy unless it is zero. *)
Definition ra_truthy (r : RetryAfter) : bool :=
  match r with
  | RaAbsent => false
  | RaNumber n => negb (n =? 0)
  | RaHeader _ => true
  end.

Definition ra_seconds (r : RetryAfter) : Z :=
  match r with
  | RaAbsent => 0
  | RaNumber n | RaHeader n => n
  end.

(** What the HTTP layer knows about a failed request: the response (its
    status, 0 when it has none, and its Retry-After header) when there is
    one, and the error code of the transport otherwise. *)
Record HttpResponse := { resp_status : Z; retry_after : option Z }.
Record RawError := { raw_response : option HttpResponse; raw_code : option string }.

(** The error classes of the errors module; [ForeignError] is any other
    thrown value (a plain [Error], a Node system error, an axios error). *)
Inductive AppError :=
| ConfigurationError
| ValidationError
| ApiError (status : Z)
| NetworkError
| AuthenticationError
| RateLimitError (retryAfter : RetryAfter)
| ProcessingError
| GraphQLError (errors : option (list (option string)))
| TimeoutError
| ForeignError (raw : RawError).

Definition retryable_statuses : list Z := [429; 500; 502; 503; 504].

Definition includes (l : list Z) (x : Z) : bool := existsb (Z.eqb x) l.

Definition string_includes (l : list string) (x : string) : bool :=
  existsb (String.eqb x) l.

(** The class's own [isRetryable()]; [None] when the class has no such
    method. *)
Definition isRetryable_method (e : AppError) : option bool :=
  match e with
  | ApiError status => Some (includes retryable_statuses status)
  | NetworkError => Some true
  | AuthenticationError => Some false
  | RateLimitError _ => Some true
  | GraphQLError (Some errs) =>
      Some (existsb (fun code =>
              match code with
              | Some c => string_includes ["INTERNAL_ERROR"; "TIMEOUT"] c
              | None => false
              end) errs)
  | GraphQLError None => Some false
  | TimeoutError => Some true
  | ConfigurationError | ValidationError | ProcessingError | ForeignError _ => None
  end.

(** The class's own [getRetryDelay()] in milliseconds; [None] when the
    class has no such method. *)
Definition getRetryDelay_method (e : AppError) : option Z :=
  match e with
  | ApiError status =>
      Some (if status =? 429 then 5000
            else if includes [500; 502; 503; 504] status then 2000
            else 1000)
  | NetworkError => Some 2000
  | RateLimitError ra => Some (if ra_truthy ra then ra_seconds ra * 1000 else 5000)
  | TimeoutError => Some 3000
  | _ => None
  end.

(** The [code] property: the one [BaseError] stores, or the transport's. *)
Definition error_code (e : AppError) : option string :=
  match e with
  | ConfigurationError => Some "CONFIG_ERROR"
  | ValidationError => Some "VALIDATION_ERROR"
  | ApiError _ => Some "API_ERROR"
  | NetworkError => Some "NETWORK_ERROR"
  | AuthenticationError => Some "AUTH_ERROR"
  | RateLimitError _ => Some "RATE_LIMIT_ERROR"
  | ProcessingError => Some "PROCESSING_ERROR"
  | GraphQLError _ => Some "GRAPHQL_ERROR"
  | TimeoutError => Some "TIMEOUT_ERROR"
  | ForeignError raw => raw_code raw
  end.

(** The [response] property as the HTTP client reads it. *)
Definition error_response (e : AppError) : option HttpResponse :=
  match e with
  | ForeignError raw => raw_response raw
  | _ => None
  end.

(** [ErrorFactory.fromHttpResponse(response)] *)
Definition fromHttpResponse (response : HttpResponse) : AppError :=
  let status := resp_status response in
  if (status =? 401) || (status =? 403) then AuthenticationError
  else if status =? 429 then
    RateLimitError (match retry_after response with
                    | Some n => RaHeader n
                    | None => RaAbsent
                    end)
  else ApiError status.

(** [ErrorFactory.fromNetworkError(error)] *)
Definition fromNetworkError (code : option string) : AppError :=
  match code with
  | Some c =>
      if String.eqb c "ECONNREFUSED" then NetworkError
      else if String.eqb c "ENOTFOUND" then NetworkError
      else if String.eqb c "ETIMEDOUT" then TimeoutError
      else NetworkError
  | None => NetworkError
  end.

(** [HttpClient.convertError(error)] *)
Definition convertError (raw : RawError) : AppError :=
  match raw_response raw with
  | Some response => fromHttpResponse response
  | None => fromNetworkError (raw_code raw)
  end.

(** [HttpClient.isRetryableError(error)] *)
Definition isRetryableError (e : AppError) : bool :=
  match isRetryable_method e with
  | Some b => b
  | None =>
      match error_response e with
      | Some response => includes retryable_statuses (resp_status response)
      | None =>
          match error_code e with
          | Some c => string_includes ["ECONNREFUSED"; "ENOTFOUND"; "ETIMEDOUT"] c
          | None => false
          end
      end
  end.

(** [HttpClient.calculateBackoffDelay(attempt, baseDelay)]; [rnd] is the
    value of [Math.random()]. *)
Definition calculateBackoffDelay (rnd : Q) (attempt : Z) (baseDelay : Z) : Z :=
  let exponentialDelay := (inject_Z baseDelay * inject_Z (2 ^ attempt))%Q in
  let jitter := (rnd * (1 # 10) * exponentialDelay)%Q in
  Qfloor (exponentialDelay + jitter).

(** [HttpClient.getRetryDelay(error, attempt)] *)
Definition httpRetryDelay (rnd : Q) (baseDelay : Z) (e : AppError) (attempt : Z) : Z :=
  match getRetryDelay_method e with
  | Some d => d
  | None =>
      match error_response e with
      | Some {| retry_after := Some n |} => n * 1000
      | _ => calculateBackoffDelay rnd attempt baseDelay
      end
  end.

(** [Command.isRetryable()] for a command whose [lastError] is [last]. *)
Definition isRetryable (last : option AppError) : bool :=
  match last with
  | None => false
  | Some e => default false (isRetryable_method e)
  end.

(** [Command.getRetryDelay()] *)
Definition getRetryDelay (attempts : nat) (last : option AppError) : Z :=
  match last with
  | None => 1000
  | Some e =>
      match getRetryDelay_method e with
      | Some d => d
      | None => Z.min (1000 * 2 ^ Z.of_nat attempts) 10000
      end
  end.

(** The classifier's answer for an error: whether a command that failed
    with it may be retried, and the delay before the retry. *)
Record ErrorClassification := { retryable : bool; delayMs : Z }.

Definition classify (attempts : nat) (e : AppError) : ErrorClassification :=
  {| retryable := isRetryable (Some e);
     delayMs := getRetryDelay attempts (Some e) |}.

(** The classification table as the specification words it.  A row is
    [None] where the table is silent (GraphQL protocol errors).  An HTTP
    error is a server error when its status is 5xx; status 429 is the
    rate-limit response. *)
Definition spec_is_5xx (status : Z) : bool := (500 <=? status) && (status <=? 599).

Definition spec_classification (e : AppError) : option ErrorClassification :=
  match e with
  | AuthenticationError => Some {| retryable := false; delayMs := 0 |}
  | RateLimitError RaAbsent => Some {| retryable := true; delayMs := 5000 |}
  | RateLimitError (RaNumber n) | RateLimitError (RaHeader n) =>
      Some {| retryable := true; delayMs := n * 1000 |}
  | ApiError status =>
      if status =? 429 then Some {| retryable := true; delayMs := 5000 |}
      else if spec_is_5xx status then Some {| retryable := true; delayMs := 2000 |}
      else Some {| retryable := false; delayMs := 0 |}
  | TimeoutError => Some {| retryable := true; delayMs := 3000 |}
  | NetworkError => Some {| retryable := true; delayMs := 2000 |}
  | GraphQLError _ => None
  | ValidationError | ConfigurationError | ProcessingError | ForeignError _ =>
      Some {| retryable := false; delayMs := 0 |}
  end.

(** Agreement of a classification with a row: the same verdict and, for
    a retryable error, the same delay (a fatal error has no delay). *)
Definition agrees (c : ErrorClassification) (row : option ErrorClassification) : Prop :=
  match row with
  | None => True
  | Some r =>
      retryable c = retryable r /\
      (retryable r = true -> delayMs c = delayMs r)
  end.

(** The table the code implements: as [spec_classification], except that
    only the statuses 500, 502, 503 and 504 are retryable server errors
    and that a retry-after of zero counts as absent. *)
Definition code_classification (e : AppError) : option ErrorClassification :=
  match e with
  | RateLimitError (RaNumber n) =>
      Some {| retryable := true; delayMs := if n =? 0 then 5000 else n * 1000 |}
  | ApiError status =>
      if status =? 429 then Some {| retryable := true; delayMs := 5000 |}
      else if includes [500; 502; 503; 504] status
           then Some {| retryable := true; delayMs := 2000 |}
           else Some {| retryable := false; delayMs := 0 |}
  | _ => spec_classification e
  end.

(** The same table read off an HTTP response and off a transport error
    code, through [ErrorFactory]. *)
Definition code_http_classification (response : HttpResponse) : ErrorClassification :=
  let status := resp_status response in
  if (status =? 401) || (status =? 403) then {| retryable := false; delayMs := 0 |}
  else if status =? 429 then
    {| retryable := true;
       delayMs := match retry_after response with
                  | Some n => n * 1000
                  | None => 5000
                  end |}
  else if includes [500; 502; 503; 504] status
       then {| retryable := true; delayMs := 2000 |}
       else {| retryable := false; delayMs := 0 |}.

Definition code_network_classification (code : option string) : ErrorClassification :=
  match code with
  | Some c =>
      if String.eqb c "ETIMEDOUT" then {| retryable := true; delayMs := 3000 |}
      else {| retryable := true; delayMs := 2000 |}
  | None => {| retryable := true; delayMs := 2000 |}
  end.

End Errors.

(* ================================================================== *)
(** * Commands and the batch executor *)

Module Commands.
Import Errors.

(** What one call of [apiClient.subscribeUser] does: it resolves with
    data or rejects with an error. *)
Inductive ApiOutcome :=
| Resolved (data : string)
| Rejected (e : AppError).

(** A [SubscribeUserCommand].  [subscribeUser n] is what the API answers
    to the command's [n]-th call (its [attempts] counter at the call). *)
Record Command := {
  commandId : string;
  attempts : nat;
  maxRetries : nat;
  lastError : option AppError;
  subscribeUser : nat -> ApiOutcome
}.

(** [new SubscribeUserCommand(...)]: the base constructor sets
    [attempts = 0], [maxRetries = 3], [lastError = null]. *)
Definition new_SubscribeUserCommand (id : string) (api : nat -> ApiOutcome) : Command :=
  {| commandId := id; attempts := 0; maxRetries := 3; lastError := None;
     subscribeUser := api |}.

(** A [CommandResult] with the metadata the executor reads ([duration]
    and [executedAt] are wall-clock values and left out). *)
Record CommandResult := {
  success : bool;
  data : option string;
  error : option AppError;
  meta_attempts : nat;
  meta_canRetry : option bool
}.

(** [Command.canRetry()] *)
Definition canRetry (c : Command) : bool :=
  (attempts c <? maxRetries c)%nat && isRetryable (lastError c).

(** [SubscribeUserCommand.execute()] *)
Definition execute (c : Command) : CommandResult * Command :=
  let n := S (attempts c) in
  match subscribeUser c n with
  | Resolved d =>
      ({| success := true; data := Some d; error := None;
          meta_attempts := n; meta_canRetry := None |},
       {| commandId := commandId c; attempts := n; maxRetries := maxRetries c;
          lastError := lastError c; subscribeUser := subscribeUser c |})
  | Rejected e =>
      let c' := {| commandId := commandId c; attempts := n;
                   maxRetries := maxRetries c; lastError := Some e;
                   subscribeUser := subscribeUser c |} in
      ({| success := false; data := None; error := Some e;
          meta_attempts := n; meta_canRetry := Some (canRetry c') |}, c')
  end.

(** What the executor did, in order: calls of [execute] with the API's
    answer, and sleeps between tries. *)
Inductive LogEvent :=
| Executed (id : string) (attempt : nat) (outcome : ApiOutcome)
| Slept (ms : Z).

Definition is_try (ev : LogEvent) : bool :=
  match ev with Executed _ _ _ => true | Slept _ => false end.

(** The number of calls of [execute] recorded in a log. *)
Definition tries (log : list LogEvent) : nat := length (List.filter is_try log).

(** The [do ... while] loop of [executeCommandWithRetry]; [fuel] bounds
    the number of iterations the model unrolls and [None] means the bound
    was reached with the loop still running. *)
Fixpoint retryLoop (fuel : nat) (retryFailedCommands : bool) (c : Command)
  : option (CommandResult * Command * list LogEvent) :=
  match fuel with
  | O => None
  | S fuel' =>
      let '(result, c') := execute c in
      let ev := Executed (commandId c) (attempts c') (subscribeUser c (attempts c')) in
      if negb (success result) && canRetry c' && retryFailedCommands
      then
        match retryLoop fuel' retryFailedCommands c' with
        | Some (r, c'', log) =>
            Some (r, c'', ev :: Slept (getRetryDelay (attempts c') (lastError c')) :: log)
        | None => None
        end
      else Some (result, c', [ev])
  end.

(** Iterations that always suffice: one try, and one more for each
    attempt still below the limit. *)
Definition enough (c : Command) : nat := S (maxRetries c - attempts c).

(** [BatchProcessCommand.executeCommandWithRetry(command)] *)
Definition executeCommandWithRetry (retryFailedCommands : bool) (c : Command)
  : option (CommandResult * Command * list LogEvent) :=
  retryLoop (enough c) retryFailedCommands c.

(** [CommandExecutor.execute(command)]: the same loop, always retrying. *)
Definition CommandExecutor_execute (c : Command)
  : option (CommandResult * Command * list LogEvent) :=
  retryLoop (enough c) true c.

(** The options of a [BatchProcessCommand]. *)
Record BatchOptions := {
  concurrency : nat;
  failFast : bool;
  retryFailedCommands : bool
}.

(** [BatchProcessCommand.processSequentially()]: the results in input
    order, the commands as the run left them, and the log. *)
Fixpoint processSequentially (opts : BatchOptions) (commands : list Command)
  : option (list CommandResult * list Command * list LogEvent) :=
  match commands with
  | [] => Some ([], [], [])
  | command :: rest =>
      match executeCommandWithRetry (retryFailedCommands opts) command with
      | None => None
      | Some (result, command', log) =>
          if failFast opts && negb (success result)
          then Some ([result], command' :: rest, log)
          else
            match processSequentially opts rest with
            | None => None
            | Some (results, rest', log') =>
                Some (result :: results, command' :: rest', log ++ log')
            end
      end
  end.

(** The tasks of [processConcurrently] once each has its permit: every
    command is run with retry and [Promise.all] returns the results in
    input order; the log is the one of the schedule that runs the
    commands one after the other. *)
Fixpoint runTasks (opts : BatchOptions) (commands : list Command)
  : option (list CommandResult * list Command * list LogEvent) :=
  match commands with
  | [] => Some ([], [], [])
  | command :: rest =>
      match executeCommandWithRetry (retryFailedCommands opts) command,
            runTasks opts rest with
      | Some (result, command', log), Some (results, rest', log') =>
          Some (result :: results, command' :: rest', log ++ log')
      | _, _ => None
      end
  end.

(** [BatchProcessCommand.processConcurrently()]: each task first waits
    for a permit of [new Semaphore(concurrency)].  Without any permit no
    task ever starts, no permit is ever released and [Promise.all] never
    settles ([None]), unless there is no task at all. *)
Definition processConcurrently (opts : BatchOptions) (commands : list Command)
  : option (list CommandResult * list Command * list LogEvent) :=
  match concurrency opts, commands with
  | O, _ :: _ => None
  | _, _ => runTasks opts commands
  end.

(** [BatchProcessCommand.processBatch()] *)
Definition processBatch (opts : BatchOptions) (commands : list Command)
  : option (list CommandResult * list Command * list LogEvent) :=
  if (concurrency opts =? 1)%nat then processSequentially opts commands
  else processConcurrently opts commands.

(** The final result of a command run on its own, [None] never being
    the case (see [executeCommandWithRetry_total]). *)
Definition finalResult (retry : bool) (c : Command) : option CommandResult :=
  match executeCommandWithRetry retry c with
  | Some (r, _, _) => Some r
  | None => None
  end.

Definition finalCommand (retry : bool) (c : Command) : option Command :=
  match executeCommandWithRetry retry c with
  | Some (_, c', _) => Some c'
  | None => None
  end.

Definition finalLog (retry : bool) (c : Command) : list LogEvent :=
  match executeCommandWithRetry retry c with
  | Some (_, _, log) => log
  | None => []
  end.

Definition succeeds (retry : bool) (c : Command) : bool :=
  match finalResult retry c with
  | Some r => success r
  | None => false
  end.

(** The scenario of the specification: five operations run one at a
    time with fail-fast, the third failing with a credential rejection. *)
Definition always (o : ApiOutcome) : nat -> ApiOutcome := fun _ => o.

Definition scenario_options : BatchOptions :=
  {| concurrency := 1; failFast := true; retryFailedCommands := true |}.

Definition scenario_ok (id : string) : Command :=
  new_SubscribeUserCommand id (always (Resolved "ok")).

Definition scenario_bad : Command :=
  new_SubscribeUserCommand "op3" (always (Rejected AuthenticationError)).

End Commands.

(* ================================================================== *)
(** * Deduplication service *)

Module Dedup.

(** ** JavaScript values and strings *)

(** The values a record field may hold. *)
Inductive JsValue :=
| JUndefined
| JNull
| JString (s : string)
| JNumber (n : Z)
| JBool (b : bool).

Definition truthy (v : JsValue) : bool :=
  match v with
  | JUndefined | JNull => false
  | JString s => negb (String.eqb s "")
  | JNumber n => negb (n =? 0)
  | JBool b => b
  end.

(** [String.prototype.toLowerCase] and [trim] on ASCII text, where the
    letters A to Z are the only ones with a lower case and the characters
    9 to 13 and 32 the only white space.  On other text JavaScript lowers
    and trims more (accented capitals, the no-break space): the two
    functions below are the code's on strings of code units below 128
    only. *)
Definition lower_ascii (c : ascii) : ascii :=
  let n := nat_of_ascii c in
  if ((65 <=? n) && (n <=? 90))%nat then ascii_of_nat (n + 32) else c.

Fixpoint toLowerCase (s : string) : string :=
  match s with
  | EmptyString => EmptyString
  | String c r => String (lower_ascii c) (toLowerCase r)
  end.

Definition is_white (c : ascii) : bool :=
  let n := nat_of_ascii c in
  ((9 <=? n) && (n <=? 13) || (n =? 32))%nat.

Fixpoint trimStart (s : string) : string :=
  match s with
  | EmptyString => EmptyString
  | String c r => if is_white c then trimStart r else s
  end.

Fixpoint trimEnd (s : string) : string :=
  match s with
  | EmptyString => EmptyString
  | String c r =>
      match trimEnd r with
      | EmptyString => if is_white c then EmptyString else String c EmptyString
      | r' => String c r'
      end
  end.

Definition trim (s : string) : string := trimEnd (trimStart s).

(** What a call may raise. *)
Inductive Exception :=
| Error (message : string)
| TypeError (message : string).

Definition message_of (e : Exception) : string :=
  match e with Error m | TypeError m => m end.

(** The completion of a call: a value or a raised exception. *)
Inductive Completion (A : Type) :=
| Normal (a : A)
| Throw (e : Exception).
Arguments Normal {A} a.
Arguments Throw {A} e.

(** [v.toLowerCase()] and [v.trim()] on a truthy value: only strings have
    these methods.  [path] is the text of the property access, which the
    message of the [TypeError] quotes. *)
Definition call_toLowerCase (path : string) (v : JsValue) : Completion string :=
  match v with
  | JString s => Normal (toLowerCase s)
  | _ => Throw (TypeError (path +:+ ".toLowerCase is not a function"))
  end.

Definition call_trim (path : string) (v : JsValue) : Completion string :=
  match v with
  | JString s => Normal (trim s)
  | _ => Throw (TypeError (path +:+ ".trim is not a function"))
  end.

(** [v ? v.toLowerCase().trim() : ''] *)
Definition lowered (path : string) (v : JsValue) : Completion string :=
  if truthy v then
    match call_toLowerCase path v with
    | Normal s => Normal (trim s)
    | Throw e => Throw e
    end
  else Normal "".

(** [v ? v.trim() : ''] *)
Definition trimmed (path : string) (v : JsValue) : Completion string :=
  if truthy v then call_trim path v else Normal "".

(** ** Subscribers *)

Record Subscriber := {
  email : JsValue;
  firstName : JsValue;
  lastName : JsValue;
  phoneNumber : JsValue;
  createdAt : Z
}.

(** A value handed to the service: a [Subscriber] instance or not. *)
Inductive Value :=
| NotSubscriber (v : JsValue)
| IsSubscriber (s : Subscriber).

(** ** Key strategies *)

Inductive Strategy :=
| EmailDeduplicationStrategy
| EmailPhoneDeduplicationStrategy
| StrictDeduplicationStrategy.

Definition bind {A B} (m : Completion A) (f : A -> Completion B) : Completion B :=
  match m with
  | Normal a => f a
  | Throw e => Throw e
  end.

(** [strategy.generateKey(subscriber)] *)
Definition generateKey (strategy : Strategy) (s : Subscriber) : Completion string :=
  match strategy with
  | EmailDeduplicationStrategy => lowered "subscriber.email" (email s)
  | EmailPhoneDeduplicationStrategy =>
      bind (lowered "subscriber.email" (email s)) (fun e =>
      bind (trimmed "subscriber.phoneNumber" (phoneNumber s)) (fun p =>
      Normal (e +:+ "|" +:+ p)))
  | StrictDeduplicationStrategy =>
      bind (lowered "subscriber.email" (email s)) (fun e =>
      bind (trimmed "subscriber.phoneNumber" (phoneNumber s)) (fun p =>
      bind (lowered "subscriber.firstName" (firstName s)) (fun f =>
      bind (lowered "subscriber.lastName" (lastName s)) (fun l =>
      Normal (e +:+ "|" +:+ p +:+ "|" +:+ f +:+ "|" +:+ l)))))
  end.

(** [!key || key.trim() === ''] *)
Definition blank (key : string) : bool :=
  String.eqb key "" || String.eqb (trim key) "".

(** ** The service *)

(** A value of [seenRecords]. *)
Record SeenRecord := {
  subscriber : Subscriber;
  count : Z;
  firstSeen : Z;
  key : string
}.

(** An element of a duplicate group. *)
Record GroupEntry := {
  g_subscriber : Subscriber;
  g_timestamp : Z;
  duplicateNumber : Z
}.

Record DedupStatistics := {
  totalRecords : Z;
  uniqueRecords : Z;
  duplicateRecords : Z;
  duplicateGroupCount : Z
}.

Record DeduplicationService := {
  strategy : Strategy;
  seenRecords : gmap string SeenRecord;
  duplicateGroups : gmap string (list GroupEntry);
  statistics : DedupStatistics
}.

Definition zero_statistics : DedupStatistics :=
  {| totalRecords := 0; uniqueRecords := 0; duplicateRecords := 0;
     duplicateGroupCount := 0 |}.

(** [new DeduplicationService(strategy)] *)
Definition new_DeduplicationService (strategy : option Strategy) : DeduplicationService :=
  {| strategy := default EmailDeduplicationStrategy strategy;
     seenRecords := ∅; duplicateGroups := ∅; statistics := zero_statistics |}.

(** [reset()] *)
Definition reset (svc : DeduplicationService) : DeduplicationService :=
  {| strategy := strategy svc; seenRecords := ∅; duplicateGroups := ∅;
     statistics := zero_statistics |}.

(** [setStrategy(strategy)] *)
Definition setStrategy (st : Strategy) (svc : DeduplicationService) : DeduplicationService :=
  {| strategy := st; seenRecords := seenRecords svc;
     duplicateGroups := duplicateGroups svc; statistics := statistics svc |}.

Record DuplicateResult := {
  isDuplicate : bool;
  originalRecord : option Subscriber;
  duplicateCount : Z;
  timestamp : Z
}.

(** [new DuplicateResult(isDuplicate, originalRecord, duplicateCount)],
    stamped with the clock reading [now]. *)
Definition new_DuplicateResult (now : Z) (dup : bool) (orig : option Subscriber)
    (n : Z) : DuplicateResult :=
  {| isDuplicate := dup; originalRecord := orig; duplicateCount := n;
     timestamp := now |}.

Definition count_total (st : DedupStatistics) : DedupStatistics :=
  {| totalRecords := totalRecords st + 1; uniqueRecords := uniqueRecords st;
     duplicateRecords := duplicateRecords st;
     duplicateGroupCount := duplicateGroupCount st |}.

Definition count_unique (st : DedupStatistics) : DedupStatistics :=
  {| totalRecords := totalRecords st; uniqueRecords := uniqueRecords st + 1;
     duplicateRecords := duplicateRecords st;
     duplicateGroupCount := duplicateGroupCount st |}.

Definition count_duplicate (st : DedupStatistics) : DedupStatistics :=
  {| totalRecords := totalRecords st; uniqueRecords := uniqueRecords st;
     duplicateRecords := duplicateRecords st + 1;
     duplicateGroupCount := duplicateGroupCount st |}.

Definition with_statistics (svc : DeduplicationService) (st : DedupStatistics)
  : DeduplicationService :=
  {| strategy := strategy svc; seenRecords := seenRecords svc;
     duplicateGroups := duplicateGroups svc; statistics := st |}.

(** The clock: [clock n] is the [n]-th reading of [new Date()] since the
    start; the number of readings taken so far is threaded with the
    service. *)
Definition Clock := nat -> Z.

(** [checkDuplicate(subscriber)], started when [t] readings have been
    taken: the completion, the service afterwards and the readings taken
    by then. *)
Definition checkDuplicate (clock : Clock) (t : nat) (svc : DeduplicationService)
    (v : Value) : Completion DuplicateResult * DeduplicationService * nat :=
  match v with
  | NotSubscriber _ => (Throw (Error "Data must be a Subscriber instance"), svc, t)
  | IsSubscriber sub =>
      let svc1 := with_statistics svc (count_total (statistics svc)) in
      match generateKey (strategy svc1) sub with
      | Throw e => (Throw e, svc1, t)
      | Normal k =>
          if blank k then
            (Normal (new_DuplicateResult (clock t) false None 0),
             with_statistics svc1 (count_unique (statistics svc1)), S t)
          else
            match seenRecords svc1 !! k with
            | Some existingRecord =>
                let n := count existingRecord + 1 in
                let seen := <[k := {| subscriber := subscriber existingRecord;
                                      count := n;
                                      firstSeen := firstSeen existingRecord;
                                      key := key existingRecord |}]> (seenRecords svc1) in
                let group := default [] (duplicateGroups svc1 !! k) in
                let groups := <[k := group ++ [ {| g_subscriber := sub;
                                                   g_timestamp := clock t;
                                                   duplicateNumber := n |} ]]>
                                (duplicateGroups svc1) in
                (Normal (new_DuplicateResult (clock (S t)) true
                           (Some (subscriber existingRecord)) n),
                 {| strategy := strategy svc1; seenRecords := seen;
                    duplicateGroups := groups;
                    statistics := count_duplicate (statistics svc1) |},
                 S (S t))
            | None =>
                let seen := <[k := {| subscriber := sub; count := 1;
                                      firstSeen := clock t; key := k |}]>
                              (seenRecords svc1) in
                (Normal (new_DuplicateResult (clock (S t)) false None 0),
                 {| strategy := strategy svc1; seenRecords := seen;
                    duplicateGroups := duplicateGroups svc1;
                    statistics := count_unique (statistics svc1) |},
                 S (S t))
            end
      end
  end.

(** The object [processBatch] returns. *)
Record BatchResult := {
  unique : list Value;
  duplicates : list (Value * DuplicateResult);
  errors : list (Value * string)
}.

Definition empty_result : BatchResult :=
  {| unique := []; duplicates := []; errors := [] |}.

(** The body of the [for ... of] loop of [processBatch] with its
    [try]/[catch]. *)
Definition processOne (clock : Clock)
    (acc : BatchResult * DeduplicationService * nat) (v : Value)
  : BatchResult * DeduplicationService * nat :=
  let '(results, svc, t) := acc in
  match checkDuplicate clock t svc v with
  | (Normal duplicateResult, svc', t') =>
      if isDuplicate duplicateResult
      then ({| unique := unique results;
               duplicates := duplicates results ++ [(v, duplicateResult)];
               errors := errors results |}, svc', t')
      else ({| unique := unique results ++ [v];
               duplicates := duplicates results;
               errors := errors results |}, svc', t')
  | (Throw e, svc', t') =>
      ({| unique := unique results; duplicates := duplicates results;
          errors := errors results ++ [(v, message_of e)] |}, svc', t')
  end.

Definition processLoop (clock : Clock) (acc : BatchResult * DeduplicationService * nat)
    (subscribers : list Value) : BatchResult * DeduplicationService * nat :=
  fold_left (processOne clock) subscribers acc.

(** [processBatch(subscribers)] *)
Definition processBatch (clock : Clock) (t : nat) (svc : DeduplicationService)
    (subscribers : list Value) : BatchResult * DeduplicationService * nat :=
  let '(results, svc', t') := processLoop clock (empty_result, svc, t) subscribers in
  (results,
   with_statistics svc'
     {| totalRecords := totalRecords (statistics svc');
        uniqueRecords := uniqueRecords (statistics svc');
        duplicateRecords := duplicateRecords (statistics svc');
        duplicateGroupCount := Z.of_nat (size (duplicateGroups svc')) |},
   t').

(** A batch result without the wall-clock stamps of its
    [DuplicateResult]s. *)
Definition unstamped (d : Value * DuplicateResult)
  : Value * (bool * option Subscriber * Z) :=
  (d.1, (isDuplicate d.2, originalRecord d.2, duplicateCount d.2)).

Definition partition_of (r : BatchResult)
  : list Value * list (Value * (bool * option Subscriber * Z)) * list (Value * string) :=
  (unique r, map unstamped (duplicates r), errors r).

(** Whether [checkDuplicate] raises on a value, and with what. *)
Definition raises (st : Strategy) (v : Value) : option Exception :=
  match v with
  | NotSubscriber _ => Some (Error "Data must be a Subscriber instance")
  | IsSubscriber s =>
      match generateKey st s with
      | Throw e => Some e
      | Normal _ => None
      end
  end.

(** The size of a batch result. *)
Definition classified (r : BatchResult) : nat :=
  (length (unique r) + length (duplicates r) + length (errors r))%nat.


(** What a [seenRecords] entry says apart from its wall-clock stamp, and
    two services that agree on it. *)
Definition view (r : SeenRecord) : Subscriber * Z := (subscriber r, count r).

Definition similar (s1 s2 : DeduplicationService) : Prop :=
  strategy s1 = strategy s2 /\
  view <$> seenRecords s1 = view <$> seenRecords s2.

(** The element [processBatch] adds to [errors] for a value that raises. *)
Definition error_entry (st : Strategy) (v : Value) : option (Value * string) :=
  match raises st v with
  | Some e => Some (v, message_of e)
  | None => None
  end.

(** Sample subscribers. *)
Definition subscriber_of (mail : string) (row : Z) : Subscriber :=
  {| email := JString mail; firstName := JString ""; lastName := JString "";
     phoneNumber := JString ""; createdAt := row |}.

Definition no_email (row : Z) : Subscriber :=
  {| email := JUndefined; firstName := JString ""; lastName := JString "";
     phoneNumber := JString ""; createdAt := row |}.

Definition ten_first : Subscriber := subscriber_of "Ann@Example.com" 3.
Definition ten_second : Subscriber := subscriber_of " ann@example.COM " 7.

(** A subscriber whose email is a number, and a service that has
    already met two records without email. *)
Definition numeric_email : Subscriber :=
  {| email := JNumber 42; firstName := JString ""; lastName := JString "";
     phoneNumber := JString ""; createdAt := 1 |}.

(** A clock that advances by one millisecond at each reading. *)
Definition ticking : Clock := fun n => Z.of_nat n.


(** Running the same batch twice, each time on the freshly reset
    service, with the clock going on: the two batch results. *)
Definition rerun (clock : Clock) (t : nat) (svc : DeduplicationService)
    (subscribers : list Value) : BatchResult * BatchResult :=
  let '(r1, svc1, t1) := processBatch clock t (reset svc) subscribers in
  let '(r2, _, _) := processBatch clock t1 (reset svc1) subscribers in
  (r1, r2).

(** Where [processBatch] files a value. *)
Inductive Filed := AsUnique | AsDuplicate | AsError.

#[global] Instance Filed_eq_dec : EqDecision Filed.
Proof. solve_decision. Defined.

(** The values filed under [l], in order, when the values of a list are
    filed position by position as [labels] says. *)
Fixpoint filedAs (l : Filed) (labels : list Filed) (vs : list Value) : list Value :=
  match labels, vs with
  | label :: labels', v :: vs' =>
      if bool_decide (label = l) then v :: filedAs l labels' vs'
      else filedAs l labels' vs'
  | _, _ => []
  end.

#[global] Instance JsValue_eq_dec : EqDecision JsValue.
Proof. solve_decision. Defined.
#[global] Instance Exception_eq_dec : EqDecision Exception.
Proof. solve_decision. Defined.
#[global] Instance Completion_eq_dec {A} `{EqDecision A} : EqDecision (Completion A).
Proof. solve_decision. Defined.

End Dedup.

(* ================================================================== *)
(** * Rate limiter (token bucket) *)

Module Limiter.

Record RateLimiter := {
  tokens : Q;
  maxTokens : Q;
  refillRate : Q;
  lastRefill : Z
}.

(** [new RateLimiter(requestsPerSecond, burstSize)], built at time [now]
    (milliseconds). *)
Definition new_RateLimiter (now : Z) (requestsPerSecond burstSize : Q) : RateLimiter :=
  {| tokens := burstSize; maxTokens := burstSize;
     refillRate := requestsPerSecond; lastRefill := now |}.

(** [refillTokens()] at clock reading [now]. *)
Definition refillTokens (now : Z) (r : RateLimiter) : RateLimiter :=
  let timePassed := (inject_Z (now - lastRefill r) / 1000)%Q in
  let tokensToAdd := (timePassed * refillRate r)%Q in
  {| tokens := Qmin (maxTokens r) (tokens r + tokensToAdd);
     maxTokens := maxTokens r; refillRate := refillRate r; lastRefill := now |}.

(** One pass through the body of [acquire()], at clock reading [now]:
    after the refill it either takes a token and returns ([true]) or goes
    to sleep before calling itself again ([false]). *)
Definition tryAcquire (now : Z) (r : RateLimiter) : bool * RateLimiter :=
  let r1 := refillTokens now r in
  if Qle_bool 1 (tokens r1)
  then (true, {| tokens := (tokens r1 - 1)%Q; maxTokens := maxTokens r1;
                 refillRate := refillRate r1; lastRefill := lastRefill r1 |})
  else (false, r1).

(** The sleep before the next pass, in milliseconds. *)
Definition waitTime (r : RateLimiter) : Q := (1 / refillRate r * 1000)%Q.

(** [acquire()] for a single caller: [clock] lists the readings of the
    successive passes; the result is the limiter once the token is taken
    and the sleeps made, [None] when the readings run out first. *)
Fixpoint acquire (clock : list Z) (r : RateLimiter) : option (RateLimiter * list Q) :=
  match clock with
  | [] => None
  | now :: later =>
      match tryAcquire now r with
      | (true, r') => Some (r', [])
      | (false, r') =>
          match acquire later r' with
          | Some (r'', sleeps) => Some (r'', waitTime r' :: sleeps)
          | None => None
          end
      end
  end.

(** [getAvailableTokens()] at clock reading [now]. *)
Definition getAvailableTokens (now : Z) (r : RateLimiter) : Z * RateLimiter :=
  let r1 := refillTokens now r in
  (Qfloor (tokens r1), r1).

(** The operations on a shared limiter, each with the clock reading it
    takes.  [Acquire] is one pass of [acquire()]: a call of [acquire()]
    is a run of passes, between which other callers may operate. *)
Inductive Operation :=
| Acquire (now : Z)
| Refill (now : Z)
| GetAvailableTokens (now : Z).

Definition time_of (op : Operation) : Z :=
  match op with Acquire t | Refill t | GetAvailableTokens t => t end.

(** The limiter after an operation and what [getAvailableTokens]
    reported, if that was the operation. *)
Definition step (op : Operation) (r : RateLimiter) : RateLimiter * option Z :=
  match op with
  | Acquire now => ((tryAcquire now r).2, None)
  | Refill now => (refillTokens now r, None)
  | GetAvailableTokens now =>
      let '(n, r') := getAvailableTokens now r in (r', Some n)
  end.

(** The limiters reached and the reports made along a sequence of
    operations, oldest first. *)
Fixpoint run (r : RateLimiter) (ops : list Operation)
  : list (RateLimiter * option Z) :=
  match ops with
  | [] => []
  | op :: rest => let '(r', out) := step op r in (r', out) :: run r' rest
  end.

(** The clock does not run backwards: each reading is at or after the
    previous one, starting from [t0]. *)
Fixpoint monotone (t0 : Z) (ops : list Operation) : Prop :=
  match ops with
  | [] => True
  | op :: rest => t0 <= time_of op /\ monotone (time_of op) rest
  end.

(** What the claim asks of a limiter of burst capacity [c] and of a
    report of [getAvailableTokens]. *)
Definition within (c : Q) (r : RateLimiter) : Prop :=
  (0 <= tokens r)%Q /\ (tokens r <= c)%Q.

Definition report_within (c : Q) (out : option Z) : Prop :=
  match out with
  | Some n => 0 <= n /\ (inject_Z n <= c)%Q
  | None => True
  end.

(** The upper half alone, which needs nothing of the clock. *)
Definition at_most (c : Q) (r : RateLimiter) : Prop :=
  (tokens r <= c)%Q /\ maxTokens r = c.

Definition report_at_most (c : Q) (out : option Z) : Prop :=
  match out with
  | Some n => (inject_Z n <= c)%Q
  | None => True
  end.

(** The invariant carried along a run: the tokens are within bounds, the
    configuration is the one the limiter was built with, and the last
    refill is not in the future. *)
Definition invariant (rate c : Q) (t : Z) (r : RateLimiter) : Prop :=
  within c r /\ maxTokens r = c /\ refillRate r = rate /\ lastRefill r <= t.

(** The scenario of the specification: capacity 2, one token per second,
    three acquisitions at once, a look at the bucket and a later pass. *)
Definition scenario : list Operation :=
  [Acquire 0; Acquire 0; Acquire 0; GetAvailableTokens 500; Acquire 1000;
   GetAvailableTokens 60000].

(** A limiter emptied at clock reading 10000, and a look at the bucket
    after the clock has been set back by three seconds. *)
Definition clock_set_back : list Operation :=
  [Acquire 10000; Acquire 10000; Acquire 10000; Acquire 10000; Acquire 10000;
   GetAvailableTokens 7000].

End Limiter.

(* ================================================================== *)
(** * Checkpoint store *)

Module Persistence.

(** The [state] snapshot of a checkpoint (the counters and labels the
    store reads back). *)
Record CheckpointState := {
  currentPhase : string;
  status : string;
  totalRecords : Z;
  processedRecords : Z;
  successfulRecords : Z;
  failedRecords : Z
}.

(** A checkpoint document; [timestamp] is the instant its ISO string
    denotes, in milliseconds. *)
Record ProgressCheckpoint := {
  id : string;
  timestamp : Z;
  sessionId : option string;
  state : option CheckpointState;
  csvFile : option string;
  lastProcessedBatch : Z;
  lastProcessedRecord : Z
}.

Definition status_name (s : Progress.Status) : string :=
  match s with
  | Progress.idle => "idle"
  | Progress.active => "active"
  | Progress.paused => "paused"
  | Progress.completed => "completed"
  | Progress.failed => "failed"
  | Progress.shutdown => "shutdown"
  end.

(** [new ProgressCheckpoint(progressState, sessionData)] at clock reading
    [now]; [name] is the text [`checkpoint_${Date.now()}`]. *)
Definition new_ProgressCheckpoint (now : Z) (name : string)
    (p : Progress.ProgressState) (csv : option string) (batch record : Z)
  : ProgressCheckpoint :=
  {| id := name; timestamp := now;
     sessionId := Progress.sessionId p;
     state := Some {| currentPhase := Progress.currentPhase p;
                      status := status_name (Progress.status p);
                      totalRecords := Progress.totalRecords p;
                      processedRecords := Progress.processedRecords p;
                      successfulRecords := Progress.successfulRecords p;
                      failedRecords := Progress.failedRecords p |};
     csvFile := csv; lastProcessedBatch := batch; lastProcessedRecord := record |}.

(** [isValid()] *)
Definition isValid (c : ProgressCheckpoint) : bool :=
  match sessionId c, state c with
  | Some sid, Some st =>
      negb (String.eqb sid "")
      && negb (String.eqb (status st) "completed")
      && negb (String.eqb (status st) "failed")
      && (processedRecords st <? totalRecords st)
  | _, _ => false
  end.




(** ** The storage directory *)

(** What reading and parsing a file gives. *)
Inductive FileContent :=
| Unreadable
| Json (c : ProgressCheckpoint).



(** [name.endsWith(suffix)] *)
Definition endsWith (name suffix : string) : bool :=
  let n := String.length name in
  let k := String.length suffix in
  (k <=? n)%nat && String.eqb (substring (n - k) k name) suffix.

(** [listCheckpoints(sessionId)] on the files of the session's
    directory: the documents of the readable [.json] files. *)
Fixpoint listCheckpoints (files : list (string * FileContent)) : list ProgressCheckpoint :=
  match files with
  | [] => []
  | (name, content) :: rest =>
      if endsWith name ".json" then
        match content with
        | Json c => c :: listCheckpoints rest
        | Unreadable => listCheckpoints rest
        end
      else listCheckpoints rest
  end.

(** [array.sort((a, b) => new Date(b.timestamp) - new Date(a.timestamp))]:
    a stable sort, newest first. *)
Section Sort.
Context {A : Type} (stamp : A -> Z).

Fixpoint insertNewestFirst (x : A) (l : list A) : list A :=
  match l with
  | [] => [x]
  | y :: l' =>
      if stamp y <=? stamp x then x :: y :: l'
      else y :: insertNewestFirst x l'
  end.

Fixpoint sortNewestFirst (l : list A) : list A :=
  match l with
  | [] => []
  | x :: l' => insertNewestFirst x (sortNewestFirst l')
  end.
End Sort.

(** How [loadLatestCheckpoint] completes. *)
Inductive Load :=
| Loaded (c : ProgressCheckpoint)
| NoCheckpoint
| LoadFailed.

(** [fs.readFile] of [name] in a directory. *)
Definition readFile (files : list (string * FileContent)) (name : string)
  : option FileContent :=
  snd <$> find (fun f => String.eqb (fst f) name) files.

(** [deserializeCheckpoint(data)]: it reads [data.state.startTime] and so
    raises on a document without state. *)
Definition deserializeCheckpoint (c : ProgressCheckpoint) : Load :=
  match state c with
  | Some _ => Loaded c
  | None => LoadFailed
  end.

(** [loadLatestCheckpoint(sessionId)] on the session's files: the newest
    listed document names the file that is then read again. *)
Definition loadLatestCheckpoint (files : list (string * FileContent)) : Load :=
  match sortNewestFirst timestamp (listCheckpoints files) with
  | [] => NoCheckpoint
  | latestCheckpoint :: _ =>
      match readFile files (id latestCheckpoint +:+ ".json") with
      | Some (Json c) => deserializeCheckpoint c
      | Some Unreadable | None => LoadFailed
      end
  end.



(** ** The vocabulary of the specification *)


(** The latest checkpoint of a session: a stored one no other is newer
    than. *)
Definition latest (files : list (string * FileContent)) (c : ProgressCheckpoint) : Prop :=
  In c (listCheckpoints files) /\
  forall c', In c' (listCheckpoints files) -> timestamp c' <= timestamp c.

(** A session directory as [saveCheckpoint] fills it: every document is
    in the file named after its id, belongs to the session the directory
    is named after, has a state and a timestamp of its own. *)
Definition saved_session (name : string) (files : list (string * FileContent)) : Prop :=
  name <> "" /\
  NoDup (map fst files) /\
  NoDup (map timestamp (listCheckpoints files)) /\
  forall f c, In (f, Json c) files ->
    f = id c +:+ ".json" /\ sessionId c = Some name /\ state c <> None.



(** A sample storage directory: a session checkpointed twice at 20 and
    40 of 100 records, a completed session, and a stray file. *)
Definition sample_checkpoint (sid name : string) (time : Z) (st : string)
    (processed total : Z) : ProgressCheckpoint :=
  {| id := name; timestamp := time; sessionId := Some sid;
     state := Some {| currentPhase := "submitting"; status := st;
                      totalRecords := total; processedRecords := processed;
                      successfulRecords := processed; failedRecords := 0 |};
     csvFile := Some "subscribers.csv";
     lastProcessedBatch := 0; lastProcessedRecord := processed |}.


End Persistence.

(* ================================================================== *)
(** * Progress tracker: summaries and event counts *)

Module ProgressSummary.
Import Progress.

(** [getCompletionPercentage()] *)
Definition getCompletionPercentage (s : ProgressState) : Q :=
  if totalRecords s =? 0 then 0%Q
  else Qmin 100 (inject_Z (processedRecords s) / inject_Z (totalRecords s) * 100)%Q.

(** The object [getStatusSummary()] returns. *)
Record StatusSummary := {
  sum_sessionId : option string;
  sum_phase : string;
  sum_status : Status;
  sum_completion : Q;
  sum_processed : Z;
  sum_total : Z;
  sum_successful : Z;
  sum_failed : Z;
  sum_currentBatch : Z;
  sum_totalBatches : Z;
  sum_eta : Q;
  sum_throughput : Q;
  sum_statistics : Statistics;
  sum_errors : nat;
  sum_warnings : nat
}.

(** [getStatusSummary()] *)
Definition getStatusSummary (s : ProgressState) : StatusSummary :=
  {| sum_sessionId := sessionId s;
     sum_phase := currentPhase s;
     sum_status := status s;
     sum_completion := getCompletionPercentage s;
     sum_processed := processedRecords s;
     sum_total := totalRecords s;
     sum_successful := successfulRecords s;
     sum_failed := failedRecords s;
     sum_currentBatch := currentBatch s;
     sum_totalBatches := totalBatches s;
     sum_eta := estimatedTimeRemaining s;
     sum_throughput := recordsPerSecond s;
     sum_statistics := statistics s;
     sum_errors := length (errors s);
     sum_warnings := length (warnings s) |}.

(** [ProgressTracker.getProgress()] *)
Definition getProgress (t : ProgressTracker) : StatusSummary :=
  getStatusSummary (state t).

(** The state after a sequence of events, and the tracker after a
    sequence of calls of [updateProgress]. *)
Definition feed (s : ProgressState) (events : list (Env * ProgressEvent)) : ProgressState :=
  fold_left (fun s ee => update (fst ee) (snd ee) s) events s.

Definition feedTracker (t : ProgressTracker) (events : list (Env * ProgressEvent))
  : ProgressTracker :=
  fold_left (fun t ee => updateProgress (fst ee) (snd ee) t) events t.

(** The tracker after a sequence of calls. *)
Definition calls (t : ProgressTracker) (cs : list (Env * TrackerCall)) : ProgressTracker :=
  fold_left (fun t ec => call (fst ec) (snd ec) t) cs t.

(** Kinds of events. *)
Definition is_record (ok : bool) (e : ProgressEvent) : bool :=
  match e with RECORD_PROCESSED b => Bool.eqb b ok | _ => false end.

Definition is_error (e : ProgressEvent) : bool :=
  match e with ERROR_OCCURRED _ _ => true | _ => false end.

Definition is_warning (e : ProgressEvent) : bool :=
  match e with WARNING_OCCURRED _ _ => true | _ => false end.

Definition is_milestone (e : ProgressEvent) : bool :=
  match e with MILESTONE_REACHED _ _ => true | _ => false end.

(** How many events of a kind a sequence holds. *)
Definition count (kind : ProgressEvent -> bool) (events : list (Env * ProgressEvent)) : nat :=
  length (List.filter (fun ee => kind (snd ee)) events).

(** The calls that only report progress: they feed an event or are the
    periodic timer. *)
Definition reports_progress (c : TrackerCall) : bool :=
  match c with
  | progressEvent _ | timerFired => true
  | _ => false
  end.

Definition terminal (st : Status) : bool :=
  match st with completed | failed => true | _ => false end.

End ProgressSummary.

(* ================================================================== *)
(** * Commands: the semaphore of the concurrent mode *)

Module Pool.

(** [Semaphore]: the permits left and the callers waiting, oldest first
    (a caller stands for the [resolve] function it pushed). *)
Record Semaphore := { count : Z; waiting : list nat }.

(** [new Semaphore(count)] *)
Definition new_Semaphore (n : Z) : Semaphore := {| count := n; waiting := [] |}.

(** [acquire()] called by [who]: the semaphore afterwards, and whether
    the promise is resolved at once. *)
Definition acquire (who : nat) (s : Semaphore) : Semaphore * bool :=
  if 0 <? count s
  then ({| count := count s - 1; waiting := waiting s |}, true)
  else ({| count := count s; waiting := waiting s ++ [who] |}, false).

(** [release()]: the semaphore afterwards, and the waiting caller it
    resolves, if any. *)
Definition release (s : Semaphore) : Semaphore * option nat :=
  match waiting s with
  | w :: rest => ({| count := count s; waiting := rest |}, Some w)
  | [] => ({| count := count s + 1; waiting := [] |}, None)
  end.

(** The tasks of [processConcurrently] around their semaphore:
    [running] lists the tasks whose [acquire()] has resolved and whose
    [release()] is still to come. *)
Record Tasks := { sem : Semaphore; running : list nat }.

Definition new_Tasks (concurrency : Z) : Tasks :=
  {| sem := new_Semaphore concurrency; running := [] |}.

Inductive Op :=
| Acquire (who : nat)
| Release (who : nat).

Definition without (who : nat) (l : list nat) : list nat :=
  List.filter (fun x => negb (x =? who)%nat) l.

Definition step (op : Op) (p : Tasks) : Tasks :=
  match op with
  | Acquire who =>
      let '(s, resolved) := acquire who (sem p) in
      {| sem := s; running := if resolved then running p ++ [who] else running p |}
  | Release who =>
      let '(s, woken) := release (sem p) in
      {| sem := s;
         running := without who (running p) ++
                    match woken with Some w => [w] | None => [] end |}
  end.

Definition steps (p : Tasks) (ops : list Op) : Tasks := fold_left (fun p op => step op p) ops p.

(** The way [processConcurrently] uses the semaphore: a task calls
    [acquire()] once, and [release()] once, in the [finally] that follows
    the resolution of its [acquire()]. *)
Fixpoint well_bracketed (p : Tasks) (ops : list Op) : Prop :=
  match ops with
  | [] => True
  | op :: rest =>
      match op with
      | Acquire who => ~ In who (running p) /\ ~ In who (waiting (sem p))
      | Release who => In who (running p)
      end /\ well_bracketed (step op p) rest
  end.

(** What holds of the tasks of a semaphore of [n] permits. *)
Definition balanced (n : Z) (p : Tasks) : Prop :=
  0 <= count (sem p) /\
  count (sem p) + Z.of_nat (length (running p)) = n /\
  (waiting (sem p) = [] \/ count (sem p) = 0) /\
  NoDup (running p ++ waiting (sem p)).

End Pool.

(* ================================================================== *)
(** * Commands: answers of the API along the tries *)

Module Retries.
Import Errors Commands.

(** The API rejects every call with an error that may be retried. *)
Definition always_rejected (c : Command) : Prop :=
  forall n, exists e, subscribeUser c n = Rejected e /\ isRetryable (Some e) = true.

(** The API rejects the calls [attempts c + 1 .. attempts c + k] with the
    errors [err] gives, all of which may be retried. *)
Definition rejected_for (k : nat) (err : nat -> AppError) (c : Command) : Prop :=
  forall n, (attempts c < n <= attempts c + k)%nat ->
            subscribeUser c n = Rejected (err n) /\ isRetryable (Some (err n)) = true.

(** The log of [k] failed tries after the [a]-th, each followed by its
    sleep. *)
Fixpoint failedTries (id : string) (err : nat -> AppError) (a k : nat) : list LogEvent :=
  match k with
  | O => []
  | S k' =>
      Executed id (S a) (Rejected (err (S a))) ::
      Slept (getRetryDelay (S a) (Some (err (S a)))) ::
      failedTries id err (S a) k'
  end.

(** The statistics [BatchProcessCommand.execute()] reports. *)
Record BatchStatistics := { total : nat; successful : nat; failed : nat }.

(** [BatchProcessCommand.execute()]: the batch's own result is a success
    whose data are the results of the commands. *)
Definition BatchProcessCommand_execute (opts : BatchOptions) (commands : list Command)
  : option (bool * list CommandResult * BatchStatistics) :=
  match processBatch opts commands with
  | Some (results, _, _) =>
      let successful := length (List.filter success results) in
      Some (true, results,
            {| total := length results; successful := successful;
               failed := length results - successful |})
  | None => None
  end.

End Retries.

(* ================================================================== *)
(** * HTTP client *)

Module Http.
Import Errors.

(** The options handed to [new HttpClient(options)]; a field is [None]
    when the options have no such key.  The values are numbers. *)
Record Options := {
  opt_retryAttempts : option Z;
  opt_retryBaseDelay : option Z;
  opt_rateLimitRequestsPerSecond : option Q;
  opt_rateLimitBurstSize : option Q
}.

Record Config := {
  retryAttempts : Z;
  retryBaseDelay : Z;
  rateLimitRequestsPerSecond : Q;
  rateLimitBurstSize : Q
}.

(** [options.key || fallback] for a number. *)
Definition orZ (v : option Z) (fallback : Z) : Z :=
  match v with
  | Some n => if n =? 0 then fallback else n
  | None => fallback
  end.

Definition orQ (v : option Q) (fallback : Q) : Q :=
  match v with
  | Some q => if Qeq_bool q 0 then fallback else q
  | None => fallback
  end.

(** The constructor's [this.config = { key: options.key || fallback, ...,
    ...options }]: the spread written last puts back every key the
    options have. *)
Definition new_Config (options : Options) : Config :=
  {| retryAttempts :=
       default (orZ (opt_retryAttempts options) 3) (opt_retryAttempts options);
     retryBaseDelay :=
       default (orZ (opt_retryBaseDelay options) 1000) (opt_retryBaseDelay options);
     rateLimitRequestsPerSecond :=
       default (orQ (opt_rateLimitRequestsPerSecond options) 1)
               (opt_rateLimitRequestsPerSecond options);
     rateLimitBurstSize :=
       default (orQ (opt_rateLimitBurstSize options) 5)
               (opt_rateLimitBurstSize options) |}.

(** [new RateLimiter(config.rateLimitRequestsPerSecond,
    config.rateLimitBurstSize)], built at time [now]. *)
Definition new_limiter (now : Z) (config : Config) : Limiter.RateLimiter :=
  Limiter.new_RateLimiter now (rateLimitRequestsPerSecond config)
                          (rateLimitBurstSize config).

(** What [this.axios(requestConfig)] does: it resolves with a response
    or rejects with an error. *)
Inductive AxiosOutcome :=
| Responded (data : string)
| Failed (raw : RawError).

(** A [RequestResult] ([duration] and [timestamp] are wall-clock values
    and left out). *)
Record RequestResult := {
  success : bool;
  data : option string;
  error : option AppError;
  attempts : Z
}.

(** What [request()] did, in order. *)
Inductive HttpEvent :=
| Sent (attempt : Z) (outcome : AxiosOutcome)
| Slept (ms : Z).




(** The [while (attempts < this.config.retryAttempts)] loop of
    [request()] and the [return] after it.  [axios n] is the outcome of
    the [n]-th call, [rnd n] the value [Math.random()] gives after it;
    [fuel] bounds the iterations the model unrolls. *)
Fixpoint requestLoop (fuel : nat) (config : Config) (axios : Z -> AxiosOutcome)
    (rnd : Z -> Q) (attempts : Z) (lastError : option AppError)
  : option (RequestResult * list HttpEvent) :=
  match fuel with
  | O => None
  | S fuel' =>
      if attempts <? retryAttempts config then
        let attempts := attempts + 1 in
        match axios attempts with
        | Responded d =>
            Some ({| success := true; data := Some d; error := None;
                     attempts := attempts |},
                  [Sent attempts (Responded d)])
        | Failed raw =>
            let lastError := convertError raw in
            if (retryAttempts config <=? attempts) || negb (isRetryableError lastError)
            then Some ({| success := false; data := None; error := Some lastError;
                          attempts := attempts |},
                       [Sent attempts (Failed raw)])
            else
              let retryDelay :=
                httpRetryDelay (rnd attempts) (retryBaseDelay config) lastError
                               (attempts - 1) in
              match requestLoop fuel' config axios rnd attempts (Some lastError) with
              | Some (r, log) =>
                  Some (r, Sent attempts (Failed raw) :: Slept retryDelay :: log)
              | None => None
              end
        end
      else Some ({| success := false; data := None; error := lastError;
                    attempts := attempts |}, [])
  end.

(** Iterations that always suffice. *)
Definition enough (config : Config) : nat := S (Z.to_nat (retryAttempts config)).

(** [request(requestConfig)]: a token is taken from the rate limiter
    first, [clock] listing the readings of the passes of [acquire()]; then
    the loop runs.  The result is [None] when [acquire()] has not returned
    by the end of the readings. *)
Definition request (config : Config) (limiter : Limiter.RateLimiter) (clock : list Z)
    (axios : Z -> AxiosOutcome) (rnd : Z -> Q)
  : option (RequestResult * Limiter.RateLimiter * list HttpEvent) :=
  match Limiter.acquire clock limiter with
  | None => None
  | Some (limiter', _) =>
      match requestLoop (enough config) config axios rnd 0 None with
      | Some (r, log) => Some (r, limiter', log)
      | None => None
      end
  end.

(** Header values are strings; the empty string is the falsy one. *)
Definition present (v : option string) : bool :=
  match v with
  | Some s => negb (String.eqb s "")
  | None => false
  end.

Definition mask : string := "Bearer ***".

(** [sanitizeHeaders(headers)] *)
Definition sanitizeHeaders (headers : gmap string string) : gmap string string :=
  let sanitized := headers in
  let sanitized :=
    if present (sanitized !! "Authorization")
    then <["Authorization" := mask]> sanitized else sanitized in
  if present (sanitized !! "authorization")
  then <["authorization" := mask]> sanitized else sanitized.

(** A sample server: the first call fails with status 503, the next
    ones are answered. *)
Definition two_calls (n : Z) : AxiosOutcome :=
  if n =? 1 then Failed {| raw_response := Some {| resp_status := 503; retry_after := None |};
                           raw_code := None |}
  else Responded "ok".

End Http.

(* ================================================================== *)
(** * Deduplication service: groups and statistics *)

Module DedupReport.
Import Dedup.

(** [strategy.getName()] *)
Definition getName (st : Strategy) : string :=
  match st with
  | EmailDeduplicationStrategy => "EmailDeduplicationStrategy"
  | EmailPhoneDeduplicationStrategy => "EmailPhoneDeduplicationStrategy"
  | StrictDeduplicationStrategy => "StrictDeduplicationStrategy"
  end.

(** The object [getDuplicateGroup] returns. *)
Record DuplicateGroup := {
  dg_key : string;
  dg_strategy : string;
  dg_originalRecord : Subscriber;
  dg_duplicates : list GroupEntry;
  dg_totalCount : Z
}.

(** [getDuplicateGroup(key)]; [None] is [null]. *)
Definition getDuplicateGroup (k : string) (svc : DeduplicationService)
  : option DuplicateGroup :=
  match duplicateGroups svc !! k, seenRecords svc !! k with
  | Some duplicates, Some originalRecord =>
      Some {| dg_key := k; dg_strategy := getName (strategy svc);
              dg_originalRecord := subscriber originalRecord;
              dg_duplicates := duplicates;
              dg_totalCount := Z.of_nat (length duplicates) + 1 |}
  | _, _ => None
  end.

(** [hasDuplicates(key)] *)
Definition hasDuplicates (k : string) (svc : DeduplicationService) : bool :=
  bool_decide (is_Some (duplicateGroups svc !! k)).

(** The errors of a batch result whose value was a [Subscriber]: those
    were raised by the key strategy. *)
Definition is_key_error (e : Value * string) : bool :=
  match e.1 with IsSubscriber _ => true | NotSubscriber _ => false end.

Definition keyErrors (r : BatchResult) : nat := length (List.filter is_key_error (errors r)).

(** The duplicate numbers of a group of [n] entries: 2, 3, ... *)
Definition numbers (n : nat) : list Z := map (fun i => Z.of_nat i + 2) (seq 0 n).

(** What [seenRecords] and [duplicateGroups] say of a key, together. *)
Definition consistent_at (svc : DeduplicationService) (k : string) : Prop :=
  match seenRecords svc !! k, duplicateGroups svc !! k with
  | Some rec, Some g =>
      g <> [] /\ blank k = false /\ key rec = k /\
      count rec = Z.of_nat (length g) + 1 /\
      map duplicateNumber g = numbers (length g)
  | Some rec, None => blank k = false /\ key rec = k /\ count rec = 1
  | None, Some _ => False
  | None, None => True
  end.

Definition consistent (svc : DeduplicationService) : Prop :=
  forall k, consistent_at svc k.

(** The statistics count what the batch results hold. *)
Definition counted (base : DedupStatistics) (r : BatchResult) (svc : DeduplicationService)
  : Prop :=
  uniqueRecords (statistics svc) = uniqueRecords base + Z.of_nat (length (unique r)) /\
  duplicateRecords (statistics svc) =
    duplicateRecords base + Z.of_nat (length (duplicates r)) /\
  totalRecords (statistics svc) =
    totalRecords base +
    Z.of_nat (length (unique r) + length (duplicates r) + keyErrors r).

(** Whether a string is made of white space only. *)
Fixpoint all_white (s : string) : bool :=
  match s with
  | EmptyString => true
  | String c r => is_white c && all_white r
  end.

(** Whether a string is ASCII text: every code unit is below 128. *)
Fixpoint ascii_text (s : string) : bool :=
  match s with
  | EmptyString => true
  | String c r => (nat_of_ascii c <? 128)%nat && ascii_text r
  end.

(** A service and its clock after a sequence of calls of
    [processBatch]. *)
Definition processBatches (clock : Clock) (start : DeduplicationService * nat)
    (batches : list (list Value)) : DeduplicationService * nat :=
  fold_left (fun acc vs =>
               let '(_, svc', t') := processBatch clock acc.2 acc.1 vs in (svc', t'))
            batches start.

End DedupReport.

(* ================================================================== *)
(** * Deduplication service: similarity of two strings *)

Module Similarity.

(** A row of the matrix of [levenshteinDistance], filled from left to
    right: [above] is the row before from the column to the left of the
    one being filled, [left] the entry just written.  The rows all have
    [str1.length + 1] entries, so [above] never runs out before [str1]
    does. *)
Fixpoint fillRow (c2 : ascii) (str1 : list ascii) (above : list Z) (left : Z) : list Z :=
  match str1, above with
  | c1 :: rest, diag :: above' =>
      match above' with
      | up :: _ =>
          let v := if Ascii.eqb c2 c1 then diag
                   else Z.min (diag + 1) (Z.min (left + 1) (up + 1)) in
          v :: fillRow c2 rest above' v
      | [] => []
      end
  | _, _ => []
  end.

(** [matrix[0]]: [0, 1, ..., str1.length]. *)
Definition firstRow (str1 : list ascii) : list Z :=
  map Z.of_nat (seq 0 (S (length str1))).

(** [matrix[i]] from [matrix[i - 1]], with its index. *)
Definition nextRow (str1 : list ascii) (acc : Z * list Z) (c2 : ascii) : Z * list Z :=
  let i := acc.1 + 1 in (i, i :: fillRow c2 str1 acc.2 i).

Definition lastRow (str1 str2 : list ascii) : Z * list Z :=
  fold_left (nextRow str1) str2 (0, firstRow str1).

(** [levenshteinDistance(str1, str2)]: [matrix[str2.length][str1.length]]. *)
Definition levenshteinDistance (str1 str2 : string) : Z :=
  let s1 := list_ascii_of_string str1 in
  let s2 := list_ascii_of_string str2 in
  default 0 ((lastRow s1 s2).2 !! length s1).

Definition len (s : string) : Z := Z.of_nat (String.length s).

(** [calculateSimilarity(str1, str2)] *)
Definition calculateSimilarity (str1 str2 : string) : Q :=
  if String.eqb str1 "" || String.eqb str2 "" then 0
  else if String.eqb str1 str2 then 1
  else
    let longer := if len str2 <? len str1 then str1 else str2 in
    let shorter := if len str2 <? len str1 then str2 else str1 in
    if len longer =? 0 then 1
    else (inject_Z (len longer - levenshteinDistance longer shorter) /
          inject_Z (len longer))%Q.

(** The entries of a row of index [i], from column [j0] on, lie between
    the difference and the larger of the row and column indices. *)
Definition bounded (i j0 : Z) (row : list Z) : Prop :=
  forall (j : nat) (v : Z),
    row !! j = Some v ->
    Z.abs (i - (j0 + Z.of_nat j)) <= v <= Z.max i (j0 + Z.of_nat j).

End Similarity.

(* ================================================================== *)
(** * Checkpoint store: saving, cleaning up and deleting *)

Module Store.
Import Persistence.

(** The files of a session directory, in [readdir] order. *)
Definition Files := list (string * FileContent).

(** The name of the file of a checkpoint in its session directory
    ([getCheckpointFilePath]). *)
Definition fileName (checkpointId : string) : string := checkpointId +:+ ".json".

(** [fs.writeFile]: the file is replaced where it is, or created. *)
Fixpoint writeFile (files : Files) (name : string) (content : FileContent) : Files :=
  match files with
  | [] => [(name, content)]
  | (n, c) :: rest =>
      if String.eqb n name then (n, content) :: rest
      else (n, c) :: writeFile rest name content
  end.

Definition exists_file (files : Files) (name : string) : bool :=
  existsb (fun f => String.eqb f.1 name) files.

(** [fs.unlink] of a file that exists. *)
Definition unlink (files : Files) (name : string) : Files :=
  List.filter (fun f => negb (String.eqb f.1 name)) files.

(** [deleteCheckpoint(sessionId, checkpointId)] in the session's
    directory: whether the file was there, and the directory afterwards. *)
Definition deleteCheckpoint (files : Files) (checkpointId : string) : bool * Files :=
  if exists_file files (fileName checkpointId)
  then (true, unlink files (fileName checkpointId))
  else (false, files).

(** [array.sort((a, b) => new Date(a.timestamp) - new Date(b.timestamp))]:
    the same stable sort, oldest first. *)
Definition sortOldestFirst (l : list ProgressCheckpoint) : list ProgressCheckpoint :=
  sortNewestFirst (fun c => - timestamp c) l.

(** The checkpoints [cleanupOldCheckpoints] deletes. *)
Definition toDelete (maxCheckpoints : Z) (checkpoints : list ProgressCheckpoint)
  : list ProgressCheckpoint :=
  if maxCheckpoints <? Z.of_nat (length checkpoints)
  then take (Z.to_nat (Z.of_nat (length checkpoints) - maxCheckpoints))
            (sortOldestFirst checkpoints)
  else [].

(** [cleanupOldCheckpoints(sessionId)] in the session's directory. *)
Definition cleanupOldCheckpoints (maxCheckpoints : Z) (files : Files) : Files :=
  fold_left (fun fs checkpoint => (deleteCheckpoint fs (id checkpoint)).2)
            (toDelete maxCheckpoints (listCheckpoints files)) files.

(** [saveCheckpoint(progressState, sessionData)] in the directory of the
    state's session, at clock reading [now]: the checkpoint and the
    directory afterwards. *)
Definition saveCheckpoint (maxCheckpoints : Z) (now : Z) (name : string)
    (p : Progress.ProgressState) (csv : option string) (batch record : Z) (files : Files)
  : ProgressCheckpoint * Files :=
  let checkpoint := new_ProgressCheckpoint now name p csv batch record in
  let files := writeFile files (fileName (id checkpoint)) (Json checkpoint) in
  (checkpoint, cleanupOldCheckpoints maxCheckpoints files).

(** The callback of the auto-save timer: it saves the state of an
    active tracker and does nothing otherwise. *)
Definition autoSave (maxCheckpoints : Z) (now : Z) (name : string)
    (t : Progress.ProgressTracker) (files : Files) : Files :=
  match Progress.status (Progress.state t) with
  | Progress.active =>
      (saveCheckpoint maxCheckpoints now name (Progress.state t) None 0 0 files).2
  | _ => files
  end.

(** [deleteSessionCheckpoints(sessionId)]: the number of files deleted
    and the directory afterwards. *)
Definition deleteSessionCheckpoints (files : Files) : Z * Files :=
  (Z.of_nat (length (List.filter (fun f => endsWith f.1 ".json") files)),
   List.filter (fun f => negb (endsWith f.1 ".json")) files).

(** Files whose names are among those of the given checkpoints. *)
Definition named_after (cs : list ProgressCheckpoint) (f : string * FileContent) : bool :=
  existsb (fun c => String.eqb f.1 (fileName (id c))) cs.

(** The checkpoints whose files are not named after one of the given
    checkpoints. *)
Definition kept (D : list ProgressCheckpoint) (c : ProgressCheckpoint) : bool :=
  negb (existsb (fun d => String.eqb (fileName (id c)) (fileName (id d))) D).

(** A directory as the store fills it: no two files of the same name,
    and every checkpoint document in the file named after its id. *)
Definition tidy (files : Files) : Prop :=
  NoDup (map fst files) /\
  forall f c, In (f, Json c) files -> f = fileName (id c).

(** A sample session directory: two checkpoints and a stray file. *)
Definition sample_files : Files :=
  [ ("checkpoint_1000.json",
     Json (sample_checkpoint "session_a" "checkpoint_1000" 1000 "active" 20 100));
    ("checkpoint_2000.json",
     Json (sample_checkpoint "session_a" "checkpoint_2000" 2000 "active" 40 100));
    ("notes.json", Unreadable) ].

Definition sample_state : Progress.ProgressState :=
  Progress.set_sessionId Progress.new_ProgressState (Some "session_a").

(** A tracker whose session has completed, and two later calls. *)
Definition ended_tracker : Progress.ProgressTracker :=
  Progress.call {| Progress.now := 1000; Progress.heapUsed := 0 |}
                (Progress.sessionComplete true) (Progress.new_ProgressTracker "session_a").

Definition late_calls : list (Progress.Env * Progress.TrackerCall) :=
  [ ({| Progress.now := 2000; Progress.heapUsed := 0 |},
     Progress.progressEvent (Progress.RECORD_PROCESSED true));
    ({| Progress.now := 3000; Progress.heapUsed := 0 |}, Progress.timerFired) ].

End Store.

(* ================================================================== *)
(** * Import session and batching *)

Module Session.

Inductive SessionStatus := initialized | processing | paused | completed | failed.

(** [Math.ceil(n / d)] on numbers; [None] stands for the results that
    are no finite number (a division by zero). *)
Definition ceilDiv (n d : Z) : option Z :=
  if d =? 0 then None else Some (Qceiling (inject_Z n / inject_Z d)).

(** The [resumePoint] of a paused session (its timestamp left out). *)
Record ResumePoint := { recordIndex : Z; batchIndex : Z }.

(** An [ImportSession]: its configured batch size, the [progress]
    counters, the counting [statistics], the [data] arrays, the
    [resumeData] and the types of the logged [events].  The
    clock-dependent properties (start and end time, rates and average
    times) are left out. *)
Record ImportSession := {
  status : SessionStatus;
  batchSize : Z;
  currentPhase : string;
(* progress *)
totalRecords : Z;
processedRecords : Z;
successfulRecords : Z;
failedRecords : Z;
skippedRecords : Z;
currentBatch : Z;
totalBatches : option Z;
(* statistics *)
duplicatesFound : Z;
invalidEmails : Z;
missingPhones : Z;
validationErrors : Z;
apiErrors : Z;
networkErrors : Z;
(* data *)
data_successfulRecords : list string;
data_failedRecords : list (string * string);
data_skippedRecords : list (string * string);
data_duplicateRecords : list string;
(* resumeData *)
lastProcessedIndex : Z;
canResume_flag : bool;
resumePoint : option ResumePoint;
events : list string
}.

(** [new ImportSession(sessionId, options)]; [optBatchSize] is the
    options' [batchSize], [None] when they have none: the value is
    [options.batchSize || 5], put back by the spread of the options. *)
Definition new_ImportSession (optBatchSize : option Z) : ImportSession :=
  {| status := initialized;
     batchSize := default (match optBatchSize with
                           | Some n => if n =? 0 then 5 else n
                           | None => 5
                           end) optBatchSize;
     currentPhase := "initialization";
     totalRecords := 0; processedRecords := 0; successfulRecords := 0;
     failedRecords := 0; skippedRecords := 0; currentBatch := 0;
     totalBatches := Some 0;
     duplicatesFound := 0; invalidEmails := 0; missingPhones := 0;
     validationErrors := 0; apiErrors := 0; networkErrors := 0;
     data_successfulRecords := []; data_failedRecords := [];
     data_skippedRecords := []; data_duplicateRecords := [];
     lastProcessedIndex := -1; canResume_flag := false; resumePoint := None;
     events := [] |}.

(** The public methods that change a session. *)
Inductive Call :=
| start (total : Z)
| complete (success : bool)
| pause
| resume
| recordSuccess (record : string)
| recordFailure (record : string) (errorName : string)
| recordSkipped (record : string) (reason : string)
| updateBatch (index : Z)
| setPhase (phase : string).

(** [updateProgress()] *)
Definition updateProgress (s : ImportSession) : ImportSession :=
  {| status := status s; batchSize := batchSize s; currentPhase := currentPhase s;
     totalRecords := totalRecords s; processedRecords := processedRecords s;
     successfulRecords := successfulRecords s; failedRecords := failedRecords s;
     skippedRecords := skippedRecords s; currentBatch := currentBatch s;
     totalBatches := totalBatches s;
     duplicatesFound := duplicatesFound s; invalidEmails := invalidEmails s;
     missingPhones := missingPhones s; validationErrors := validationErrors s;
     apiErrors := apiErrors s; networkErrors := networkErrors s;
     data_successfulRecords := data_successfulRecords s;
     data_failedRecords := data_failedRecords s;
     data_skippedRecords := data_skippedRecords s;
     data_duplicateRecords := data_duplicateRecords s;
     lastProcessedIndex := processedRecords s - 1;
     canResume_flag := canResume_flag s; resumePoint := resumePoint s;
     events := events s |}.

Definition bump (b : bool) (n : Z) : Z := if b then n + 1 else n.

Definition call (c : Call) (s : ImportSession) : ImportSession :=
  match c with
  | start total =>
      {| status := processing; batchSize := batchSize s; currentPhase := currentPhase s;
         totalRecords := total; processedRecords := processedRecords s;
         successfulRecords := successfulRecords s; failedRecords := failedRecords s;
         skippedRecords := skippedRecords s; currentBatch := currentBatch s;
         totalBatches := ceilDiv total (batchSize s);
         duplicatesFound := duplicatesFound s; invalidEmails := invalidEmails s;
         missingPhones := missingPhones s; validationErrors := validationErrors s;
         apiErrors := apiErrors s; networkErrors := networkErrors s;
         data_successfulRecords := data_successfulRecords s;
         data_failedRecords := data_failedRecords s;
         data_skippedRecords := data_skippedRecords s;
         data_duplicateRecords := data_duplicateRecords s;
         lastProcessedIndex := lastProcessedIndex s;
         canResume_flag := canResume_flag s; resumePoint := resumePoint s;
         events := events s ++ ["session_started"] |}
  | complete success =>
      {| status := if success then completed else failed;
         batchSize := batchSize s; currentPhase := currentPhase s;
         totalRecords := totalRecords s; processedRecords := processedRecords s;
         successfulRecords := successfulRecords s; failedRecords := failedRecords s;
         skippedRecords := skippedRecords s; currentBatch := currentBatch s;
         totalBatches := totalBatches s;
         duplicatesFound := duplicatesFound s; invalidEmails := invalidEmails s;
         missingPhones := missingPhones s; validationErrors := validationErrors s;
         apiErrors := apiErrors s; networkErrors := networkErrors s;
         data_successfulRecords := data_successfulRecords s;
         data_failedRecords := data_failedRecords s;
         data_skippedRecords := data_skippedRecords s;
         data_duplicateRecords := data_duplicateRecords s;
         lastProcessedIndex := lastProcessedIndex s;
         canResume_flag := canResume_flag s; resumePoint := resumePoint s;
         events := events s ++ ["session_completed"] |}
  | pause =>
      {| status := paused; batchSize := batchSize s; currentPhase := currentPhase s;
         totalRecords := totalRecords s; processedRecords := processedRecords s;
         successfulRecords := successfulRecords s; failedRecords := failedRecords s;
         skippedRecords := skippedRecords s; currentBatch := currentBatch s;
         totalBatches := totalBatches s;
         duplicatesFound := duplicatesFound s; invalidEmails := invalidEmails s;
         missingPhones := missingPhones s; validationErrors := validationErrors s;
         apiErrors := apiErrors s; networkErrors := networkErrors s;
         data_successfulRecords := data_successfulRecords s;
         data_failedRecords := data_failedRecords s;
         data_skippedRecords := data_skippedRecords s;
         data_duplicateRecords := data_duplicateRecords s;
         lastProcessedIndex := lastProcessedIndex s;
         canResume_flag := true;
         resumePoint := Some {| recordIndex := processedRecords s;
                                batchIndex := currentBatch s |};
         events := events s ++ ["session_paused"] |}
  | resume =>
      {| status := processing; batchSize := batchSize s; currentPhase := currentPhase s;
         totalRecords := totalRecords s; processedRecords := processedRecords s;
         successfulRecords := successfulRecords s; failedRecords := failedRecords s;
         skippedRecords := skippedRecords s; currentBatch := currentBatch s;
         totalBatches := totalBatches s;
         duplicatesFound := duplicatesFound s; invalidEmails := invalidEmails s;
         missingPhones := missingPhones s; validationErrors := validationErrors s;
         apiErrors := apiErrors s; networkErrors := networkErrors s;
         data_successfulRecords := data_successfulRecords s;
         data_failedRecords := data_failedRecords s;
         data_skippedRecords := data_skippedRecords s;
         data_duplicateRecords := data_duplicateRecords s;
         lastProcessedIndex := lastProcessedIndex s;
         canResume_flag := canResume_flag s; resumePoint := resumePoint s;
         events := events s ++ ["session_resumed"] |}
  | recordSuccess record =>
      updateProgress
        {| status := status s; batchSize := batchSize s; currentPhase := currentPhase s;
           totalRecords := totalRecords s; processedRecords := processedRecords s + 1;
           successfulRecords := successfulRecords s + 1;
           failedRecords := failedRecords s;
           skippedRecords := skippedRecords s; currentBatch := currentBatch s;
           totalBatches := totalBatches s;
           duplicatesFound := duplicatesFound s; invalidEmails := invalidEmails s;
           missingPhones := missingPhones s; validationErrors := validationErrors s;
           apiErrors := apiErrors s; networkErrors := networkErrors s;
           data_successfulRecords := data_successfulRecords s ++ [record];
           data_failedRecords := data_failedRecords s;
           data_skippedRecords := data_skippedRecords s;
           data_duplicateRecords := data_duplicateRecords s;
           lastProcessedIndex := lastProcessedIndex s;
           canResume_flag := canResume_flag s; resumePoint := resumePoint s;
           events := events s |}
  | recordFailure record errorName =>
      updateProgress
        {| status := status s; batchSize := batchSize s; currentPhase := currentPhase s;
           totalRecords := totalRecords s; processedRecords := processedRecords s + 1;
           successfulRecords := successfulRecords s;
           failedRecords := failedRecords s + 1;
           skippedRecords := skippedRecords s; currentBatch := currentBatch s;
           totalBatches := totalBatches s;
           duplicatesFound := duplicatesFound s; invalidEmails := invalidEmails s;
           missingPhones := missingPhones s;
           validationErrors :=
             bump (String.eqb errorName "ValidationError") (validationErrors s);
           apiErrors :=
             bump (negb (String.eqb errorName "ValidationError") &&
                   String.eqb errorName "ApiError") (apiErrors s);
           networkErrors :=
             bump (negb (String.eqb errorName "ValidationError") &&
                   negb (String.eqb errorName "ApiError") &&
                   String.eqb errorName "NetworkError") (networkErrors s);
           data_successfulRecords := data_successfulRecords s;
           data_failedRecords := data_failedRecords s ++ [(record, errorName)];
           data_skippedRecords := data_skippedRecords s;
           data_duplicateRecords := data_duplicateRecords s;
           lastProcessedIndex := lastProcessedIndex s;
           canResume_flag := canResume_flag s; resumePoint := resumePoint s;
           events := events s |}
  | recordSkipped record reason =>
      updateProgress
        {| status := status s; batchSize := batchSize s; currentPhase := currentPhase s;
           totalRecords := totalRecords s; processedRecords := processedRecords s + 1;
           successfulRecords := successfulRecords s;
           failedRecords := failedRecords s;
           skippedRecords := skippedRecords s + 1; currentBatch := currentBatch s;
           totalBatches := totalBatches s;
           duplicatesFound := bump (String.eqb reason "duplicate") (duplicatesFound s);
           invalidEmails := bump (String.eqb reason "invalid_email") (invalidEmails s);
           missingPhones := bump (String.eqb reason "missing_phone") (missingPhones s);
           validationErrors := validationErrors s;
           apiErrors := apiErrors s; networkErrors := networkErrors s;
           data_successfulRecords := data_successfulRecords s;
           data_failedRecords := data_failedRecords s;
           data_skippedRecords := data_skippedRecords s ++ [(record, reason)];
           data_duplicateRecords :=
             if String.eqb reason "duplicate" then data_duplicateRecords s ++ [record]
             else data_duplicateRecords s;
           lastProcessedIndex := lastProcessedIndex s;
           canResume_flag := canResume_flag s; resumePoint := resumePoint s;
           events := events s |}
  | updateBatch index =>
      updateProgress
        {| status := status s; batchSize := batchSize s; currentPhase := currentPhase s;
           totalRecords := totalRecords s; processedRecords := processedRecords s;
           successfulRecords := successfulRecords s; failedRecords := failedRecords s;
           skippedRecords := skippedRecords s; currentBatch := index;
           totalBatches := totalBatches s;
           duplicatesFound := duplicatesFound s; invalidEmails := invalidEmails s;
           missingPhones := missingPhones s; validationErrors := validationErrors s;
           apiErrors := apiErrors s; networkErrors := networkErrors s;
           data_successfulRecords := data_successfulRecords s;
           data_failedRecords := data_failedRecords s;
           data_skippedRecords := data_skippedRecords s;
           data_duplicateRecords := data_duplicateRecords s;
           lastProcessedIndex := lastProcessedIndex s;
           canResume_flag := canResume_flag s; resumePoint := resumePoint s;
           events := events s |}
  | setPhase phase =>
      {| status := status s; batchSize := batchSize s; currentPhase := phase;
         totalRecords := totalRecords s; processedRecords := processedRecords s;
         successfulRecords := successfulRecords s; failedRecords := failedRecords s;
         skippedRecords := skippedRecords s; currentBatch := currentBatch s;
         totalBatches := totalBatches s;
         duplicatesFound := duplicatesFound s; invalidEmails := invalidEmails s;
         missingPhones := missingPhones s; validationErrors := validationErrors s;
         apiErrors := apiErrors s; networkErrors := networkErrors s;
         data_successfulRecords := data_successfulRecords s;
         data_failedRecords := data_failedRecords s;
         data_skippedRecords := data_skippedRecords s;
         data_duplicateRecords := data_duplicateRecords s;
         lastProcessedIndex := lastProcessedIndex s;
         canResume_flag := canResume_flag s; resumePoint := resumePoint s;
         events := events s ++ ["phase_changed"] |}
  end.

Definition calls (s : ImportSession) (cs : list Call) : ImportSession :=
  fold_left (fun s c => call c s) cs s.

(** [canResume()] and [isCompleted()] *)
Definition canResume (s : ImportSession) : bool :=
  canResume_flag s &&
  match status s with paused => true | _ => false end.

Definition isCompleted (s : ImportSession) : bool :=
  match status s with completed | failed => true | _ => false end.

(** What the counters, the statistics, the data arrays and the resume
    data of a session say together. *)
Definition coherent (s : ImportSession) : Prop :=
  processedRecords s = successfulRecords s + failedRecords s + skippedRecords s /\
  successfulRecords s = Z.of_nat (length (data_successfulRecords s)) /\
  failedRecords s = Z.of_nat (length (data_failedRecords s)) /\
  skippedRecords s = Z.of_nat (length (data_skippedRecords s)) /\
  duplicatesFound s = Z.of_nat (length (data_duplicateRecords s)) /\
  0 <= duplicatesFound s /\ 0 <= invalidEmails s /\ 0 <= missingPhones s /\
  duplicatesFound s + invalidEmails s + missingPhones s <= skippedRecords s /\
  0 <= validationErrors s /\ 0 <= apiErrors s /\ 0 <= networkErrors s /\
  validationErrors s + apiErrors s + networkErrors s <= failedRecords s /\
  lastProcessedIndex s = processedRecords s - 1 /\
  (status s = paused -> canResume_flag s = true /\ resumePoint s <> None).

(** ** Batches *)

(** [array.slice(start, end)] for integer bounds. *)
Definition slice {A} (l : list A) (start stop : Z) : list A :=
  let len := Z.of_nat (length l) in
  let from := if start <? 0 then Z.max (len + start) 0 else Z.min start len in
  let to := if stop <? 0 then Z.max (len + stop) 0 else Z.min stop len in
  take (Z.to_nat (to - from)) (drop (Z.to_nat from) l).

(** The [for] loop of [createBatches]; [fuel] bounds the iterations the
    model unrolls and [None] means the bound was reached with the loop
    still running. *)
Fixpoint batchLoop {A} (fuel : nat) (subscribers : list A) (size : Z) (i : Z)
    (batches : list (list A)) : option (list (list A)) :=
  match fuel with
  | O => None
  | S fuel' =>
      if i <? Z.of_nat (length subscribers)
      then batchLoop fuel' subscribers size (i + size)
                     (batches ++ [slice subscribers i (i + size)])
      else Some batches
  end.

(** [createBatches(subscribers, batchSize)] *)
Definition createBatches {A} (fuel : nat) (subscribers : list A) (size : Z)
  : option (list (list A)) :=
  batchLoop fuel subscribers size 0 [].

End Session.

(* ================================================================== *)
(** * Validation service: field names of a CSV row *)

Module Fields.

(** The [fieldMappings] of [normalizeFieldNames], in the order of
    [Object.entries]. *)
Definition fieldMappings : list (string * list string) :=
  [ ("email", ["email"; "EMAIL"; "Email"; "email_address"; "emailAddress"]);
    ("firstName", ["first_name"; "firstName"; "FIRST_NAME"; "FirstName"; "fname"]);
    ("lastName", ["last_name"; "lastName"; "LAST_NAME"; "LastName"; "lname"]);
    ("phoneNumber", ["phone_number"; "phoneNumber"; "PHONE_NUMBER"; "PhoneNumber";
                     "phone"; "Phone"; "PHONE"]) ].

(** The inner loop: the value of the first source field the row has. *)
Fixpoint firstDefined (rawData : gmap string string) (sourceFields : list string)
  : option string :=
  match sourceFields with
  | [] => None
  | sourceField :: rest =>
      match rawData !! sourceField with
      | Some v => Some v
      | None => firstDefined rawData rest
      end
  end.

(** [normalizeFieldNames(rawData)] on a row whose values are strings. *)
Definition normalizeFieldNames (rawData : gmap string string) : gmap string string :=
  fold_left (fun normalized mapping =>
               match firstDefined rawData mapping.2 with
               | Some v => <[mapping.1 := v]> normalized
               | None => normalized
               end)
            fieldMappings ∅.

(** The source fields of a target field, none for any other name. *)
Definition sourcesOf (targetField : string) : list string :=
  match List.find (fun m => String.eqb m.1 targetField) fieldMappings with
  | Some m => m.2
  | None => []
  end.

(** A row of a CSV file with a header of its own making: the email under
    [EMAIL], two columns for the first name, no last name, the phone
    under [Phone], and a column the importer does not know. *)
Definition sample_row : gmap string string :=
  <["EMAIL" := "ann@example.com"]>
    (<["firstName" := "Annie"]>
       (<["first_name" := "Ann"]>
          (<["Phone" := "555 0100"]> (<["age" := "41"]> ∅)))).

End Fields.

(* ================================================================== *)
(** * Properties of the progress tracker *)

Module ProgressFacts.
Import Progress.

Lemma counters_updateCommonMetrics env s :
  counters (updateCommonMetrics env s) = counters s.
Proof. reflexivity. Qed.

Lemma counters_updatePerformanceMetrics env s :
  counters (updatePerformanceMetrics env s) = counters s.
Proof.
  unfold updatePerformanceMetrics.
  destruct (startTime s); [|reflexivity].
  destruct (Qlt_bool 0 _); [|reflexivity].
  destruct (_ && _); reflexivity.
Qed.

Lemma counters_updateAverageBatchTime d s :
  counters (updateAverageBatchTime d s) = counters s.
Proof. reflexivity. Qed.

(** Only RECORD_PROCESSED moves the counters, and it moves
    [processedRecords] together with exactly one of the other two. *)
Lemma counters_update env e s :
  counters (update env e s) =
  match e with
  | RECORD_PROCESSED true =>
      (processedRecords s + 1, successfulRecords s + 1, failedRecords s)
  | RECORD_PROCESSED false =>
      (processedRecords s + 1, successfulRecords s, failedRecords s + 1)
  | _ => counters s
  end.
Proof.
  unfold update. rewrite counters_updateCommonMetrics.
  destruct e as [| | |d|ok| | | | |[p|]|]; try reflexivity.
  - destruct (negb (Qeq_bool d 0)); reflexivity.
  - rewrite counters_updatePerformanceMetrics. destruct ok; reflexivity.
Qed.

Lemma consistent_counters s :
  counters_consistent s <->
  (let '(p, ok, ko) := counters s in p = ok + ko).
Proof. reflexivity. Qed.

Lemma update_consistent env e s :
  counters_consistent s -> counters_consistent (update env e s).
Proof.
  rewrite !consistent_counters, counters_update.
  destruct e as [| | | |[|]| | | | | |]; unfold counters; lia.
Qed.

Lemma updateProgress_consistent env e t :
  counters_consistent (state t) ->
  counters_consistent (state (updateProgress env e t)).
Proof.
  intros H. unfold updateProgress.
  destruct (_ && _); simpl; by apply update_consistent.
Qed.

Lemma call_consistent env c t :
  counters_consistent (state t) -> counters_consistent (state (call env c t)).
Proof.
  intros H. destruct c; simpl.
  - destruct enablePeriodicUpdates; simpl; by apply updateProgress_consistent.
  - by apply updateProgress_consistent.
  - by apply updateProgress_consistent.
  - exact H.
  - exact H.
  - exact H.
  - destruct (updateInterval t); [|exact H].
    destruct (status (state t)); try exact H.
    by apply updateProgress_consistent.
Qed.

Lemma history_consistent calls : forall t,
  counters_consistent (state t) ->
  Forall (fun t' => counters_consistent (state t')) (history t calls).
Proof.
  induction calls as [|[env c] calls IH]; intros t H; simpl.
  - constructor.
  - constructor; [|apply IH]; by apply call_consistent.
Qed.

Lemma updates_consistent events : forall s,
  counters_consistent s -> Forall counters_consistent (updates s events).
Proof.
  induction events as [|[env e] events IH]; intros s H; simpl.
  - constructor.
  - constructor; [|apply IH]; by apply update_consistent.
Qed.

(** C1.  Whatever events are fed to a freshly created [ProgressState],
    directly through [update] or through the public methods of a new
    tracker (every RECORD_PROCESSED carrying an arbitrary success flag),
    [processedRecords = successfulRecords + failedRecords] holds after
    every one of them, the last included. *)
Theorem counters_consistent_after_every_event :
  (forall events : list (Env * ProgressEvent),
     Forall counters_consistent (updates new_ProgressState events)) /\
  (forall (sid : string) (calls : list (Env * TrackerCall)),
     Forall (fun t => counters_consistent (state t))
       (history (new_ProgressTracker sid) calls)).
Proof.
  split.
  - intros events. by apply updates_consistent.
  - intros sid calls. by apply history_consistent.
Qed.

End ProgressFacts.

(* ================================================================== *)
(** * Properties of the error classification *)

Module ErrorFacts.
Import Errors.

Lemma agrees_refl c : agrees c (Some c).
Proof. by split. Qed.

Lemma classify_code_table n e : agrees (classify n e) (code_classification e).
Proof.
  destruct e as [| |status| | |[|k|k]| | | |raw]; simpl; try by split.
  - (* ApiError *)
    unfold classify; simpl.
    destruct (status =? 429) eqn:E429.
    + apply Z.eqb_eq in E429 as ->. by split.
    + simpl. destruct (_ || _); by split.
  - (* RateLimitError (RaNumber k) *)
    unfold classify; simpl. destruct (k =? 0); by split.
Qed.

Lemma classify_http_table n response :
  agrees (classify n (fromHttpResponse response))
    (Some (code_http_classification response)).
Proof.
  unfold fromHttpResponse, code_http_classification.
  destruct response as [status ra]; simpl.
  destruct (_ || _); [by split|].
  destruct (status =? 429) eqn:E429.
  - destruct ra; by split.
  - simpl. rewrite !E429. simpl. destruct (_ || _); by split.
Qed.

Lemma classify_network_table n code :
  agrees (classify n (fromNetworkError code)) (Some (code_network_classification code)).
Proof.
  destruct code as [c|]; simpl; [|by split].
  destruct (String.eqb c "ECONNREFUSED") eqn:E1.
  { apply String.eqb_eq in E1 as ->. by split. }
  destruct (String.eqb c "ENOTFOUND") eqn:E2.
  { apply String.eqb_eq in E2 as ->. by split. }
  destruct (String.eqb c "ETIMEDOUT"); by split.
Qed.

Lemma converted_has_method raw :
  isRetryable_method (convertError raw) <> None.
Proof.
  unfold convertError, fromHttpResponse, fromNetworkError.
  destruct (raw_response raw) as [response|].
  - destruct (_ || _); [done|]. destruct (_ =? 429); done.
  - destruct (raw_code raw) as [c|]; [|done].
    repeat (destruct (String.eqb c _); [done|]). done.
Qed.

(** C6, the claim as written fails: status 501 is an HTTP 5xx server
    error, the factory turns it into an [ApiError] and the classifier
    calls it fatal where the table says retryable after 2000 ms. *)
Lemma status_501_is_fatal :
  spec_is_5xx 501 = true /\
  fromHttpResponse {| resp_status := 501; retry_after := None |} = ApiError 501 /\
  classify 0 (ApiError 501) = {| retryable := false; delayMs := 1000 |} /\
  spec_classification (ApiError 501) = Some {| retryable := true; delayMs := 2000 |} /\
  ~ (forall n e, agrees (classify n e) (spec_classification e)).
Proof.
  repeat split; try reflexivity.
  intros H. specialize (H 0%nat (ApiError 501)). destruct H as [H _].
  discriminate H.
Qed.

(** C6, amended.  The classifier agrees, for every error, with the table
    in which authentication errors are fatal; rate-limit errors are
    retryable after retry-after x 1000 ms when a truthy retry-after is
    there (a header text or a non-zero number) and after 5000 ms
    otherwise; the HTTP statuses 500, 502, 503 and 504 are retryable after
    2000 ms and every other status (501 and the rest of 5xx included) is
    fatal; timeouts are retryable after 3000 ms and other network errors
    after 2000 ms; validation and unclassified errors are fatal.  The
    same table holds for the errors the factory builds from an HTTP
    response or a transport error code, and the HTTP client's own test
    gives the same verdict on them. *)
Theorem classification_agrees_with_code_table :
  (forall n e, agrees (classify n e) (code_classification e)) /\
  (forall n response,
     agrees (classify n (fromHttpResponse response))
       (Some (code_http_classification response))) /\
  (forall n code,
     agrees (classify n (fromNetworkError code))
       (Some (code_network_classification code))) /\
  (forall raw,
     isRetryableError (convertError raw) = retryable (classify 0 (convertError raw))).
Proof.
  split; [exact classify_code_table|].
  split; [exact classify_http_table|].
  split; [exact classify_network_table|].
  intros raw. pose proof (converted_has_method raw) as H.
  unfold isRetryableError, classify, isRetryable; simpl.
  destruct (isRetryable_method (convertError raw)); [reflexivity|done].
Qed.

End ErrorFacts.

(* ================================================================== *)
(** * Properties of the retry loop and of the sequential executor *)

Module CommandFacts.
Import Errors Commands.

Lemma execute_attempts c : attempts (execute c).2 = S (attempts c).
Proof. unfold execute. by destruct (subscribeUser c _). Qed.

Lemma execute_maxRetries c : maxRetries (execute c).2 = maxRetries c.
Proof. unfold execute. by destruct (subscribeUser c _). Qed.

(** A failed try leaves the rejection in [lastError]. *)
Lemma execute_failed c :
  success (execute c).1 = false ->
  exists e, subscribeUser c (S (attempts c)) = Rejected e /\
            lastError (execute c).2 = Some e.
Proof.
  unfold execute. destruct (subscribeUser c _) as [d|e]; simpl; [done|].
  intros _. by exists e.
Qed.

(** Retrying needs an attempt below the limit. *)
Lemma canRetry_below c : canRetry c = true -> (attempts c < maxRetries c)%nat.
Proof.
  unfold canRetry. intros H. apply andb_prop in H as [H _].
  by apply Nat.ltb_lt in H.
Qed.

Lemma canRetry_retryable c : canRetry c = true -> isRetryable (lastError c) = true.
Proof. unfold canRetry. intros H. by apply andb_prop in H as [_ H]. Qed.

Ltac step_loop H :=
  simpl in H;
  match type of H with
  | context [execute ?c] =>
      pose proof (execute_attempts c) as Hatt;
      pose proof (execute_maxRetries c) as Hmax;
      destruct (execute c) as [result c1] eqn:Hexec; simpl in *
  end.

(** The bound holds whatever number of iterations the model unrolls: the
    loop's own test stops it. *)
Lemma retryLoop_tries fuel : forall retry c r c' log,
  retryLoop fuel retry c = Some (r, c', log) ->
  (tries log <= Nat.max 1 (maxRetries c - attempts c))%nat.
Proof.
  induction fuel as [|fuel IH]; intros retry c r c' log H; [done|].
  step_loop H.
  destruct (negb (success result) && canRetry c1 && retry) eqn:Hgo.
  - destruct (retryLoop fuel retry c1) as [[[r1 c2] log1]|] eqn:Hrec; [|done].
    injection H as <- <- <-.
    apply IH in Hrec.
    apply andb_prop in Hgo as [Hgo _]. apply andb_prop in Hgo as [_ Hgo].
    apply canRetry_below in Hgo.
    unfold tries in *. simpl. lia.
  - injection H as <- <- <-. unfold tries. simpl. lia.
Qed.

(** [enough c] iterations are enough, and so are more. *)
Lemma retryLoop_total fuel : forall retry c,
  (enough c <= fuel)%nat -> is_Some (retryLoop fuel retry c).
Proof.
  induction fuel as [|fuel IH]; intros retry c Hfuel; unfold enough in *; [lia|].
  simpl.
  pose proof (execute_attempts c). pose proof (execute_maxRetries c).
  destruct (execute c) as [result c1]; simpl in *.
  destruct (negb (success result) && canRetry c1 && retry) eqn:Hgo; [|done].
  apply andb_prop in Hgo as [Hgo _]. apply andb_prop in Hgo as [_ Hgo].
  apply canRetry_below in Hgo.
  destruct (IH retry c1) as [[[r1 c2] log1] ->]; [unfold enough; lia|done].
Qed.

(** The result does not depend on how far the model unrolls. *)
Lemma retryLoop_more_fuel fuel : forall fuel' retry c res,
  retryLoop fuel retry c = Some res -> (fuel <= fuel')%nat ->
  retryLoop fuel' retry c = Some res.
Proof.
  induction fuel as [|fuel IH]; intros fuel' retry c res H Hle; [done|].
  destruct fuel' as [|fuel']; [lia|].
  simpl in *. destruct (execute c) as [result c1].
  destruct (negb (success result) && canRetry c1 && retry); [|done].
  destruct (retryLoop fuel retry c1) as [res1|] eqn:Hrec; [|done].
  rewrite (IH fuel' retry c1 res1 Hrec); [done|lia].
Qed.

Lemma executeCommandWithRetry_total retry c :
  is_Some (executeCommandWithRetry retry c).
Proof. by apply retryLoop_total. Qed.

(** A try whose error is not retryable is the last event of the run. *)
Lemma retryLoop_fatal_last fuel : forall retry c r c' log,
  retryLoop fuel retry c = Some (r, c', log) ->
  forall pre id n e post,
    log = pre ++ Executed id n (Rejected e) :: post ->
    isRetryable (Some e) = false -> post = [].
Proof.
  induction fuel as [|fuel IH]; intros retry c r c' log H; [done|].
  step_loop H.
  destruct (negb (success result) && canRetry c1 && retry) eqn:Hgo.
  - destruct (retryLoop fuel retry c1) as [[[r1 c2] log1]|] eqn:Hrec; [|done].
    injection H as <- <- <-.
    apply andb_prop in Hgo as [Hgo _]. apply andb_prop in Hgo as [Hfail Hgo].
    apply negb_true_iff in Hfail.
    pose proof (execute_failed c) as Hlast. rewrite Hexec in Hlast. simpl in Hlast.
    destruct (Hlast Hfail) as (e0 & Hans & Hlast0).
    apply canRetry_retryable in Hgo. rewrite Hlast0 in Hgo.
    intros pre id n e post Hlog Hfatal.
    destruct pre as [|ev1 pre]; simpl in Hlog.
    + injection Hlog as _ _ Hout _. rewrite Hatt in Hout. rewrite Hans in Hout.
      injection Hout as ->. simpl in Hgo. congruence.
    + injection Hlog as _ Hlog.
      destruct pre as [|ev2 pre]; simpl in Hlog; [done|].
      injection Hlog as _ Hlog.
      by eapply IH.
  - injection H as <- <- <-.
    intros pre id n e post Hlog _.
    destruct pre as [|ev1 pre]; simpl in Hlog.
    + by injection Hlog as _ _ _ <-.
    + injection Hlog as _ Hlog. by destruct pre.
Qed.

(** C2.  A command run with retry always comes to a result; the number
    of calls of its [execute] never exceeds [maxRetries + 1]; and a try
    that fails with an error classified as not retryable is the last
    event of the run: no sleep and no further try follow it, whatever
    budget is left.  The same holds for [CommandExecutor.execute]. *)
Theorem retry_bounded_and_fatal_stops :
  forall (retry : bool) (c : Command),
    exists r c' log,
      executeCommandWithRetry retry c = Some (r, c', log) /\
      (retry = true -> CommandExecutor_execute c = Some (r, c', log)) /\
      (tries log <= maxRetries c + 1)%nat /\
      (forall pre id n e post,
         log = pre ++ Executed id n (Rejected e) :: post ->
         isRetryable (Some e) = false -> post = []).
Proof.
  intros retry c.
  destruct (executeCommandWithRetry_total retry c) as [[[r c'] log] H].
  exists r, c', log. split; [exact H|]. split; [by intros ->|]. split.
  - apply retryLoop_tries in H. lia.
  - by eapply retryLoop_fatal_last.
Qed.

Lemma run_alone retry c :
  exists r c' log,
    executeCommandWithRetry retry c = Some (r, c', log) /\
    finalResult retry c = Some r /\ finalCommand retry c = Some c' /\
    finalLog retry c = log /\ succeeds retry c = success r.
Proof.
  unfold finalResult, finalCommand, finalLog, succeeds, finalResult.
  destruct (executeCommandWithRetry_total retry c) as [[[r c'] log] ->].
  by exists r, c', log.
Qed.

(** While the commands succeed the sequential loop goes on to the next. *)
Lemma processSequentially_past_successes opts before : forall rest,
  Forall (fun c => succeeds (retryFailedCommands opts) c = true) before ->
  processSequentially opts (before ++ rest) =
  match processSequentially opts rest with
  | Some (results, rest', log) =>
      Some (omap (finalResult (retryFailedCommands opts)) before ++ results,
            omap (finalCommand (retryFailedCommands opts)) before ++ rest',
            flat_map (finalLog (retryFailedCommands opts)) before ++ log)
  | None => None
  end.
Proof.
  induction before as [|c before IH]; intros rest Hok.
  - simpl. by destruct (processSequentially opts rest) as [[[? ?] ?]|].
  - apply Forall_cons in Hok as [Hc Hok].
    destruct (run_alone (retryFailedCommands opts) c)
      as (r & c' & log & Hrun & Hr & Hc' & Hlog & Hs).
    simpl. rewrite Hrun, Hr, Hc', Hlog, (IH rest Hok).
    rewrite Hs in Hc. rewrite Hc, andb_false_r.
    destruct (processSequentially opts rest) as [[[results rest'] log']|]; [|done].
    simpl. by rewrite app_assoc.
Qed.

Lemma results_of_successes retry before :
  Forall (fun c => succeeds retry c = true) before ->
  map Some (omap (finalResult retry) before) = map (finalResult retry) before /\
  map success (omap (finalResult retry) before) = replicate (length before) true /\
  length (omap (finalCommand retry) before) = length before.
Proof.
  induction 1 as [|c before Hc _ (IH1 & IH2 & IH3)]; [done|].
  destruct (run_alone retry c) as (r & c' & log & _ & Hr & Hc' & _ & Hs).
  unfold omap in *. simpl. rewrite Hr, Hc'. simpl. rewrite IH1, IH2, IH3.
  rewrite Hs in Hc. by rewrite Hc.
Qed.

(** C3.  Run one at a time with fail-fast, a list of operations whose
    k-th operation is the first to end in failure gives exactly k
    results: those of operations 1..k in input order, the first k-1
    successful and the k-th failed.  Operations k+1 onward are never
    executed: they are handed back as they were and the log holds the
    tries of the first k operations only. *)
Theorem failFast_stops_at_first_failure :
  forall (opts : BatchOptions) (before : list Command) (bad : Command)
         (after : list Command),
    concurrency opts = 1%nat -> failFast opts = true ->
    Forall (fun c => succeeds (retryFailedCommands opts) c = true) before ->
    succeeds (retryFailedCommands opts) bad = false ->
    exists results commands' log,
      processBatch opts (before ++ bad :: after) = Some (results, commands', log) /\
      length results = S (length before) /\
      map Some results =
        map (finalResult (retryFailedCommands opts)) (before ++ [bad]) /\
      map success results = replicate (length before) true ++ [false] /\
      drop (S (length before)) commands' = after /\
      log = flat_map (finalLog (retryFailedCommands opts)) (before ++ [bad]).
Proof.
  intros opts before bad after Hone Hff Hok Hbad.
  set (retry := retryFailedCommands opts) in *.
  destruct (run_alone retry bad) as (r & c' & log & Hrun & Hr & Hc' & Hlog & Hs).
  rewrite Hs in Hbad.
  assert (processSequentially opts (bad :: after) = Some ([r], c' :: after, log))
    as Hstop.
  { simpl. fold retry. by rewrite Hrun, Hff, Hbad. }
  destruct (results_of_successes retry before Hok) as (H1 & H2 & H3).
  exists (omap (finalResult retry) before ++ [r]),
         (omap (finalCommand retry) before ++ c' :: after),
         (flat_map (finalLog retry) before ++ log).
  unfold processBatch. rewrite Hone. simpl Nat.eqb. cbv iota.
  rewrite (processSequentially_past_successes opts before _ Hok), Hstop.
  fold retry. split; [done|].
  split. { rewrite length_app, <- (length_map Some), H1, length_map. simpl. lia. }
  split. { rewrite !map_app, H1. simpl. by rewrite Hr. }
  split. { rewrite map_app, H2. simpl. by rewrite Hbad. }
  split.
  { rewrite (cons_middle c'), app_assoc, drop_app_length'; [done|].
    rewrite length_app, H3. simpl. lia. }
  rewrite flat_map_app. simpl. by rewrite Hlog, app_nil_r.
Qed.

(** The specification's scenario: five operations, the third failing
    fatally, give exactly three results and leave the last two alone. *)
Lemma failFast_five_operations :
  exists results commands' log,
    processBatch scenario_options
      ([scenario_ok "op1"; scenario_ok "op2"] ++
       scenario_bad :: [scenario_ok "op4"; scenario_ok "op5"])
      = Some (results, commands', log) /\
    length results = 3%nat /\
    map Some results =
      map (finalResult true) ([scenario_ok "op1"; scenario_ok "op2"] ++ [scenario_bad]) /\
    map success results = [true; true; false] /\
    drop 3 commands' = [scenario_ok "op4"; scenario_ok "op5"] /\
    log = flat_map (finalLog true)
            ([scenario_ok "op1"; scenario_ok "op2"] ++ [scenario_bad]).
Proof.
  apply (failFast_stops_at_first_failure scenario_options
           [scenario_ok "op1"; scenario_ok "op2"] scenario_bad
           [scenario_ok "op4"; scenario_ok "op5"]).
  - reflexivity.
  - reflexivity.
  - repeat constructor.
  - reflexivity.
Defined.

End CommandFacts.

(* ================================================================== *)
(** * Properties of the deduplication service *)

Module DedupFacts.
Import Dedup.

(** ** One call of [checkDuplicate] *)

Lemma checkDuplicate_blank clock t svc sub k :
  generateKey (strategy svc) sub = Normal k -> blank k = true ->
  checkDuplicate clock t svc (IsSubscriber sub) =
  (Normal (new_DuplicateResult (clock t) false None 0),
   with_statistics svc (count_unique (count_total (statistics svc))),
   S t).
Proof. intros Hk Hb. unfold checkDuplicate. simpl. by rewrite Hk, Hb. Qed.

Lemma checkDuplicate_fresh clock t svc sub k :
  generateKey (strategy svc) sub = Normal k -> blank k = false ->
  seenRecords svc !! k = None ->
  checkDuplicate clock t svc (IsSubscriber sub) =
  (Normal (new_DuplicateResult (clock (S t)) false None 0),
   {| strategy := strategy svc;
      seenRecords := <[k := {| subscriber := sub; count := 1;
                               firstSeen := clock t; key := k |}]> (seenRecords svc);
      duplicateGroups := duplicateGroups svc;
      statistics := count_unique (count_total (statistics svc)) |},
   S (S t)).
Proof. intros Hk Hb Hs. unfold checkDuplicate. simpl. by rewrite Hk, Hb, Hs. Qed.

Lemma checkDuplicate_seen clock t svc sub k r :
  generateKey (strategy svc) sub = Normal k -> blank k = false ->
  seenRecords svc !! k = Some r ->
  checkDuplicate clock t svc (IsSubscriber sub) =
  (Normal (new_DuplicateResult (clock (S t)) true (Some (subscriber r)) (count r + 1)),
   {| strategy := strategy svc;
      seenRecords := <[k := {| subscriber := subscriber r; count := count r + 1;
                               firstSeen := firstSeen r; key := key r |}]>
                       (seenRecords svc);
      duplicateGroups :=
        <[k := default [] (duplicateGroups svc !! k) ++
               [ {| g_subscriber := sub; g_timestamp := clock t;
                    duplicateNumber := count r + 1 |} ]]> (duplicateGroups svc);
      statistics := count_duplicate (count_total (statistics svc)) |},
   S (S t)).
Proof. intros Hk Hb Hs. unfold checkDuplicate. simpl. by rewrite Hk, Hb, Hs. Qed.

Lemma checkDuplicate_throws clock t svc sub e :
  generateKey (strategy svc) sub = Throw e ->
  checkDuplicate clock t svc (IsSubscriber sub) =
  (Throw e, with_statistics svc (count_total (statistics svc)), t).
Proof. intros Hk. unfold checkDuplicate. simpl. by rewrite Hk. Qed.

Lemma checkDuplicate_strategy clock t svc v :
  strategy (checkDuplicate clock t svc v).1.2 = strategy svc.
Proof.
  unfold checkDuplicate. destruct v as [|sub]; [done|]. simpl.
  destruct (generateKey _ _) as [k|]; [|done].
  destruct (blank k); [done|].
  by destruct (seenRecords svc !! k).
Qed.



(** ** Runs of the batch loop *)


Lemma processLoop_cons clock acc v l :
  processLoop clock acc (v :: l) = processLoop clock (processOne clock acc v) l.
Proof. reflexivity. Qed.





(** ** Values that make [checkDuplicate] raise *)

Lemma checkDuplicate_raises clock t svc v e :
  raises (strategy svc) v = Some e ->
  (checkDuplicate clock t svc v).1.1 = Throw e.
Proof.
  unfold raises, checkDuplicate. destruct v as [|sub]; simpl.
  - by intros [= <-].
  - destruct (generateKey _ _); [done|]. by intros [= <-].
Qed.

Lemma checkDuplicate_returns clock t svc v :
  raises (strategy svc) v = None ->
  exists res, (checkDuplicate clock t svc v).1.1 = Normal res.
Proof.
  unfold raises, checkDuplicate. destruct v as [|sub]; simpl; [done|].
  destruct (generateKey _ _) as [k|]; [|done]. intros _.
  destruct (blank k); [by eexists|].
  destruct (seenRecords svc !! k); by eexists.
Qed.

Lemma processOne_errors clock res svc t v :
  let acc := processOne clock (res, svc, t) v in
  errors acc.1.1 = errors res ++ option_list (error_entry (strategy svc) v) /\
  strategy acc.1.2 = strategy svc /\
  classified acc.1.1 = S (classified res).
Proof.
  unfold processOne, error_entry.
  pose proof (checkDuplicate_strategy clock t svc v) as Hst.
  destruct (raises (strategy svc) v) as [e|] eqn:Hr.
  - pose proof (checkDuplicate_raises clock t svc v e Hr) as Hc.
    destruct (checkDuplicate clock t svc v) as [[c svc'] t']. simpl in *.
    subst c. simpl. unfold classified. simpl. rewrite length_app. simpl.
    split; [done|]. split; [done|]. lia.
  - destruct (checkDuplicate_returns clock t svc v Hr) as [dr Hc].
    destruct (checkDuplicate clock t svc v) as [[c svc'] t']. simpl in *.
    subst c. unfold classified.
    destruct (isDuplicate dr); simpl; rewrite app_nil_r, length_app; simpl;
      (split; [done|]); (split; [done|]); lia.
Qed.

Lemma processLoop_errors clock vs : forall res svc t,
  let acc := processLoop clock (res, svc, t) vs in
  errors acc.1.1 = errors res ++ omap (error_entry (strategy svc)) vs /\
  strategy acc.1.2 = strategy svc /\
  classified acc.1.1 = (classified res + length vs)%nat.
Proof.
  induction vs as [|v vs IH]; intros res svc t.
  - simpl. rewrite app_nil_r. split; [done|]. split; [done|]. lia.
  - rewrite processLoop_cons.
    destruct (processOne_errors clock res svc t v) as (He & Hs & Hc).
    destruct (processOne clock (res, svc, t) v) as [[res1 svc1] t1].
    simpl in He, Hs, Hc.
    destruct (IH res1 svc1 t1) as (He' & Hs' & Hc').
    cbv zeta. rewrite He', Hs', Hc', He, Hs, Hc, <- app_assoc.
    split; [|split; [done|simpl; lia]].
    f_equal. unfold omap. simpl.
    by destruct (error_entry (strategy svc) v).
Qed.

(** The filing of one value. *)
Lemma processOne_filed clock res svc t v :
  let acc := processOne clock (res, svc, t) v in
  exists label,
    unique acc.1.1 = unique res ++ filedAs AsUnique [label] [v] /\
    map fst (duplicates acc.1.1) =
      map fst (duplicates res) ++ filedAs AsDuplicate [label] [v] /\
    map fst (errors acc.1.1) = map fst (errors res) ++ filedAs AsError [label] [v] /\
    (label = AsError <-> raises (strategy svc) v <> None).
Proof.
  unfold processOne.
  destruct (raises (strategy svc) v) as [e|] eqn:Hr.
  - pose proof (checkDuplicate_raises clock t svc v e Hr) as Hc.
    destruct (checkDuplicate clock t svc v) as [[c svc'] t']. simpl in *.
    subst c. exists AsError. simpl. rewrite !app_nil_r, map_app. by repeat split.
  - destruct (checkDuplicate_returns clock t svc v Hr) as [dr Hc].
    destruct (checkDuplicate clock t svc v) as [[c svc'] t']. simpl in *.
    subst c. destruct (isDuplicate dr).
    + exists AsDuplicate. simpl. rewrite !app_nil_r, map_app.
      repeat split; try done.
    + exists AsUnique. simpl. rewrite !app_nil_r. repeat split; try done.
Qed.

Lemma filedAs_cons l label labels v vs :
  filedAs l (label :: labels) (v :: vs) = filedAs l [label] [v] ++ filedAs l labels vs.
Proof. simpl. by destruct (bool_decide (label = l)). Qed.

(** Every value of a batch is filed once, in order, and under [errors]
    exactly when [checkDuplicate] raises on it. *)
Lemma processLoop_filed clock vs : forall res svc t,
  let acc := processLoop clock (res, svc, t) vs in
  exists labels,
    length labels = length vs /\
    unique acc.1.1 = unique res ++ filedAs AsUnique labels vs /\
    map fst (duplicates acc.1.1) =
      map fst (duplicates res) ++ filedAs AsDuplicate labels vs /\
    map fst (errors acc.1.1) = map fst (errors res) ++ filedAs AsError labels vs /\
    Forall2 (fun label v => label = AsError <-> raises (strategy svc) v <> None)
            labels vs.
Proof.
  induction vs as [|v vs IH]; intros res svc t.
  - exists []. simpl. rewrite !app_nil_r. repeat split; try done.
  - rewrite processLoop_cons.
    destruct (processOne_filed clock res svc t v) as (label & Hu & Hd & He & Hl).
    destruct (processOne_errors clock res svc t v) as (_ & Hst & _).
    destruct (processOne clock (res, svc, t) v) as [[res1 svc1] t1].
    simpl in Hu, Hd, He, Hst.
    destruct (IH res1 svc1 t1) as (labels & Hlen & Hu' & Hd' & He' & Hall).
    exists (label :: labels). cbv zeta.
    rewrite Hu', Hd', He', Hu, Hd, He, !(filedAs_cons _ label labels v vs), <- !app_assoc.
    split; [simpl; by rewrite Hlen|]. split; [done|]. split; [done|]. split; [done|].
    constructor; [done|]. by rewrite <- Hst.
Qed.

(** C9, the claim as written fails: [checkDuplicate] raises on a value
    that is not a [Subscriber] instance, and on a subscriber whose email
    is a number the key derivation raises; [processBatch] then files the
    record under [errors], not under [unique]. *)
Lemma checkDuplicate_raises_on_malformed_input :
  (checkDuplicate ticking 0 (new_DeduplicationService None) (NotSubscriber JNull)).1.1
    = Throw (Error "Data must be a Subscriber instance") /\
  (checkDuplicate ticking 0 (new_DeduplicationService None)
     (IsSubscriber numeric_email)).1.1
    = Throw (TypeError "subscriber.email.toLowerCase is not a function") /\
  unique (processBatch ticking 0 (new_DeduplicationService None)
            [IsSubscriber numeric_email]).1.1 = [] /\
  ~ (forall clock t svc v,
       exists res, (checkDuplicate clock t svc v).1.1 = Normal res).
Proof.
  split; [reflexivity|]. split; [reflexivity|]. split; [reflexivity|].
  intros H.
  destruct (H ticking 0%nat (new_DeduplicationService None) (NotSubscriber JNull))
    as [res Hres].
  discriminate Hres.
Qed.

(** C9, amended.  [processBatch] returns normally on every array of
    values: the values on which [checkDuplicate] raises (those that are
    not [Subscriber] instances and those whose key derivation raises) are
    exactly the ones recorded, in order and with the message, in
    [errors]; every value lands in exactly one of the three lists: the
    positions of the input are filed one by one, each under one of
    [unique], [duplicates] and [errors], in order, and under [errors]
    exactly when [checkDuplicate] raises on the value, so that a value
    that raises is filed neither as unique nor as duplicate.
    [checkDuplicate] returns normally exactly on the other values, and
    under the email strategy a subscriber without email (a falsy one) is
    among them and is classified unique. *)
Theorem processBatch_files_raising_values_as_errors :
  forall (clock : Clock) (t : nat) (svc : DeduplicationService) (vs : list Value),
    errors (processBatch clock t svc vs).1.1 = omap (error_entry (strategy svc)) vs /\
    classified (processBatch clock t svc vs).1.1 = length vs /\
    (exists labels,
       length labels = length vs /\
       unique (processBatch clock t svc vs).1.1 = filedAs AsUnique labels vs /\
       map fst (duplicates (processBatch clock t svc vs).1.1) =
         filedAs AsDuplicate labels vs /\
       map fst (errors (processBatch clock t svc vs).1.1) =
         filedAs AsError labels vs /\
       Forall2 (fun label v => label = AsError <-> raises (strategy svc) v <> None)
               labels vs) /\
    (forall v, raises (strategy svc) v = None <->
               exists res, (checkDuplicate clock t svc v).1.1 = Normal res) /\
    (forall sub, strategy svc = EmailDeduplicationStrategy ->
                 truthy (email sub) = false ->
                 exists res, (checkDuplicate clock t svc (IsSubscriber sub)).1.1
                               = Normal res /\ isDuplicate res = false).
Proof.
  intros clock t svc vs.
  assert (errors (processBatch clock t svc vs).1.1
            = omap (error_entry (strategy svc)) vs /\
          classified (processBatch clock t svc vs).1.1 = length vs) as [He Hc].
  { destruct (processLoop_errors clock vs empty_result svc t) as (He & _ & Hc).
    unfold processBatch.
    destruct (processLoop clock (empty_result, svc, t) vs) as [[res svc'] t'].
    by split. }
  split; [exact He|]. split; [exact Hc|]. split; [|split].
  - destruct (processLoop_filed clock vs empty_result svc t) as (labels & Hf).
    exists labels. unfold processBatch.
    by destruct (processLoop clock (empty_result, svc, t) vs) as [[res svc'] t'].
  - intros v. split.
    + apply checkDuplicate_returns.
    + intros [res0 Hres]. destruct (raises (strategy svc) v) as [e|] eqn:Hr; [|done].
      rewrite (checkDuplicate_raises clock t svc v e Hr) in Hres. discriminate.
  - intros sub Hst Hfalsy.
    assert (generateKey (strategy svc) sub = Normal "") as Hk.
    { rewrite Hst. simpl. unfold lowered. by rewrite Hfalsy. }
    rewrite (checkDuplicate_blank clock t svc sub "" Hk eq_refl).
    by eexists.
Qed.

(** ** Two runs over the same input *)

Lemma similar_lookup s1 s2 k :
  similar s1 s2 -> view <$> seenRecords s1 !! k = view <$> seenRecords s2 !! k.
Proof. intros [_ H]. by rewrite <- !lookup_fmap, H. Qed.

Lemma similar_reset svc1 svc2 :
  strategy svc1 = strategy svc2 -> similar (reset svc1) (reset svc2).
Proof. intros H. split; [exact H|]. simpl. by rewrite !fmap_empty. Qed.

(** One step of the batch loop, made by two similar services at
    different times, adds the same thing to the partition and leaves the
    services similar. *)
Lemma processOne_similar clock1 clock2 v res1 svc1 t1 res2 svc2 t2 :
  similar svc1 svc2 -> partition_of res1 = partition_of res2 ->
  similar (processOne clock1 (res1, svc1, t1) v).1.2
          (processOne clock2 (res2, svc2, t2) v).1.2 /\
  partition_of (processOne clock1 (res1, svc1, t1) v).1.1 =
  partition_of (processOne clock2 (res2, svc2, t2) v).1.1.
Proof.
  intros Hsim Hpart.
  pose proof Hsim as [Hst Hview].
  destruct res1 as [u1 d1 e1], res2 as [u2 d2 e2].
  unfold partition_of in Hpart. simpl in Hpart. injection Hpart as -> Hd ->.
  unfold processOne. destruct v as [j|sub].
  { simpl. split; [done|]. unfold partition_of. simpl. by rewrite Hd. }
  destruct (generateKey (strategy svc1) sub) as [k|e] eqn:Hk1.
  2:{ rewrite (checkDuplicate_throws clock1 t1 svc1 sub e Hk1).
      rewrite Hst in Hk1.
      rewrite (checkDuplicate_throws clock2 t2 svc2 sub e Hk1).
      simpl. split; [by split|]. unfold partition_of. simpl. by rewrite Hd. }
  pose proof Hk1 as Hk2. rewrite Hst in Hk2.
  destruct (blank k) eqn:Hb.
  { rewrite (checkDuplicate_blank clock1 t1 svc1 sub k Hk1 Hb),
      (checkDuplicate_blank clock2 t2 svc2 sub k Hk2 Hb).
    simpl. split; [by split|]. unfold partition_of. simpl. by rewrite Hd. }
  pose proof (similar_lookup svc1 svc2 k Hsim) as Hk.
  destruct (seenRecords svc1 !! k) as [r1|] eqn:E1,
           (seenRecords svc2 !! k) as [r2|] eqn:E2;
    simpl in Hk; try discriminate Hk.
  - unfold view in Hk. injection Hk as Hsub Hcount.
    rewrite (checkDuplicate_seen clock1 t1 svc1 sub k r1 Hk1 Hb E1),
      (checkDuplicate_seen clock2 t2 svc2 sub k r2 Hk2 Hb E2).
    cbn [isDuplicate new_DuplicateResult fst snd]. split.
    + split; [done|]. cbn [seenRecords]. rewrite !fmap_insert, Hview.
      unfold view. simpl. by rewrite Hsub, Hcount.
    + unfold partition_of. simpl. rewrite !map_app, Hd. simpl.
      unfold unstamped. simpl. by rewrite Hsub, Hcount.
  - rewrite (checkDuplicate_fresh clock1 t1 svc1 sub k Hk1 Hb E1),
      (checkDuplicate_fresh clock2 t2 svc2 sub k Hk2 Hb E2).
    cbn [isDuplicate new_DuplicateResult fst snd]. split.
    + split; [done|]. cbn [seenRecords]. by rewrite !fmap_insert, Hview.
    + unfold partition_of. simpl. by rewrite Hd.
Qed.

Lemma processLoop_similar clock1 clock2 vs : forall res1 svc1 t1 res2 svc2 t2,
  similar svc1 svc2 -> partition_of res1 = partition_of res2 ->
  partition_of (processLoop clock1 (res1, svc1, t1) vs).1.1 =
  partition_of (processLoop clock2 (res2, svc2, t2) vs).1.1.
Proof.
  induction vs as [|v vs IH]; intros res1 svc1 t1 res2 svc2 t2 Hsim Hpart.
  - exact Hpart.
  - rewrite !processLoop_cons.
    destruct (processOne_similar clock1 clock2 v res1 svc1 t1 res2 svc2 t2 Hsim Hpart)
      as [Hsim' Hpart'].
    destruct (processOne clock1 (res1, svc1, t1) v) as [[r1 s1] n1].
    destruct (processOne clock2 (res2, svc2, t2) v) as [[r2 s2] n2].
    by apply IH.
Qed.

Lemma processBatch_result clock t svc vs :
  (processBatch clock t svc vs).1.1 = (processLoop clock (empty_result, svc, t) vs).1.1.
Proof.
  unfold processBatch.
  by destruct (processLoop clock (empty_result, svc, t) vs) as [[r s] n].
Qed.

Lemma processBatch_strategy clock t svc vs :
  strategy (processBatch clock t svc vs).1.2 = strategy svc.
Proof.
  unfold processBatch.
  destruct (processLoop_errors clock vs empty_result svc t) as (_ & Hs & _).
  by destruct (processLoop clock (empty_result, svc, t) vs) as [[r s] n].
Qed.

(** C10, the claim as written fails: every [DuplicateResult] carries the
    time of its creation, so the duplicates of two runs made at different
    times are not identical. *)
Lemma rerun_differs_in_timestamps :
  map (fun d => timestamp d.2)
    (duplicates (rerun ticking 0 (new_DeduplicationService None)
                   [IsSubscriber ten_first; IsSubscriber ten_second]).1) = [3] /\
  map (fun d => timestamp d.2)
    (duplicates (rerun ticking 0 (new_DeduplicationService None)
                   [IsSubscriber ten_first; IsSubscriber ten_second]).2) = [7] /\
  ~ (forall clock t svc vs, (rerun clock t svc vs).1 = (rerun clock t svc vs).2).
Proof.
  split; [reflexivity|]. split; [reflexivity|].
  intros H.
  specialize (H ticking 0%nat (new_DeduplicationService None)
                [IsSubscriber ten_first; IsSubscriber ten_second]).
  apply (f_equal (fun r => map (fun d => timestamp d.2) (duplicates r))) in H.
  vm_compute in H. discriminate H.
Qed.

(** C10, amended.  Running the same strategy twice over the same input
    in the same order, each run on the freshly reset service, gives the
    same partition: the same [unique] list, the same [errors] and the
    same duplicates with the same [originalRecord] and [duplicateCount];
    the runs differ at most in the creation times stamped on the
    [DuplicateResult]s. *)
Theorem rerun_gives_the_same_partition :
  forall (clock : Clock) (t : nat) (svc : DeduplicationService)
         (subscribers : list Value),
    partition_of (rerun clock t svc subscribers).1 =
    partition_of (rerun clock t svc subscribers).2.
Proof.
  intros clock t svc vs. unfold rerun.
  pose proof (processBatch_result clock t (reset svc) vs) as H1.
  pose proof (processBatch_strategy clock t (reset svc) vs) as Hs.
  destruct (processBatch clock t (reset svc) vs) as [[r1 svc1] t1].
  pose proof (processBatch_result clock t1 (reset svc1) vs) as H2.
  destruct (processBatch clock t1 (reset svc1) vs) as [[r2 svc2] t2].
  simpl in *. subst r1 r2.
  apply processLoop_similar; [|done].
  apply similar_reset. simpl. by rewrite Hs.
Qed.

End DedupFacts.

(* ================================================================== *)
(** * Properties of the rate limiter *)

Module LimiterFacts.
Import Limiter.

Lemma elapsed_nonneg (now last : Z) (rate : Q) :
  last <= now -> (0 <= rate)%Q ->
  (0 <= inject_Z (now - last) / 1000 * rate)%Q.
Proof.
  intros Ht Hr.
  assert (0 <= inject_Z (now - last))%Q as Hd.
  { rewrite <- (Zle_Qle 0). lia. }
  apply Qmult_le_0_compat; [|exact Hr].
  apply Qle_shift_div_l; [reflexivity|]. by rewrite Qmult_0_l.
Qed.

Lemma refillTokens_invariant rate c now r :
  (0 <= rate)%Q -> (0 <= c)%Q ->
  invariant rate c now r -> invariant rate c now (refillTokens now r).
Proof.
  intros Hr Hc ((Hlo & Hhi) & Hmax & Hrate & Hlast).
  unfold invariant, within, refillTokens. simpl.
  rewrite Hmax, Hrate.
  pose proof (elapsed_nonneg now (lastRefill r) rate Hlast Hr) as Hadd.
  repeat split; try done; try lia.
  - apply Q.min_glb; [exact Hc|].
    apply (Qplus_le_compat 0 (tokens r) 0 _ Hlo) in Hadd.
    by rewrite Qplus_0_l in Hadd.
  - apply Q.le_min_l.
Qed.

Lemma tryAcquire_invariant rate c now r :
  (0 <= rate)%Q -> (0 <= c)%Q ->
  invariant rate c now r -> invariant rate c now (tryAcquire now r).2.
Proof.
  intros Hr Hc Hinv.
  apply (refillTokens_invariant rate c now r Hr Hc) in Hinv.
  unfold tryAcquire.
  destruct (Qle_bool 1 (tokens (refillTokens now r))) eqn:Hone; [|exact Hinv].
  apply Qle_bool_iff in Hone.
  destruct Hinv as ((Hlo & Hhi) & Hmax & Hrate & Hlast).
  unfold invariant, within. cbn [tokens maxTokens refillRate lastRefill fst snd].
  unfold within in Hlo, Hhi.
  set (x := tokens (refillTokens now r)) in *. clearbody x.
  repeat split; try done; lra.
Qed.

Lemma getAvailableTokens_report rate c now r :
  (0 <= rate)%Q -> (0 <= c)%Q -> invariant rate c now r ->
  report_within c (Some (getAvailableTokens now r).1).
Proof.
  intros Hr Hc Hinv.
  apply (refillTokens_invariant rate c now r Hr Hc) in Hinv.
  destruct Hinv as ((Hlo & Hhi) & _).
  unfold getAvailableTokens, report_within. simpl in *. split.
  - change 0 with (Qfloor 0). by apply Qfloor_resp_le.
  - eapply Qle_trans; [apply Qfloor_le|exact Hhi].
Qed.

Lemma invariant_later rate c t t' r :
  t <= t' -> invariant rate c t r -> invariant rate c t' r.
Proof. intros Ht (H1 & H2 & H3 & H4). repeat split; try apply H1; try done. lia. Qed.

Lemma step_invariant rate c op r :
  (0 <= rate)%Q -> (0 <= c)%Q ->
  invariant rate c (time_of op) r ->
  invariant rate c (time_of op) (step op r).1 /\ report_within c (step op r).2.
Proof.
  intros Hr Hc Hinv. destruct op as [now|now|now]; simpl in *.
  - split; [by apply tryAcquire_invariant|done].
  - split; [by apply refillTokens_invariant|done].
  - split; [by apply refillTokens_invariant|].
    by apply (getAvailableTokens_report rate c now r).
Qed.

Lemma run_invariant rate c ops : forall t r,
  (0 <= rate)%Q -> (0 <= c)%Q ->
  invariant rate c t r -> monotone t ops ->
  Forall (fun s => within c s.1 /\ report_within c s.2) (run r ops).
Proof.
  induction ops as [|op ops IH]; intros t r Hr Hc Hinv Hmono; simpl.
  - constructor.
  - destruct Hmono as [Ht Hmono].
    apply (invariant_later rate c t (time_of op) r Ht) in Hinv.
    destruct (step_invariant rate c op r Hr Hc Hinv) as [Hinv' Hout].
    destruct (step op r) as [r' out]. simpl in *.
    constructor.
    + split; [apply Hinv'|exact Hout].
    + by apply (IH (time_of op)).
Qed.

(** A call of [acquire()] by a single caller is a run of passes: as many
    as it slept, plus the one that took the token. *)
Lemma acquire_is_a_run_of_passes clock : forall r r' sleeps,
  acquire clock r = Some (r', sleeps) ->
  exists passes rest,
    clock = passes ++ rest /\
    length passes = S (length sleeps) /\
    last (map fst (run r (map Acquire passes))) = Some r'.
Proof.
  induction clock as [|now later IH]; intros r r' sleeps H; [done|].
  simpl in H. destruct (tryAcquire now r) as [[|] r1] eqn:Htry.
  - injection H as <- <-. exists [now], later. simpl. by rewrite Htry.
  - destruct (acquire later r1) as [[r2 sleeps1]|] eqn:Hrec; [|done].
    injection H as <- <-.
    destruct (IH r1 r2 sleeps1 Hrec) as (passes & rest & -> & Hlen & Hlast).
    exists (now :: passes), rest. simpl. rewrite Htry. simpl.
    split; [done|]. split; [by rewrite Hlen|].
    destruct passes as [|p passes]; [done|].
    simpl in *. destruct (step (Acquire p) r1) as [r3 out]. exact Hlast.
Qed.

Lemma refillTokens_at_most c now r :
  maxTokens r = c -> at_most c (refillTokens now r).
Proof.
  intros Hmax. unfold at_most, refillTokens. simpl. rewrite Hmax.
  split; [apply Q.le_min_l|done].
Qed.

Lemma step_at_most c op r :
  at_most c r -> at_most c (step op r).1 /\ report_at_most c (step op r).2.
Proof.
  intros [Hhi Hmax]. destruct op as [now|now|now]; simpl.
  - split; [|done]. unfold tryAcquire.
    destruct (refillTokens_at_most c now r Hmax) as [Hhi' Hmax'].
    destruct (Qle_bool 1 (tokens (refillTokens now r))); [|by split].
    split; [|exact Hmax']. cbn [tokens fst snd].
    set (x := tokens (refillTokens now r)) in *. clearbody x. lra.
  - split; [by apply refillTokens_at_most|done].
  - destruct (refillTokens_at_most c now r Hmax) as [Hhi' Hmax'].
    split; [by split|].
    eapply Qle_trans; [apply Qfloor_le|exact Hhi'].
Qed.

Lemma run_at_most c ops : forall r,
  at_most c r ->
  Forall (fun s => (tokens s.1 <= c)%Q /\ report_at_most c s.2) (run r ops).
Proof.
  induction ops as [|op ops IH]; intros r Hr; simpl.
  - constructor.
  - destruct (step_at_most c op r Hr) as [Hr' Hout].
    destruct (step op r) as [r' out]. simpl in *.
    constructor; [|by apply IH].
    split; [apply Hr'|exact Hout].
Qed.

(** C7, amended.  On a limiter built with burst capacity [c], along
    every sequence of acquire passes, refills and [getAvailableTokens]
    calls, the token count never exceeds [c] and [getAvailableTokens]
    never reports more than [c].  The token count never goes below zero
    and no report is negative when moreover the capacity and the refill
    rate are not negative and the clock does not run backwards; without
    these conditions it does (see [tokens_fall_below_zero]). *)
Theorem tokens_stay_within_capacity :
  forall (t0 : Z) (rate c : Q) (ops : list Operation),
    Forall (fun s => (tokens s.1 <= c)%Q /\ report_at_most c s.2)
      (run (new_RateLimiter t0 rate c) ops) /\
    ((0 <= rate)%Q -> (0 <= c)%Q -> monotone t0 ops ->
     Forall (fun s => within c s.1 /\ report_within c s.2)
       (run (new_RateLimiter t0 rate c) ops)).
Proof.
  intros t0 rate c ops. split.
  - apply run_at_most. split; [apply Qle_refl|done].
  - intros Hr Hc Hmono.
    apply (run_invariant rate c ops t0); try done.
    unfold invariant, within, new_RateLimiter. simpl.
    repeat split; try done; try lia. apply Qle_refl.
Qed.

(** The scenario of the specification stays within its capacity of 2. *)
Lemma scenario_within_capacity :
  Forall (fun s => within 2 s.1 /\ report_within 2 s.2)
    (run (new_RateLimiter 0 1 2) scenario).
Proof.
  apply (tokens_stay_within_capacity 0 1 2 scenario).
  - unfold Qle. simpl. lia.
  - unfold Qle. simpl. lia.
  - simpl. lia.
Defined.

(** C7, the claim as written fails: [refillTokens] adds the time passed
    since the last refill, whatever its sign, and caps the count from
    above only.  A limiter of capacity 5 at one token per second, emptied
    by five acquisitions at clock reading 10000 and looked at after the
    clock was set back to 7000, holds -3 tokens, and
    [getAvailableTokens] reports -3. *)
Lemma tokens_fall_below_zero :
  map snd (run (new_RateLimiter 10000 1 5) clock_set_back) =
    [None; None; None; None; None; Some (-3)] /\
  Exists (fun s => (tokens s.1 == -3)%Q /\ (tokens s.1 < 0)%Q)
         (run (new_RateLimiter 10000 1 5) clock_set_back) /\
  ~ Forall (fun s => within 5 s.1 /\ report_within 5 s.2)
           (run (new_RateLimiter 10000 1 5) clock_set_back).
Proof.
  split; [reflexivity|]. split.
  - do 5 apply Exists_cons_tl. apply Exists_cons_hd. by split.
  - intros H. do 5 apply Forall_inv_tail in H. apply Forall_inv in H.
    destruct H as [[Hlow _] _]. by apply Hlow.
Qed.

End LimiterFacts.

(* ================================================================== *)
(** * Properties of the checkpoint store *)

Module PersistenceFacts.
Import Persistence.

(** ** The sort *)

Section SortFacts.
Context {A : Type} (stamp : A -> Z).

Let newer (a b : A) : Prop := stamp b <= stamp a.

Lemma insertNewestFirst_perm x l :
  Permutation (insertNewestFirst stamp x l) (x :: l).
Proof.
  induction l as [|y l IH]; simpl; [done|].
  destruct (stamp y <=? stamp x); [done|].
  rewrite IH. apply perm_swap.
Qed.

Lemma sortNewestFirst_perm l : Permutation (sortNewestFirst stamp l) l.
Proof.
  induction l as [|x l IH]; simpl; [done|].
  rewrite insertNewestFirst_perm. by constructor.
Qed.

Lemma insertNewestFirst_sorted x l :
  StronglySorted newer l -> StronglySorted newer (insertNewestFirst stamp x l).
Proof.
  induction 1 as [|y l Hs IH Hall]; simpl.
  - repeat constructor.
  - destruct (stamp y <=? stamp x) eqn:Hle.
    + apply Z.leb_le in Hle. constructor; [by constructor|].
      constructor; [exact Hle|].
      eapply Forall_impl; [exact Hall|]. intros z Hz. unfold newer in *. lia.
    + apply Z.leb_gt in Hle. constructor; [exact IH|].
      rewrite insertNewestFirst_perm. constructor; [unfold newer; lia|exact Hall].
Qed.

Lemma sortNewestFirst_sorted l : StronglySorted newer (sortNewestFirst stamp l).
Proof.
  induction l as [|x l IH]; simpl; [constructor|].
  by apply insertNewestFirst_sorted.
Qed.

Lemma sortNewestFirst_In x l : In x (sortNewestFirst stamp l) <-> In x l.
Proof.
  split; apply Permutation_in;
    [apply sortNewestFirst_perm|symmetry; apply sortNewestFirst_perm].
Qed.

(** The head of the sorted list is an element no other is newer than. *)
Lemma sortNewestFirst_head l c rest :
  sortNewestFirst stamp l = c :: rest ->
  In c l /\ forall c', In c' l -> stamp c' <= stamp c.
Proof.
  intros Hsort.
  pose proof (sortNewestFirst_sorted l) as Hs. rewrite Hsort in Hs.
  apply StronglySorted_inv in Hs as [_ Hall].
  split.
  - apply sortNewestFirst_In. rewrite Hsort. by left.
  - intros c' Hc'. apply sortNewestFirst_In in Hc'. rewrite Hsort in Hc'.
    destruct Hc' as [<-|Hc']; [lia|].
    rewrite List.Forall_forall in Hall. by apply Hall.
Qed.

Lemma sortNewestFirst_nil l : sortNewestFirst stamp l = [] -> l = [].
Proof.
  intros H. apply Permutation_nil. rewrite <- H.
  apply sortNewestFirst_perm.
Qed.
End SortFacts.

(** ** Listing and loading *)

Lemma listCheckpoints_In files c :
  In c (listCheckpoints files) <->
  exists f, In (f, Json c) files /\ endsWith f ".json" = true.
Proof.
  induction files as [|[name content] files IH]; simpl.
  - split; [done|]. by intros (f & [] & _).
  - destruct (endsWith name ".json") eqn:Hjson; [destruct content as [|c0]|].
    + rewrite IH. split.
      * intros (f & Hin & Hf). exists f. by split; [right|].
      * intros (f & [Heq|Hin] & Hf); [done|]. by exists f.
    + simpl. rewrite IH. split.
      * intros [<-|(f & Hin & Hf)].
        -- exists name. by split; [left|].
        -- exists f. by split; [right|].
      * intros (f & [Heq|Hin] & Hf).
        -- injection Heq as <- <-. by left.
        -- right. by exists f.
    + rewrite IH. split.
      * intros (f & Hin & Hf). exists f. by split; [right|].
      * intros (f & [Heq|Hin] & Hf).
        -- injection Heq as <- <-. congruence.
        -- by exists f.
Qed.

(** In a directory, a name designates one file. *)
Lemma readFile_In files f x :
  NoDup (map fst files) -> In (f, x) files -> readFile files f = Some x.
Proof.
  unfold readFile.
  induction files as [|[g y] files IH]; intros Hnd Hin; [done|].
  simpl in Hnd. apply NoDup_cons in Hnd as [Hnotin Hnd].
  simpl. destruct (String.eqb g f) eqn:Hgf.
  - apply String.eqb_eq in Hgf as ->.
    destruct Hin as [Heq|Hin]; [by injection Heq as ->|].
    exfalso. apply Hnotin. apply list_elem_of_In.
    by apply (in_map fst _ (f, x)).
  - destruct Hin as [Heq|Hin]; [|by apply IH].
    injection Heq as -> _. by rewrite String.eqb_refl in Hgf.
Qed.

(** Distinct stamps tell the elements of a list apart. *)
Lemma NoDup_stamp_inj {A} (stamp : A -> Z) l x y :
  NoDup (map stamp l) -> In x l -> In y l -> stamp x = stamp y -> x = y.
Proof.
  induction l as [|z l IH]; intros Hnd Hx Hy Heq; [done|].
  simpl in Hnd. apply NoDup_cons in Hnd as [Hnotin Hnd].
  destruct Hx as [<-|Hx], Hy as [<-|Hy]; try done.
  - exfalso. apply Hnotin. rewrite Heq. apply list_elem_of_In. by apply in_map.
  - exfalso. apply Hnotin. rewrite <- Heq. apply list_elem_of_In. by apply in_map.
  - by apply IH.
Qed.

(** In a session directory filled by [saveCheckpoint], what
    [loadLatestCheckpoint] loads is the latest checkpoint. *)
Lemma loadLatestCheckpoint_latest name files c :
  saved_session name files ->
  loadLatestCheckpoint files = Loaded c <-> latest files c.
Proof.
  intros (Hname & Hfiles & Hstamps & Hsaved).
  assert (Hread : forall c0, In c0 (listCheckpoints files) ->
            readFile files (id c0 +:+ ".json") = Some (Json c0) /\
            deserializeCheckpoint c0 = Loaded c0).
  { intros c0 Hc0. apply listCheckpoints_In in Hc0 as (f & Hin & _).
    destruct (Hsaved f c0 Hin) as (-> & _ & Hstate). split.
    - by apply readFile_In.
    - unfold deserializeCheckpoint. by destruct (state c0). }
  unfold loadLatestCheckpoint, latest. split.
  - destruct (sortNewestFirst timestamp (listCheckpoints files)) as [|c0 rest] eqn:Hsort;
      [done|].
    apply sortNewestFirst_head in Hsort as [Hin Hmax].
    destruct (Hread c0 Hin) as [-> ->]. by intros [= <-].
  - intros [Hin Hmax].
    destruct (sortNewestFirst timestamp (listCheckpoints files)) as [|c0 rest] eqn:Hsort.
    + apply sortNewestFirst_nil in Hsort. by rewrite Hsort in Hin.
    + apply sortNewestFirst_head in Hsort as [Hin0 Hmax0].
      assert (c0 = c) as ->.
      { apply (NoDup_stamp_inj timestamp (listCheckpoints files)); try done.
        apply Z.le_antisymm; [by apply Hmax|by apply Hmax0]. }
      by destruct (Hread c Hin) as [-> ->].
Qed.



(** A file named after a checkpoint is one [listCheckpoints] reads. *)
Lemma endsWith_json stem : endsWith (stem +:+ ".json") ".json" = true.
Proof.
  unfold endsWith.
  assert (forall a b, String.length (a +:+ b) = (String.length a + String.length b)%nat)
    as Hlen.
  { induction a as [|c a IH]; intros b; [done|]. simpl. by rewrite IH. }
  assert (forall b, substring 0 (String.length b) b = b) as Hall.
  { induction b as [|c b IHb]; [done|]. simpl. by rewrite IHb. }
  assert (forall a b, substring (String.length a) (String.length b) (a +:+ b) = b) as Hsub.
  { induction a as [|c a IH]; intros b; simpl; [apply Hall|apply IH]. }
  rewrite Hlen. apply andb_true_intro. split.
  - apply Nat.leb_le. lia.
  - replace (String.length stem + String.length ".json" - String.length ".json")%nat
      with (String.length stem) by lia.
    rewrite Hsub. apply String.eqb_refl.
Qed.







End PersistenceFacts.

(* ================================================================== *)
(** * More properties of the progress tracker *)

Module ProgressSummaryFacts.
Import Progress ProgressSummary.

(** The three arrays a state accumulates. *)
Lemma arrays_update env e s :
  errors (update env e s) =
    match e with
    | ERROR_OCCURRED err c => errors s ++ [ {| timestamp := now env; what := err; detail := c |} ]
    | _ => errors s
    end /\
  warnings (update env e s) =
    match e with
    | WARNING_OCCURRED w c => warnings s ++ [ {| timestamp := now env; what := w; detail := c |} ]
    | _ => warnings s
    end /\
  milestones (update env e s) =
    match e with
    | MILESTONE_REACHED m d => milestones s ++ [ {| timestamp := now env; what := m; detail := d |} ]
    | _ => milestones s
    end.
Proof.
  unfold update.
  destruct e as [| | |d|ok| | | | |[p|]|]; try (repeat split; reflexivity).
  - destruct (negb (Qeq_bool d 0)); repeat split; reflexivity.
  - assert (forall s', errors (updatePerformanceMetrics env s') = errors s' /\
                       warnings (updatePerformanceMetrics env s') = warnings s' /\
                       milestones (updatePerformanceMetrics env s') = milestones s') as H.
    { intros s'. unfold updatePerformanceMetrics.
      destruct (startTime s'); [|done].
      destruct (Qlt_bool 0 _); [|done]. by destruct (_ && _). }
    destruct ok;
      match goal with
      | |- context [updatePerformanceMetrics env ?s'] =>
          destruct (H s') as (E1 & E2 & E3)
      end;
      cbn [errors warnings milestones updateCommonMetrics set_statistics];
      by rewrite E1, E2, E3.
Qed.

Lemma feed_snoc s events ee :
  feed s (events ++ [ee]) = update (fst ee) (snd ee) (feed s events).
Proof. unfold feed. by rewrite fold_left_app. Qed.

Lemma count_snoc kind events ee :
  count kind (events ++ [ee]) =
  (count kind events + if kind (snd ee) then 1 else 0)%nat.
Proof.
  unfold count. rewrite List.filter_app, length_app. simpl.
  by destruct (kind (snd ee)).
Qed.

Lemma feed_counts s events :
  processedRecords (feed s events) =
    processedRecords s + Z.of_nat (count (is_record true) events)
                       + Z.of_nat (count (is_record false) events) /\
  successfulRecords (feed s events) =
    successfulRecords s + Z.of_nat (count (is_record true) events) /\
  failedRecords (feed s events) =
    failedRecords s + Z.of_nat (count (is_record false) events) /\
  length (errors (feed s events)) = (length (errors s) + count is_error events)%nat /\
  length (warnings (feed s events)) = (length (warnings s) + count is_warning events)%nat /\
  length (milestones (feed s events)) =
    (length (milestones s) + count is_milestone events)%nat.
Proof.
  induction events as [|[env e] events IH] using rev_ind.
  - unfold count. simpl. repeat split; lia.
  - destruct IH as (H1 & H2 & H3 & H4 & H5 & H6).
    rewrite feed_snoc, !count_snoc. cbn [fst snd].
    pose proof (ProgressFacts.counters_update env e (feed s events)) as Hc.
    destruct (arrays_update env e (feed s events)) as (He & Hw & Hm).
    unfold counters in Hc.
    pose proof (f_equal (fun x => x.1.1) Hc) as Hp.
    pose proof (f_equal (fun x => x.1.2) Hc) as Hs.
    pose proof (f_equal snd Hc) as Hf. clear Hc.
    cbn [fst snd] in Hp, Hs, Hf.
    rewrite He, Hw, Hm, Hp, Hs, Hf.
    destruct e as [| | | |[|]| | | | | |]; cbn [fst snd is_record is_error is_warning
      is_milestone Bool.eqb]; rewrite ?length_app; simpl length;
      repeat split; lia.
Qed.

(** X1.  Fed to a new [ProgressState], a sequence of events leaves
    [processedRecords] at the number of RECORD_PROCESSED events in it,
    [successfulRecords] and [failedRecords] at the numbers of those with
    and without the success flag, and the summary's error and warning
    counts at the numbers of ERROR_OCCURRED and WARNING_OCCURRED events:
    no event is lost and none is counted twice. *)
Theorem summary_counts_the_events :
  forall events : list (Env * ProgressEvent),
    let summary := getStatusSummary (feed new_ProgressState events) in
    sum_processed summary =
      Z.of_nat (count (is_record true) events + count (is_record false) events) /\
    sum_successful summary = Z.of_nat (count (is_record true) events) /\
    sum_failed summary = Z.of_nat (count (is_record false) events) /\
    sum_errors summary = count is_error events /\
    sum_warnings summary = count is_warning events /\
    length (milestones (feed new_ProgressState events)) = count is_milestone events.
Proof.
  intros events.
  destruct (feed_counts new_ProgressState events) as (H1 & H2 & H3 & H4 & H5 & H6).
  simpl in *. repeat split; lia.
Qed.

(** ** Throttling *)

Lemma state_updateProgress env e t :
  state (updateProgress env e t) = update env e (state t).
Proof. unfold updateProgress. by destruct (_ && _). Qed.

Lemma updateInterval_updateProgress env e t :
  updateInterval (updateProgress env e t) = updateInterval t.
Proof. unfold updateProgress. by destruct (_ && _). Qed.

Lemma call_state_only env c t1 t2 :
  state t1 = state t2 -> updateInterval t1 = updateInterval t2 ->
  state (call env c t1) = state (call env c t2) /\
  updateInterval (call env c t1) = updateInterval (call env c t2).
Proof.
  intros Hs Hi. destruct c; simpl.
  - destruct enablePeriodicUpdates; simpl;
      rewrite !state_updateProgress, ?updateInterval_updateProgress; simpl;
      by rewrite Hs, ?Hi.
  - by rewrite !state_updateProgress, !updateInterval_updateProgress, Hs, Hi.
  - rewrite !state_updateProgress. simpl. by rewrite Hs.
  - by rewrite Hs.
  - by rewrite Hs.
  - by rewrite Hs.
  - rewrite <- Hi. destruct (updateInterval t1) eqn:Ei; [|split; congruence].
    rewrite <- Hs. destruct (status (state t1)) eqn:Est; try (split; congruence).
    rewrite !state_updateProgress, !updateInterval_updateProgress.
    split; congruence.
Qed.

(** X2.  Throttling never touches the state: two trackers that start
    from the same state, with different throttle windows and different
    times of last notification, go through the same states under the same
    calls. *)
Theorem throttling_never_changes_the_state :
  forall (cs : list (Env * TrackerCall)) (t1 t2 : ProgressTracker),
    state t1 = state t2 -> updateInterval t1 = updateInterval t2 ->
    map state (history t1 cs) = map state (history t2 cs).
Proof.
  induction cs as [|[env c] cs IH]; intros t1 t2 Hs Hi; [done|].
  simpl. destruct (call_state_only env c t1 t2 Hs Hi) as [Hs' Hi'].
  rewrite Hs'. f_equal. by apply IH.
Qed.

(** Two trackers on the same state, one with a throttle window of five
    seconds. *)
Lemma throttling_of_two_trackers :
  map state
      (history (new_ProgressTracker "s")
         [({| now := 10; heapUsed := 0 |}, progressEvent (RECORD_PROCESSED true));
          ({| now := 20; heapUsed := 0 |}, progressEvent (BATCH_PROGRESS 1))]) =
  map state
      (history {| state := state (new_ProgressTracker "s"); updateFrequency := 5000;
                  lastUpdateTime := 0; updateInterval := false; notified := [] |}
         [({| now := 10; heapUsed := 0 |}, progressEvent (RECORD_PROCESSED true));
          ({| now := 20; heapUsed := 0 |}, progressEvent (BATCH_PROGRESS 1))]).
Proof.
  apply (throttling_never_changes_the_state
           [({| now := 10; heapUsed := 0 |}, progressEvent (RECORD_PROCESSED true));
            ({| now := 20; heapUsed := 0 |}, progressEvent (BATCH_PROGRESS 1))]
           (new_ProgressTracker "s")
           {| state := state (new_ProgressTracker "s"); updateFrequency := 5000;
              lastUpdateTime := 0; updateInterval := false; notified := [] |}).
  - reflexivity.
  - reflexivity.
Defined.

Lemma feedTracker_snoc t events ee :
  feedTracker t (events ++ [ee]) = updateProgress (fst ee) (snd ee) (feedTracker t events).
Proof. unfold feedTracker. by rewrite fold_left_app. Qed.

(** X3.  The observers are handed a sublist of the events fed, in
    order, and no phase change, milestone, error or session completion is
    ever held back by the throttle. *)
Theorem priority_events_are_always_notified :
  forall (sid : string) (events : list (Env * ProgressEvent)),
    let t := feedTracker (new_ProgressTracker sid) events in
    sublist (notified t) (map snd events) /\
    List.filter always_notified (notified t) =
    List.filter always_notified (map snd events).
Proof.
  intros sid events. cbv zeta.
  induction events as [|[env e] events [IH1 IH2]] using rev_ind; [done|].
  rewrite feedTracker_snoc, map_app, List.filter_app. simpl.
  unfold updateProgress.
  destruct ((now env - lastUpdateTime _ <? updateFrequency _) && negb (always_notified e))
    eqn:Hthrottle; simpl.
  - apply andb_prop in Hthrottle as [_ Hp]. apply negb_true_iff in Hp.
    rewrite Hp, app_nil_r. split; [|done].
    by apply sublist_inserts_r.
  - rewrite List.filter_app, IH2. simpl. split; [|done].
    by apply sublist_app.
Qed.

(** ** The completion percentage *)

Lemma percentage_bounds (p t : Z) :
  let q := (inject_Z p / inject_Z t * 100)%Q in
  (Qmin 100 q <= 100)%Q /\
  (0 <= p -> 0 < t -> (0 <= Qmin 100 q)%Q) /\
  (0 < t -> t <= p -> (Qmin 100 q == 100)%Q).
Proof.
  cbv zeta. split; [apply Q.le_min_l|].
  assert (forall t, 0 < t -> (0 < inject_Z t)%Q) as Hpos.
  { intros t0 Ht. rewrite <- (Zlt_Qlt 0). lia. }
  split.
  - intros Hp Ht. apply Q.min_glb; [done|].
    apply Qmult_le_0_compat; [|done].
    apply Qle_shift_div_l; [by apply Hpos|].
    rewrite Qmult_0_l. rewrite <- (Zle_Qle 0). lia.
  - intros Ht Hle. apply Q.min_l.
    assert (1 <= inject_Z p / inject_Z t)%Q as H1.
    { apply Qle_shift_div_l; [by apply Hpos|].
      rewrite Qmult_1_l. by rewrite <- Zle_Qle. }
    set (x := (inject_Z p / inject_Z t)%Q) in *. clearbody x. lra.
Qed.

(** X4.  The completion percentage never exceeds 100; it is 0 before
    the total is known, not negative for counts that are not negative, and
    exactly 100 once the processed records reach the total. *)
Theorem completion_percentage_is_capped :
  forall s : ProgressState,
    (getCompletionPercentage s <= 100)%Q /\
    (totalRecords s = 0 -> getCompletionPercentage s = 0%Q) /\
    (0 <= processedRecords s -> 0 <= totalRecords s ->
     (0 <= getCompletionPercentage s)%Q) /\
    (0 < totalRecords s -> totalRecords s <= processedRecords s ->
     (getCompletionPercentage s == 100)%Q).
Proof.
  intros s. unfold getCompletionPercentage.
  destruct (percentage_bounds (processedRecords s) (totalRecords s)) as (H1 & H2 & H3).
  destruct (totalRecords s =? 0) eqn:Hz.
  - apply Z.eqb_eq in Hz. repeat split; try done; lia.
  - apply Z.eqb_neq in Hz. repeat split; try done.
    intros Hp Ht. apply H2; [done|lia].
Qed.

(** A state with 250 of 200 records processed shows 100 percent. *)
Lemma completion_percentage_example :
  (getCompletionPercentage
     (set_session (set_counters new_ProgressState 250 250 0) active None None 200 4)
   == 100)%Q.
Proof.
  apply (completion_percentage_is_capped
           (set_session (set_counters new_ProgressState 250 250 0) active None None 200 4)).
  - simpl. lia.
  - simpl. lia.
Defined.

End ProgressSummaryFacts.

(* ================================================================== *)
(** * Properties of the semaphore *)

Module PoolFacts.
Import Pool.

Lemma without_absent who l : ~ In who l -> without who l = l.
Proof.
  induction l as [|x l IH]; intros Hn; [done|].
  simpl. destruct (Nat.eqb_spec x who) as [->|Hx].
  - exfalso. apply Hn. by left.
  - simpl. f_equal. apply IH. intros Hin. apply Hn. by right.
Qed.

Lemma without_length who l :
  NoDup l -> In who l -> S (length (without who l)) = length l.
Proof.
  induction 1 as [|x l Hx Hnd IH]; intros Hin; [done|].
  simpl. destruct (Nat.eqb_spec x who) as [->|Hne]; simpl.
  - rewrite without_absent; [done|]. by rewrite <- list_elem_of_In.
  - destruct Hin as [->|Hin]; [done|]. by rewrite IH.
Qed.

Lemma without_In who l x : In x (without who l) <-> In x l /\ x <> who.
Proof.
  unfold without. rewrite List.filter_In, negb_true_iff, Nat.eqb_neq. tauto.
Qed.

Lemma without_NoDup who l : NoDup l -> NoDup (without who l).
Proof.
  induction 1 as [|x l Hx Hnd IH]; [constructor|].
  simpl. destruct (Nat.eqb_spec x who); simpl; [done|].
  constructor; [|done]. rewrite list_elem_of_In, without_In.
  rewrite list_elem_of_In in Hx. tauto.
Qed.

Lemma step_balanced n op p :
  balanced n p ->
  match op with
  | Acquire who => ~ In who (running p) /\ ~ In who (waiting (sem p))
  | Release who => In who (running p)
  end ->
  balanced n (step op p).
Proof.
  intros (Hc & Hsum & Hfree & Hnd) Hop.
  destruct p as [[c w] r]. simpl in *.
  destruct op as [who|who]; simpl.
  - unfold acquire. simpl. destruct (Z.ltb_spec 0 c) as [Hpos|Hzero];
      unfold balanced; simpl.
    + destruct Hfree as [Hfree|Hfree]; [subst w|lia].
      rewrite length_app. simpl. split; [lia|]. split; [lia|]. split; [by left|].
      rewrite app_nil_r in *. apply NoDup_app. split; [done|]. split.
      * intros x Hx Hx'. apply list_elem_of_In in Hx.
        apply list_elem_of_In in Hx'. destruct Hx' as [<-|[]]. tauto.
      * apply NoDup_singleton.
    + split; [lia|]. split; [lia|]. split; [right; lia|].
      rewrite app_assoc. apply NoDup_app. split; [done|]. split.
      * intros x Hx Hx'. apply list_elem_of_In in Hx.
        apply list_elem_of_In in Hx'. destruct Hx' as [<-|[]].
        apply in_app_or in Hx. tauto.
      * apply NoDup_singleton.
  - unfold release. simpl.
    apply NoDup_app in Hnd as (Hr & Hrw & Hw).
    pose proof (without_length who r Hr Hop) as Hlen.
    destruct w as [|x w]; unfold balanced; simpl.
    + rewrite app_nil_r. split; [lia|]. split; [lia|]. split; [by left|].
      rewrite app_nil_r. by apply without_NoDup.
    + destruct Hfree as [Hfree|Hfree]; [done|]. subst c.
      rewrite length_app. simpl. split; [lia|]. split; [lia|]. split; [by right|].
      apply NoDup_cons in Hw as [Hx Hw].
      rewrite <- app_assoc. simpl.
      apply NoDup_app. split; [by apply without_NoDup|]. split.
      * intros y Hy Hy'. apply list_elem_of_In, without_In in Hy as [Hy _].
        apply (Hrw y); [by apply list_elem_of_In|done].
      * by constructor.
Qed.

Lemma steps_balanced n ops : forall p,
  balanced n p -> well_bracketed p ops -> balanced n (steps p ops).
Proof.
  induction ops as [|op ops IH]; intros p Hb Hw; [done|].
  destruct Hw as [Hop Hw]. simpl. apply IH; [|done].
  by apply step_balanced.
Qed.

(** X5.  Around a semaphore of [n] permits, tasks that call [acquire()]
    once and [release()] once after their [acquire()] has resolved never
    run more than [n] at a time: the permits left and the tasks running
    always add up to [n], the count never goes below zero, nobody waits
    while a permit is left, and no task runs or waits twice. *)
Theorem semaphore_bounds_the_running_tasks :
  forall (n : Z) (ops : list Op),
    0 <= n -> well_bracketed (new_Tasks n) ops ->
    let p := steps (new_Tasks n) ops in
    balanced n p /\ Z.of_nat (length (running p)) <= n.
Proof.
  intros n ops Hn Hw. cbv zeta.
  assert (balanced n (steps (new_Tasks n) ops)) as Hb.
  { apply steps_balanced; [|done].
    unfold balanced. simpl. repeat split; try lia; [by left|constructor]. }
  split; [done|]. destruct Hb as (Hc & Hsum & _). lia.
Qed.

(** Three tasks around two permits: the third waits for the first
    release. *)
Lemma semaphore_three_tasks_two_permits :
  let p := steps (new_Tasks 2) [Acquire 1; Acquire 2; Acquire 3; Release 1]%nat in
  balanced 2 p /\ Z.of_nat (length (running p)) <= 2.
Proof.
  apply (semaphore_bounds_the_running_tasks 2
           [Acquire 1; Acquire 2; Acquire 3; Release 1]%nat).
  - lia.
  - simpl. intuition lia.
Defined.

Lemma steps_acquires_only : forall (whos : list nat) (p : Tasks),
  count (sem p) <= 0 ->
  running (steps p (map Acquire whos)) = running p /\
  waiting (sem (steps p (map Acquire whos))) = waiting (sem p) ++ whos /\
  count (sem (steps p (map Acquire whos))) = count (sem p).
Proof.
  induction whos as [|who whos IH]; intros p Hc.
  - simpl. by rewrite app_nil_r.
  - simpl. unfold acquire.
    destruct (Z.ltb_spec 0 (count (sem p))) as [?|_]; [lia|].
    destruct (IH {| sem := {| count := count (sem p);
                              waiting := waiting (sem p) ++ [who] |};
                    running := running p |}) as (H1 & H2 & H3); [done|].
    simpl in *. rewrite H1, H2, H3. by rewrite <- app_assoc.
Qed.

(** X6.  A semaphore built with no permit (a concurrency of zero or
    less) never lets a task through: whatever tasks call [acquire()], all
    of them wait and none runs. *)
Theorem semaphore_without_permits_blocks_everyone :
  forall (n : Z) (whos : list nat),
    n <= 0 ->
    let p := steps (new_Tasks n) (map Acquire whos) in
    running p = [] /\ waiting (sem p) = whos.
Proof.
  intros n whos Hn. cbv zeta.
  destruct (steps_acquires_only whos (new_Tasks n)) as (H1 & H2 & _); [done|].
  by rewrite H1, H2.
Qed.

Lemma semaphore_zero_permits_example :
  let p := steps (new_Tasks 0) (map Acquire [1; 2; 3]%nat) in
  running p = [] /\ waiting (sem p) = [1; 2; 3]%nat.
Proof.
  apply (semaphore_without_permits_blocks_everyone 0 [1; 2; 3]%nat). lia.
Defined.

End PoolFacts.

(* ================================================================== *)
(** * More properties of the retry loop and of the batch *)

Module RetryFacts.
Import Errors Commands Retries.

Lemma execute_rejected c e :
  subscribeUser c (S (attempts c)) = Rejected e ->
  execute c =
  let c' := {| commandId := commandId c; attempts := S (attempts c);
               maxRetries := maxRetries c; lastError := Some e;
               subscribeUser := subscribeUser c |} in
  ({| success := false; data := None; error := Some e;
      meta_attempts := S (attempts c); meta_canRetry := Some (canRetry c') |}, c').
Proof. unfold execute. by intros ->. Qed.

Lemma execute_resolved c d :
  subscribeUser c (S (attempts c)) = Resolved d ->
  execute c =
  ({| success := true; data := Some d; error := None;
      meta_attempts := S (attempts c); meta_canRetry := None |},
   {| commandId := commandId c; attempts := S (attempts c); maxRetries := maxRetries c;
      lastError := lastError c; subscribeUser := subscribeUser c |}).
Proof. unfold execute. by intros ->. Qed.

(** [k] retryable failures below the limit, then whatever the loop does
    from there. *)
Lemma retryLoop_failedTries k : forall fuel err c,
  rejected_for k err c -> (attempts c + k < maxRetries c)%nat ->
  retryLoop (k + fuel) true c =
  match retryLoop fuel true
          {| commandId := commandId c; attempts := attempts c + k;
             maxRetries := maxRetries c;
             lastError := match k with
                          | O => lastError c
                          | S _ => Some (err (attempts c + k)%nat)
                          end;
             subscribeUser := subscribeUser c |} with
  | Some (r, c', log) => Some (r, c', failedTries (commandId c) err (attempts c) k ++ log)
  | None => None
  end.
Proof.
  induction k as [|k IH]; intros fuel err c Hrej Hlt.
  - simpl. rewrite Nat.add_0_r. destruct c; simpl.
    by destruct (retryLoop _ _ _) as [[[? ?] ?]|].
  - destruct (Hrej (S (attempts c))) as [Hans Hretry]; [lia|].
    change (S k + fuel)%nat with (S (k + fuel)).
    cbn [retryLoop]. rewrite (execute_rejected c _ Hans). cbv zeta.
    cbn [success negb andb attempts lastError commandId subscribeUser].
    unfold canRetry at 1. cbn [attempts maxRetries lastError].
    rewrite Hretry, andb_true_r.
    destruct (Nat.ltb_spec (S (attempts c)) (maxRetries c)) as [_|?]; [|lia].
    cbn [andb].
    set (c1 := {| commandId := commandId c; attempts := S (attempts c);
                  maxRetries := maxRetries c; lastError := Some (err (S (attempts c)));
                  subscribeUser := subscribeUser c |}).
    rewrite (IH fuel err c1).
    + cbn [c1 commandId attempts maxRetries lastError subscribeUser].
      replace (S (attempts c) + k)%nat with (attempts c + S k)%nat by lia.
      assert (match k with
              | O => Some (err (S (attempts c)))
              | S _ => Some (err (attempts c + S k)%nat)
              end = Some (err (attempts c + S k)%nat)) as ->.
      { destruct k; [|done]. do 2 f_equal. lia. }
      destruct (retryLoop fuel true _) as [[[r c'] log]|]; [|done].
      by rewrite Hans.
    + intros n Hn. apply Hrej. simpl in Hn. lia.
    + simpl. lia.
Qed.

Lemma tries_failedTries id err k : forall a log,
  tries (failedTries id err a k ++ log) = (k + tries log)%nat.
Proof.
  unfold tries. induction k as [|k IH]; intros a log; [done|].
  simpl. by rewrite IH.
Qed.

(** X7.  A new try is made only while the attempts are below
    [maxRetries]: a command whose API rejects the first [k] calls with
    retryable errors and resolves the next one succeeds on call [k + 1]
    when [k + 1 <= maxRetries], with one sleep of the classified delay
    after each failed try and nothing else in the log. *)
Theorem succeeds_on_the_first_resolved_try :
  forall (k : nat) (err : nat -> AppError) (d : string) (c : Command),
    rejected_for k err c ->
    subscribeUser c (attempts c + S k) = Resolved d ->
    (attempts c + k < maxRetries c)%nat ->
    exists c',
      CommandExecutor_execute c =
        Some ({| success := true; data := Some d; error := None;
                 meta_attempts := attempts c + S k; meta_canRetry := None |},
              c',
              failedTries (commandId c) err (attempts c) k ++
              [Executed (commandId c) (attempts c + S k) (Resolved d)]) /\
      attempts c' = (attempts c + S k)%nat.
Proof.
  intros k err d c Hrej Hok Hlt.
  unfold CommandExecutor_execute.
  eexists. split.
  - apply (CommandFacts.retryLoop_more_fuel (k + 1)); [|unfold enough; lia].
    rewrite (retryLoop_failedTries k 1 err c Hrej Hlt).
    cbn [retryLoop].
    rewrite (execute_resolved _ d);
      cbn [attempts commandId subscribeUser maxRetries lastError success negb andb];
      replace (S (attempts c + k)) with (attempts c + S k)%nat by lia; [|done].
    rewrite Hok. reflexivity.
  - simpl. lia.
Qed.

(** X8.  [maxRetries] bounds the tries, not the retries: a command
    whose API rejects every call with a retryable error is tried exactly
    [maxRetries - attempts] times (once when that is zero), sleeps
    between the tries only, and ends in a failure that carries the last
    error and says it cannot be retried. *)
Theorem gives_up_after_maxRetries_tries :
  forall (err : nat -> AppError) (c : Command),
    let k := Nat.max 1 (maxRetries c - attempts c) in
    rejected_for k err c ->
    exists c',
      CommandExecutor_execute c =
        Some ({| success := false; data := None;
                 error := Some (err (attempts c + k)%nat);
                 meta_attempts := attempts c + k; meta_canRetry := Some false |},
              c',
              failedTries (commandId c) err (attempts c) (k - 1) ++
              [Executed (commandId c) (attempts c + k)
                        (Rejected (err (attempts c + k)%nat))]) /\
      attempts c' = (attempts c + k)%nat /\
      tries (failedTries (commandId c) err (attempts c) (k - 1) ++
             [Executed (commandId c) (attempts c + k)
                       (Rejected (err (attempts c + k)%nat))]) = k.
Proof.
  intros err c k Hrej.
  assert (rejected_for (k - 1) err c) as Hrej'.
  { intros n Hn. apply Hrej. lia. }
  destruct (Hrej (attempts c + k)%nat) as [Hans Hretry]; [lia|].
  unfold CommandExecutor_execute.
  exists {| commandId := commandId c; attempts := attempts c + k;
            maxRetries := maxRetries c; lastError := Some (err (attempts c + k)%nat);
            subscribeUser := subscribeUser c |}.
  split; [|split].
  - apply (CommandFacts.retryLoop_more_fuel (k - 1 + 1)); [|unfold enough; lia].
    destruct (Nat.le_gt_cases k 1) as [Hone|Hmore].
    + assert (k = 1%nat) as Hk by lia. rewrite Hk in *.
      change (1 - 1 + 1)%nat with 1%nat. cbn [retryLoop Nat.sub failedTries app].
      replace (attempts c + 1)%nat with (S (attempts c)) in * by lia.
      rewrite (execute_rejected c _ Hans). cbv zeta.
      cbn [success negb andb attempts lastError commandId subscribeUser].
      unfold canRetry. cbn [attempts maxRetries lastError].
      destruct (Nat.ltb_spec (S (attempts c)) (maxRetries c)) as [?|_]; [lia|].
      cbn [andb]. rewrite Hans. reflexivity.
    + rewrite (retryLoop_failedTries (k - 1) 1 err c Hrej'); [|lia].
      cbn [retryLoop].
      rewrite (execute_rejected _ (err (attempts c + k)%nat));
        cbn [attempts commandId subscribeUser maxRetries lastError success negb andb];
        replace (S (attempts c + (k - 1))) with (attempts c + k)%nat by lia; [|done].
      unfold canRetry. cbn [attempts maxRetries lastError].
      destruct (Nat.ltb_spec (attempts c + k) (maxRetries c)) as [?|_]; [lia|].
      cbn [andb]. rewrite Hans. reflexivity.
  - simpl. lia.
  - rewrite tries_failedTries. unfold tries. simpl. lia.
Qed.

(** A new command whose API always times out is tried three times. *)
Lemma gives_up_after_three_timeouts :
  exists c',
    CommandExecutor_execute (new_SubscribeUserCommand "op" (always (Rejected TimeoutError))) =
      Some ({| success := false; data := None; error := Some TimeoutError;
               meta_attempts := 3; meta_canRetry := Some false |},
            c',
            failedTries "op" (fun _ => TimeoutError) 0 2 ++
            [Executed "op" 3 (Rejected TimeoutError)]) /\
    attempts c' = 3%nat /\
    tries (failedTries "op" (fun _ => TimeoutError) 0 2 ++
           [Executed "op" 3 (Rejected TimeoutError)]) = 3%nat.
Proof.
  apply (gives_up_after_maxRetries_tries (fun _ => TimeoutError)
           (new_SubscribeUserCommand "op" (always (Rejected TimeoutError)))).
  intros n _. split; reflexivity.
Defined.

(** A command that resolves on its third call. *)
Lemma succeeds_on_the_third_try :
  exists c',
    CommandExecutor_execute
      (new_SubscribeUserCommand "op"
         (fun n => if (n <? 3)%nat then Rejected NetworkError else Resolved "ok")) =
      Some ({| success := true; data := Some "ok"; error := None;
               meta_attempts := 3; meta_canRetry := None |},
            c',
            failedTries "op" (fun _ => NetworkError) 0 2 ++
            [Executed "op" 3 (Resolved "ok")]) /\
    attempts c' = 3%nat.
Proof.
  apply (succeeds_on_the_first_resolved_try 2 (fun _ => NetworkError) "ok"
           (new_SubscribeUserCommand "op"
              (fun n => if (n <? 3)%nat then Rejected NetworkError else Resolved "ok"))).
  - intros n Hn. simpl in Hn. simpl.
    destruct (Nat.ltb_spec n 3) as [_|?]; [split; reflexivity|lia].
  - reflexivity.
  - simpl. lia.
Defined.

Lemma processSequentially_all opts : forall commands,
  failFast opts = false ->
  processSequentially opts commands =
  Some (omap (finalResult (retryFailedCommands opts)) commands,
        omap (finalCommand (retryFailedCommands opts)) commands,
        flat_map (finalLog (retryFailedCommands opts)) commands).
Proof.
  intros commands Hff. induction commands as [|c commands IH]; [done|].
  destruct (CommandFacts.run_alone (retryFailedCommands opts) c)
    as (r & c' & log & Hrun & Hr & Hc' & Hlog & _).
  unfold omap in *. simpl. rewrite Hrun, Hff, IH, Hr, Hc', Hlog. done.
Qed.

Lemma runTasks_all opts : forall commands,
  runTasks opts commands =
  Some (omap (finalResult (retryFailedCommands opts)) commands,
        omap (finalCommand (retryFailedCommands opts)) commands,
        flat_map (finalLog (retryFailedCommands opts)) commands).
Proof.
  intros commands. induction commands as [|c commands IH]; [done|].
  destruct (CommandFacts.run_alone (retryFailedCommands opts) c)
    as (r & c' & log & Hrun & Hr & Hc' & Hlog & _).
  unfold omap in *. simpl. rewrite Hrun, IH, Hr, Hc', Hlog. done.
Qed.

Lemma processConcurrently_all opts commands :
  (0 < concurrency opts)%nat ->
  processConcurrently opts commands =
  Some (omap (finalResult (retryFailedCommands opts)) commands,
        omap (finalCommand (retryFailedCommands opts)) commands,
        flat_map (finalLog (retryFailedCommands opts)) commands).
Proof.
  intros Hpermit. unfold processConcurrently.
  destruct (concurrency opts); [lia|]. apply runTasks_all.
Qed.

(** Without a permit a concurrent batch of at least one command never
    settles. *)
Lemma processConcurrently_without_permit opts command rest :
  concurrency opts = 0%nat -> processConcurrently opts (command :: rest) = None.
Proof. intros H. unfold processConcurrently. by rewrite H. Qed.

Lemma omap_finalResult retry commands :
  map Some (omap (finalResult retry) commands) = map (finalResult retry) commands.
Proof.
  induction commands as [|c commands IH]; [done|].
  destruct (CommandFacts.run_alone retry c) as (r & c' & log & _ & Hr & _).
  unfold omap in *. simpl. rewrite Hr. simpl. by rewrite IH.
Qed.

Lemma filter_length_le {A} (f : A -> bool) (l : list A) :
  (length (List.filter f l) <= length l)%nat.
Proof. induction l as [|x l IH]; simpl; [lia|]. destruct (f x); simpl; lia. Qed.

(** X9.  With at least one permit, a batch run without fail-fast, or
    run concurrently whatever the fail-fast option says, takes every
    command to its final result: it returns one result for each command,
    in input order, failures included; and
    [BatchProcessCommand.execute()] itself reports success, with counts
    of successful and failed commands that add up to the number of
    commands. *)
Theorem batch_without_failFast_runs_every_command :
  forall (opts : BatchOptions) (commands : list Command),
    (0 < concurrency opts)%nat ->
    failFast opts = false \/ (1 < concurrency opts)%nat ->
    exists results commands' stats,
      processBatch opts commands =
        Some (results, commands',
              flat_map (finalLog (retryFailedCommands opts)) commands) /\
      map Some results = map (finalResult (retryFailedCommands opts)) commands /\
      length results = length commands /\
      BatchProcessCommand_execute opts commands = Some (true, results, stats) /\
      total stats = length commands /\
      (successful stats + failed stats)%nat = length commands.
Proof.
  intros opts commands Hpermit Hmode.
  set (retry := retryFailedCommands opts).
  assert (processBatch opts commands =
          Some (omap (finalResult retry) commands, omap (finalCommand retry) commands,
                flat_map (finalLog retry) commands)) as Hrun.
  { unfold processBatch. destruct (Nat.eqb_spec (concurrency opts) 1) as [Hone|Hmany].
    - destruct Hmode as [Hff|?]; [|lia]. by apply processSequentially_all.
    - by apply processConcurrently_all. }
  assert (length (omap (finalResult retry) commands) = length commands) as Hlen.
  { by rewrite <- (length_map Some), omap_finalResult, length_map. }
  eexists _, _, _. split; [exact Hrun|].
  split; [apply omap_finalResult|]. split; [exact Hlen|].
  unfold BatchProcessCommand_execute. rewrite Hrun.
  split; [reflexivity|]. cbn [total successful failed]. split; [exact Hlen|].
  rewrite Hlen.
  pose proof (filter_length_le success (omap (finalResult retry) commands)). lia.
Qed.

(** Three commands run two at a time with fail-fast set: the failure of
    the first stops nothing. *)
Lemma concurrent_batch_ignores_failFast :
  exists results commands' stats,
    processBatch {| concurrency := 2; failFast := true; retryFailedCommands := true |}
                 [scenario_bad; scenario_ok "op1"; scenario_ok "op2"] =
      Some (results, commands',
            flat_map (finalLog true) [scenario_bad; scenario_ok "op1"; scenario_ok "op2"]) /\
    map Some results =
      map (finalResult true) [scenario_bad; scenario_ok "op1"; scenario_ok "op2"] /\
    length results = 3%nat /\
    BatchProcessCommand_execute
      {| concurrency := 2; failFast := true; retryFailedCommands := true |}
      [scenario_bad; scenario_ok "op1"; scenario_ok "op2"] = Some (true, results, stats) /\
    total stats = 3%nat /\
    (successful stats + failed stats)%nat = 3%nat.
Proof.
  apply (batch_without_failFast_runs_every_command
           {| concurrency := 2; failFast := true; retryFailedCommands := true |}
           [scenario_bad; scenario_ok "op1"; scenario_ok "op2"]).
  - simpl. lia.
  - right. simpl. lia.
Defined.

End RetryFacts.

(* ================================================================== *)
(** * Properties of the HTTP client *)

Module HttpFacts.
Import Errors Http.

(** ** Backoff *)

(** X10.  For a random value in [0, 1), a base delay and an attempt
    number that are not negative, the backoff delay is at least the base
    delay doubled [attempt] times and exceeds it by at most a tenth. *)
Theorem backoff_delay_bounds :
  forall (rnd : Q) (attempt baseDelay : Z),
    (0 <= rnd)%Q -> (rnd < 1)%Q -> 0 <= attempt -> 0 <= baseDelay ->
    baseDelay * 2 ^ attempt <= calculateBackoffDelay rnd attempt baseDelay /\
    10 * calculateBackoffDelay rnd attempt baseDelay <= 11 * (baseDelay * 2 ^ attempt).
Proof.
  intros rnd attempt baseDelay Hr0 Hr1 Ha Hb.
  unfold calculateBackoffDelay. cbv zeta.
  set (e := baseDelay * 2 ^ attempt).
  assert (0 <= e) as He by (unfold e; apply Z.mul_nonneg_nonneg; [lia|apply Z.pow_nonneg; lia]).
  assert (inject_Z baseDelay * inject_Z (2 ^ attempt) == inject_Z e)%Q as Hq.
  { unfold e. by rewrite inject_Z_mult. }
  set (x := (inject_Z baseDelay * inject_Z (2 ^ attempt) +
             rnd * (1 # 10) * (inject_Z baseDelay * inject_Z (2 ^ attempt)))%Q).
  assert (0 <= inject_Z e)%Q as He' by (rewrite <- (Zle_Qle 0); lia).
  assert (inject_Z e <= x)%Q as Hlo.
  { unfold x. rewrite Hq. set (q := inject_Z e) in *. clearbody q. nra. }
  assert (x <= inject_Z e * (11 # 10))%Q as Hhi.
  { unfold x. rewrite Hq. set (q := inject_Z e) in *. clearbody q. nra. }
  split.
  - rewrite <- (Qfloor_Z e). by apply Qfloor_resp_le.
  - pose proof (Qfloor_le x) as Hf.
    assert (inject_Z (10 * Qfloor x) <= inject_Z (11 * e))%Q as H.
    { rewrite !inject_Z_mult. set (q := inject_Z e) in *. set (f := inject_Z (Qfloor x)) in *.
      clearbody q f. change (inject_Z 10) with (10 # 1). change (inject_Z 11) with (11 # 1).
      lra. }
    by rewrite <- Zle_Qle in H.
Qed.

Lemma backoff_delay_example :
  1000 * 2 ^ 2 <= calculateBackoffDelay (1 # 2) 2 1000 /\
  10 * calculateBackoffDelay (1 # 2) 2 1000 <= 11 * (1000 * 2 ^ 2).
Proof.
  apply (backoff_delay_bounds (1 # 2) 2 1000).
  - vm_compute. discriminate.
  - reflexivity.
  - lia.
  - lia.
Defined.

(** ** The request loop *)


Lemma requestLoop_more_fuel fuel : forall fuel' config axios rnd attempts lastError res,
  requestLoop fuel config axios rnd attempts lastError = Some res -> (fuel <= fuel')%nat ->
  requestLoop fuel' config axios rnd attempts lastError = Some res.
Proof.
  induction fuel as [|fuel IH]; intros fuel' config axios rnd attempts lastError res H Hle;
    [done|].
  destruct fuel' as [|fuel']; [lia|].
  simpl in *. destruct (attempts <? retryAttempts config); [|done].
  destruct (axios (attempts + 1)) as [d|raw]; [done|].
  destruct (_ || _); [done|].
  destruct (requestLoop fuel _ _ _ _ _) as [res1|] eqn:Hrec; [|done].
  rewrite (IH fuel' _ _ _ _ _ res1 Hrec); [done|lia].
Qed.





(** A retryable error built by [convertError] brings its own delay. *)
Lemma converted_delay raw :
  isRetryableError (convertError raw) = true ->
  is_Some (getRetryDelay_method (convertError raw)).
Proof.
  unfold convertError, fromHttpResponse, fromNetworkError.
  destruct (raw_response raw) as [response|].
  - destruct (_ || _); [done|]. destruct (_ =? 429); by eexists.
  - intros _. destruct (raw_code raw) as [c|]; [|by eexists].
    repeat (destruct (String.eqb c _); [by eexists|]). by eexists.
Qed.

Lemma requestLoop_sleeps fuel : forall config axios rnd attempts0 lastError r log,
  requestLoop fuel config axios rnd attempts0 lastError = Some (r, log) ->
  forall pre n raw ms post,
    log = pre ++ Sent n (Failed raw) :: Slept ms :: post ->
    isRetryableError (convertError raw) = true /\
    getRetryDelay_method (convertError raw) = Some ms.
Proof.
  induction fuel as [|fuel IH]; intros config axios rnd attempts0 lastError r log H; [done|].
  simpl in H. destruct (attempts0 <? retryAttempts config).
  - destruct (axios (attempts0 + 1)) as [d|raw] eqn:Hax.
    + injection H as <- <-. intros pre n raw ms post Hlog.
      destruct pre as [|? pre]; [done|]. injection Hlog as _ Hlog. by destruct pre.
    + destruct ((retryAttempts config <=? attempts0 + 1) ||
                negb (isRetryableError (convertError raw))) eqn:Hstop.
      * injection H as <- <-. intros pre n raw' ms post Hlog.
        destruct pre as [|? pre]; [done|]. injection Hlog as _ Hlog. by destruct pre.
      * apply orb_false_iff in Hstop as [_ Hretry]. apply negb_false_iff in Hretry.
        destruct (requestLoop fuel _ _ _ _ _) as [[r1 log1]|] eqn:Hrec; [|done].
        injection H as <- <-. intros pre n raw' ms post Hlog.
        destruct pre as [|? pre].
        -- injection Hlog as _ -> <- _. split; [done|].
           unfold httpRetryDelay.
           by destruct (converted_delay raw' Hretry) as [ms' ->].
        -- injection Hlog as _ Hlog. destruct pre as [|? pre]; [done|].
           injection Hlog as _ Hlog. by eapply IH.
  - injection H as <- <-. intros pre n raw ms post Hlog. by destruct pre.
Qed.

(** X12.  [request()] never sleeps for the exponential backoff: every
    sleep follows a failure whose converted error is retryable and lasts
    the delay that error's class gives (2, 3 or 5 seconds, or the
    Retry-After of a 429), whatever [retryBaseDelay], the attempt number
    and the random jitter are. *)
Theorem request_sleeps_the_error_s_own_delay :
  forall (config : Config) (limiter limiter' : Limiter.RateLimiter) (clock : list Z)
         (axios : Z -> AxiosOutcome) (rnd : Z -> Q) (r : RequestResult)
         (log : list HttpEvent),
    request config limiter clock axios rnd = Some (r, limiter', log) ->
    forall pre n raw ms post,
      log = pre ++ Sent n (Failed raw) :: Slept ms :: post ->
      isRetryableError (convertError raw) = true /\
      getRetryDelay_method (convertError raw) = Some ms /\
      In ms [2000; 3000; 5000;
             match raw_response raw with
             | Some {| retry_after := Some s |} => s * 1000
             | _ => 5000
             end].
Proof.
  intros config limiter limiter' clock axios rnd r log Hreq pre n raw ms post Hlog.
  unfold request in Hreq.
  destruct (Limiter.acquire clock limiter) as [[l ?]|]; [|done].
  destruct (requestLoop _ _ _ _ _ _) as [[r1 log1]|] eqn:Hloop; [|done].
  injection Hreq as <- <- <-.
  destruct (requestLoop_sleeps _ _ _ _ _ _ _ _ Hloop pre n raw ms post Hlog) as [Hretry Hms].
  split; [done|]. split; [done|].
  revert Hretry Hms. unfold convertError, fromHttpResponse, fromNetworkError.
  destruct (raw_response raw) as [[status [s|]]|]; simpl.
  - destruct (_ || _); [done|]. destruct (status =? 429) eqn:E; simpl.
    + intros _ [= <-]. tauto.
    + rewrite E. unfold isRetryableError. simpl. rewrite E. simpl.
      intros -> [= <-]. tauto.
  - destruct (_ || _); [done|]. destruct (status =? 429) eqn:E; simpl.
    + intros _ [= <-]. tauto.
    + rewrite E. unfold isRetryableError. simpl. rewrite E. simpl.
      intros -> [= <-]. tauto.
  - intros _. destruct (raw_code raw) as [c|]; simpl; [|intros [= <-]; tauto].
    repeat (destruct (String.eqb c _); simpl; [intros [= <-]; tauto|]).
    intros [= <-]; tauto.
Qed.

Lemma request_sleep_after_503 :
  isRetryableError (convertError {| raw_response := Some {| resp_status := 503;
                                                           retry_after := None |};
                                    raw_code := None |}) = true /\
  getRetryDelay_method (convertError {| raw_response := Some {| resp_status := 503;
                                                                retry_after := None |};
                                        raw_code := None |}) = Some 2000 /\
  In 2000 [2000; 3000; 5000; 5000].
Proof.
  apply (request_sleeps_the_error_s_own_delay
           (new_Config {| opt_retryAttempts := None; opt_retryBaseDelay := None;
                          opt_rateLimitRequestsPerSecond := None;
                          opt_rateLimitBurstSize := None |})
           (Limiter.new_RateLimiter 0 1 5)
           (snd (Limiter.tryAcquire 0 (Limiter.new_RateLimiter 0 1 5)))
           [0] two_calls (fun _ => 0%Q)
           {| success := true; data := Some "ok"; error := None; attempts := 2 |}
           [Sent 1 (two_calls 1); Slept 2000; Sent 2 (Responded "ok")]
           eq_refl [] 1
           {| raw_response := Some {| resp_status := 503; retry_after := None |};
              raw_code := None |}
           2000 [Sent 2 (Responded "ok")]).
  reflexivity.
Defined.

(** X13.  The options' own [retryAttempts] is what the client uses, zero
    included: the default of 3 stands in only for a missing key.  With a
    value of zero or less [request()] takes its token, sends nothing and
    returns a failure that carries no error and counts no attempt. *)
Theorem request_without_attempts_sends_nothing :
  forall (options : Options) (n : Z) (limiter limiter' : Limiter.RateLimiter)
         (clock : list Z) (sleeps : list Q) (axios : Z -> AxiosOutcome) (rnd : Z -> Q),
    opt_retryAttempts options = Some n -> n <= 0 ->
    Limiter.acquire clock limiter = Some (limiter', sleeps) ->
    retryAttempts (new_Config options) = n /\
    request (new_Config options) limiter clock axios rnd =
      Some ({| success := false; data := None; error := None; attempts := 0 |},
            limiter', []).
Proof.
  intros options n limiter limiter' clock sleeps axios rnd Hopt Hn Hacq.
  assert (retryAttempts (new_Config options) = n) as Hcfg.
  { unfold new_Config. simpl. by rewrite Hopt. }
  split; [exact Hcfg|].
  unfold request. rewrite Hacq. unfold enough. cbn [requestLoop]. rewrite Hcfg.
  by destruct (Z.ltb_spec 0 n) as [?|_]; [lia|].
Qed.

Lemma request_with_zero_attempts :
  retryAttempts (new_Config {| opt_retryAttempts := Some 0; opt_retryBaseDelay := None;
                               opt_rateLimitRequestsPerSecond := None;
                               opt_rateLimitBurstSize := None |}) = 0 /\
  request (new_Config {| opt_retryAttempts := Some 0; opt_retryBaseDelay := None;
                         opt_rateLimitRequestsPerSecond := None;
                         opt_rateLimitBurstSize := None |})
          (Limiter.new_RateLimiter 0 1 5) [0] two_calls (fun _ => 0%Q) =
    Some ({| success := false; data := None; error := None; attempts := 0 |},
          snd (Limiter.tryAcquire 0 (Limiter.new_RateLimiter 0 1 5)), []).
Proof.
  apply (request_without_attempts_sends_nothing
           {| opt_retryAttempts := Some 0; opt_retryBaseDelay := None;
              opt_rateLimitRequestsPerSecond := None; opt_rateLimitBurstSize := None |}
           0 (Limiter.new_RateLimiter 0 1 5)
           (snd (Limiter.tryAcquire 0 (Limiter.new_RateLimiter 0 1 5)))
           [0] [] two_calls (fun _ => 0%Q)).
  - reflexivity.
  - lia.
  - reflexivity.
Defined.

(** ** The rate limiter as the client uses it *)

Lemma acquire_starved clock : forall r,
  (Limiter.maxTokens r < 1)%Q -> Limiter.acquire clock r = None.
Proof.
  induction clock as [|now later IH]; intros r Hmax; [done|].
  simpl. unfold Limiter.tryAcquire.
  destruct (Qle_bool 1 (Limiter.tokens (Limiter.refillTokens now r))) eqn:Hone.
  - apply Qle_bool_iff in Hone. simpl in Hone.
    pose proof (Q.le_min_l (Limiter.maxTokens r)
                  (Limiter.tokens r +
                   inject_Z (now - Limiter.lastRefill r) / 1000 * Limiter.refillRate r))
      as Hle.
    exfalso. apply (Qlt_irrefl 1).
    eapply Qle_lt_trans; [exact Hone|]. eapply Qle_lt_trans; [exact Hle|exact Hmax].
  - by rewrite (IH (Limiter.refillTokens now r)).
Qed.

(** X14.  A burst size below one starves the client: the options' own
    value is used (zero included, the default of 5 standing in only for a
    missing key), the bucket never holds a whole token, and [request()]
    has not got past [acquire()] after any number of passes, whatever the
    clock shows. *)
Theorem request_hangs_on_a_burst_size_below_one :
  forall (options : Options) (b : Q) (now : Z) (clock : list Z)
         (axios : Z -> AxiosOutcome) (rnd : Z -> Q),
    opt_rateLimitBurstSize options = Some b -> (b < 1)%Q ->
    rateLimitBurstSize (new_Config options) = b /\
    Limiter.acquire clock (new_limiter now (new_Config options)) = None /\
    request (new_Config options) (new_limiter now (new_Config options)) clock axios rnd
      = None.
Proof.
  intros options b now clock axios rnd Hopt Hb.
  assert (rateLimitBurstSize (new_Config options) = b) as Hcfg.
  { unfold new_Config. simpl. by rewrite Hopt. }
  assert (Limiter.acquire clock (new_limiter now (new_Config options)) = None) as Hacq.
  { apply acquire_starved. unfold new_limiter, Limiter.new_RateLimiter.
    cbn [Limiter.maxTokens]. by rewrite Hcfg. }
  split; [exact Hcfg|]. split; [exact Hacq|].
  unfold request. by rewrite Hacq.
Qed.

Lemma request_hangs_on_burst_size_zero :
  rateLimitBurstSize (new_Config {| opt_retryAttempts := None; opt_retryBaseDelay := None;
                                    opt_rateLimitRequestsPerSecond := None;
                                    opt_rateLimitBurstSize := Some 0%Q |}) = 0%Q /\
  Limiter.acquire [0; 1000; 2000]
    (new_limiter 0 (new_Config {| opt_retryAttempts := None; opt_retryBaseDelay := None;
                                  opt_rateLimitRequestsPerSecond := None;
                                  opt_rateLimitBurstSize := Some 0%Q |})) = None /\
  request (new_Config {| opt_retryAttempts := None; opt_retryBaseDelay := None;
                         opt_rateLimitRequestsPerSecond := None;
                         opt_rateLimitBurstSize := Some 0%Q |})
          (new_limiter 0 (new_Config {| opt_retryAttempts := None;
                                        opt_retryBaseDelay := None;
                                        opt_rateLimitRequestsPerSecond := None;
                                        opt_rateLimitBurstSize := Some 0%Q |}))
          [0; 1000; 2000] two_calls (fun _ => 0%Q) = None.
Proof.
  apply (request_hangs_on_a_burst_size_below_one
           {| opt_retryAttempts := None; opt_retryBaseDelay := None;
              opt_rateLimitRequestsPerSecond := None; opt_rateLimitBurstSize := Some 0%Q |}
           0%Q 0 [0; 1000; 2000] two_calls (fun _ => 0%Q)).
  - reflexivity.
  - reflexivity.
Defined.



(** ** Headers *)

Lemma sanitizeHeaders_lookup headers k :
  sanitizeHeaders headers !! k =
  if (String.eqb k "Authorization" || String.eqb k "authorization") && present (headers !! k)
  then Some mask else headers !! k.
Proof.
  unfold sanitizeHeaders.
  destruct (String.eqb_spec k "Authorization") as [->|H1];
    [|destruct (String.eqb_spec k "authorization") as [->|H2]]; simpl.
  - destruct (present (headers !! "Authorization")) eqn:HA.
    + rewrite lookup_insert_ne by done.
      destruct (present (headers !! "authorization"));
        [rewrite lookup_insert_ne by done|]; by rewrite lookup_insert_eq.
    + destruct (present (headers !! "authorization"));
        [by rewrite lookup_insert_ne|done].
  - destruct (present (headers !! "Authorization")).
    + rewrite lookup_insert_ne by done.
      destruct (present (headers !! "authorization")) eqn:Ha;
        [by rewrite lookup_insert_eq|by rewrite lookup_insert_ne].
    + destruct (present (headers !! "authorization")) eqn:Ha;
        [by rewrite lookup_insert_eq|done].
  - destruct (present (headers !! "Authorization")).
    + rewrite lookup_insert_ne by done.
      destruct (present (headers !! "authorization"));
        [rewrite lookup_insert_ne by done|]; by rewrite lookup_insert_ne.
    + destruct (present (headers !! "authorization")); [by rewrite lookup_insert_ne|done].
Qed.

(** X16.  [sanitizeHeaders] replaces the value of a non-empty
    [Authorization] or [authorization] header by the mask and leaves
    every other header as it is, keys in any other spelling included; it
    keeps the set of header names, and sanitizing twice changes nothing
    more. *)
Theorem sanitizeHeaders_masks_only_the_two_keys :
  forall headers : gmap string string,
    (forall k, k <> "Authorization" -> k <> "authorization" ->
               sanitizeHeaders headers !! k = headers !! k) /\
    (forall k, (k = "Authorization" \/ k = "authorization") ->
               sanitizeHeaders headers !! k =
               if present (headers !! k) then Some mask else headers !! k) /\
    (forall k, is_Some (sanitizeHeaders headers !! k) <-> is_Some (headers !! k)) /\
    sanitizeHeaders (sanitizeHeaders headers) = sanitizeHeaders headers.
Proof.
  intros headers. split; [|split; [|split]].
  - intros k H1 H2. rewrite sanitizeHeaders_lookup.
    apply String.eqb_neq in H1, H2. by rewrite H1, H2.
  - intros k Hk. rewrite sanitizeHeaders_lookup.
    destruct Hk as [->| ->]; simpl; done.
  - intros k. rewrite sanitizeHeaders_lookup.
    destruct (_ && _) eqn:Hm; [|done].
    apply andb_prop in Hm as [_ Hp]. unfold present in Hp.
    destruct (headers !! k); [|done]. split; by eexists.
  - apply map_eq. intros k. rewrite !sanitizeHeaders_lookup.
    destruct (String.eqb k "Authorization" || String.eqb k "authorization"); [|done].
    simpl. destruct (present (headers !! k)) eqn:Hp; [done|]. by rewrite Hp.
Qed.

End HttpFacts.

(* ================================================================== *)
(** * More properties of the deduplication service *)

Module DedupReportFacts.
Import Dedup DedupReport.

(** ** Statistics *)

Lemma processOne_counted clock base res svc t v :
  counted base res svc ->
  counted base (processOne clock (res, svc, t) v).1.1 (processOne clock (res, svc, t) v).1.2.
Proof.
  intros (Hu & Hd & Ht). unfold processOne. unfold keyErrors in Ht.
  destruct v as [x|sub].
  - unfold counted, keyErrors. simpl. rewrite List.filter_app. simpl.
    rewrite app_nil_r. done.
  - destruct (generateKey (strategy svc) sub) as [k|e] eqn:Hk.
    + destruct (blank k) eqn:Hb.
      * rewrite (DedupFacts.checkDuplicate_blank clock t svc sub k Hk Hb).
        unfold counted, keyErrors. simpl. rewrite ?length_app. simpl. lia.
      * destruct (seenRecords svc !! k) as [rec|] eqn:Hs.
        -- rewrite (DedupFacts.checkDuplicate_seen clock t svc sub k rec Hk Hb Hs).
           unfold counted, keyErrors. simpl. rewrite ?length_app. simpl. lia.
        -- rewrite (DedupFacts.checkDuplicate_fresh clock t svc sub k Hk Hb Hs).
           unfold counted, keyErrors. simpl. rewrite ?length_app. simpl. lia.
    + rewrite (DedupFacts.checkDuplicate_throws clock t svc sub e Hk).
      unfold counted, keyErrors. simpl. rewrite List.filter_app, ?length_app. simpl. lia.
Qed.

Lemma processLoop_counted clock base vs : forall res svc t,
  counted base res svc ->
  counted base (processLoop clock (res, svc, t) vs).1.1
               (processLoop clock (res, svc, t) vs).1.2.
Proof.
  induction vs as [|v vs IH]; intros res svc t H; [done|].
  rewrite DedupFacts.processLoop_cons.
  pose proof (processOne_counted clock base res svc t v H) as H1.
  destruct (processOne clock (res, svc, t) v) as [[res1 svc1] t1].
  by apply IH.
Qed.

(** X17.  After [processBatch] on a service that has been reset, the
    statistics agree with the batch result: [uniqueRecords] is the number
    of values filed as unique, [duplicateRecords] the number filed as
    duplicates, [duplicateGroups] the number of groups, and
    [totalRecords] counts, besides these, the subscribers whose key could
    not be computed; a value that is no [Subscriber] is counted
    nowhere. *)
Theorem statistics_agree_with_the_batch_result :
  forall (clock : Clock) (t : nat) (svc : DeduplicationService) (vs : list Value),
    let r := (processBatch clock t (reset svc) vs).1.1 in
    let svc' := (processBatch clock t (reset svc) vs).1.2 in
    uniqueRecords (statistics svc') = Z.of_nat (length (unique r)) /\
    duplicateRecords (statistics svc') = Z.of_nat (length (duplicates r)) /\
    totalRecords (statistics svc') =
      Z.of_nat (length (unique r) + length (duplicates r) + keyErrors r) /\
    duplicateGroupCount (statistics svc') = Z.of_nat (size (duplicateGroups svc')) /\
    (totalRecords (statistics svc') <= Z.of_nat (length vs)).
Proof.
  intros clock t svc vs. cbv zeta. unfold processBatch.
  pose proof (processLoop_counted clock zero_statistics vs empty_result (reset svc) t)
    as Hc.
  destruct (DedupFacts.processLoop_errors clock vs empty_result (reset svc) t)
    as (_ & _ & Hlen).
  destruct (processLoop clock (empty_result, reset svc, t) vs) as [[r svc'] t'] eqn:Hrun.
  destruct Hc as (Hu & Hd & Ht); [by unfold counted|].
  simpl in *. split; [lia|]. split; [lia|]. split; [lia|]. split; [done|].
  rewrite Ht.
  unfold classified in Hlen. unfold keyErrors.
  pose proof (RetryFacts.filter_length_le is_key_error (errors r)). lia.
Qed.

(** ** Groups *)

Lemma numbers_S n : numbers (S n) = numbers n ++ [Z.of_nat n + 2].
Proof. unfold numbers. by rewrite seq_S, map_app. Qed.

Lemma consistent_new st : consistent (new_DeduplicationService st).
Proof. intros k. unfold consistent_at. simpl. by rewrite !lookup_empty. Qed.

Lemma consistent_reset svc : consistent (reset svc).
Proof. intros k. unfold consistent_at. simpl. by rewrite !lookup_empty. Qed.

Lemma consistent_statistics svc st :
  consistent svc -> consistent (with_statistics svc st).
Proof. intros H k. exact (H k). Qed.

Lemma checkDuplicate_consistent clock t svc v :
  consistent svc -> consistent (checkDuplicate clock t svc v).1.2.
Proof.
  intros Hc. destruct v as [x|sub]; [done|].
  destruct (generateKey (strategy svc) sub) as [k|e] eqn:Hk.
  - destruct (blank k) eqn:Hb.
    + rewrite (DedupFacts.checkDuplicate_blank clock t svc sub k Hk Hb).
      by apply consistent_statistics.
    + pose proof (Hc k) as Hkk. unfold consistent_at in Hkk.
      destruct (seenRecords svc !! k) as [rec|] eqn:Hs.
      * rewrite (DedupFacts.checkDuplicate_seen clock t svc sub k rec Hk Hb Hs).
        intros k'. unfold consistent_at. cbn [fst snd seenRecords duplicateGroups].
        destruct (decide (k' = k)) as [->|Hne].
        -- rewrite !lookup_insert_eq. cbn [key count].
           destruct (duplicateGroups svc !! k) as [g|]; simpl.
           ++ destruct Hkk as (_ & _ & Hkey & Hcount & Hnum).
              split; [by destruct g|]. split; [done|]. split; [done|].
              rewrite length_app, map_app, Nat.add_1_r, numbers_S, Hnum. simpl.
              split; [lia|]. do 2 f_equal. lia.
           ++ destruct Hkk as (_ & Hkey & Hcount).
              split; [done|]. split; [done|]. split; [done|].
              split; [lia|]. rewrite Hcount. reflexivity.
        -- rewrite !lookup_insert_ne by done. exact (Hc k').
      * rewrite (DedupFacts.checkDuplicate_fresh clock t svc sub k Hk Hb Hs).
        intros k'. unfold consistent_at. cbn [fst snd seenRecords duplicateGroups].
        destruct (decide (k' = k)) as [->|Hne].
        -- rewrite lookup_insert_eq. destruct (duplicateGroups svc !! k); done.
        -- rewrite lookup_insert_ne by done. exact (Hc k').
  - rewrite (DedupFacts.checkDuplicate_throws clock t svc sub e Hk).
    by apply consistent_statistics.
Qed.

Lemma processLoop_consistent clock vs : forall res svc t,
  consistent svc -> consistent (processLoop clock (res, svc, t) vs).1.2.
Proof.
  induction vs as [|v vs IH]; intros res svc t Hc; [done|].
  rewrite DedupFacts.processLoop_cons.
  pose proof (checkDuplicate_consistent clock t svc v Hc) as H1.
  unfold processOne.
  destruct (checkDuplicate clock t svc v) as [[[dr|e] svc1] t1];
    [destruct (isDuplicate dr)|]; by apply IH.
Qed.

Lemma processBatch_consistent clock t svc vs :
  consistent svc -> consistent (processBatch clock t svc vs).1.2.
Proof.
  intros Hc. unfold processBatch.
  pose proof (processLoop_consistent clock vs empty_result svc t Hc) as H.
  destruct (processLoop clock (empty_result, svc, t) vs) as [[r svc'] t'].
  by apply consistent_statistics.
Qed.

(** X18.  Whatever batches a service has processed, its two maps tell
    one story.  A key with a duplicate group has its original in
    [seenRecords]: [getDuplicateGroup] returns the group with that
    original, a total count equal to the stored count (at least 2), and
    duplicates numbered 2, 3, ... in order of arrival.  For any other
    key it returns null, and a record stored under such a key has count
    1.  No blank key is ever stored. *)
Theorem duplicate_groups_match_the_seen_records :
  forall (clock : Clock) (st : option Strategy) (batches : list (list Value)) (k : string),
    let svc := processBatches clock (new_DeduplicationService st, 0%nat) batches in
    match getDuplicateGroup k svc.1 with
    | Some g =>
        hasDuplicates k svc.1 = true /\ blank k = false /\
        exists rec, seenRecords svc.1 !! k = Some rec /\
                    dg_originalRecord g = subscriber rec /\
                    dg_totalCount g = count rec /\ 2 <= count rec /\
                    map duplicateNumber (dg_duplicates g) =
                      numbers (length (dg_duplicates g))
    | None =>
        hasDuplicates k svc.1 = false /\
        forall rec, seenRecords svc.1 !! k = Some rec ->
                    count rec = 1 /\ blank k = false
    end.
Proof.
  intros clock st batches k. cbv zeta.
  set (run := processBatches _ _ batches).
  assert (consistent run.1) as Hc.
  { unfold run, processBatches. generalize 0%nat.
    generalize (consistent_new st). generalize (new_DeduplicationService st).
    induction batches as [|vs batches IH]; intros svc Hsvc t; [done|].
    simpl. pose proof (processBatch_consistent clock t svc vs Hsvc) as H.
    destruct (processBatch clock t svc vs) as [[r svc'] t']. by apply IH. }
  specialize (Hc k). unfold consistent_at in Hc.
  unfold getDuplicateGroup, hasDuplicates.
  destruct (duplicateGroups run.1 !! k) as [g|] eqn:Hg;
    destruct (seenRecords run.1 !! k) as [rec|] eqn:Hs; try done.
  - destruct Hc as (Hne & Hb & Hkey & Hcount & Hnum).
    split; [by apply bool_decide_eq_true_2|]. split; [done|].
    exists rec. simpl. split; [done|]. split; [done|]. split; [lia|].
    split; [|done]. destruct g; [done|]. simpl in Hcount. lia.
  - split; [apply bool_decide_eq_false_2; by intros [? ?]|].
    intros rec' [= <-]. by destruct Hc as (? & ? & ?).
Qed.

(** ** Keys of the composite strategies *)

Lemma trimStart_all_white s : trimStart s = EmptyString -> all_white s = true.
Proof.
  induction s as [|c r IH]; [done|]. simpl.
  destruct (is_white c); [exact IH|done].
Qed.

Lemma trimEnd_all_white s : trimEnd s = EmptyString -> all_white s = true.
Proof.
  induction s as [|c r IH]; [done|]. simpl.
  destruct (trimEnd r) as [|c' r'] eqn:Hr; [|done].
  destruct (is_white c); [|done]. intros _. by apply IH.
Qed.

Lemma trimStart_head s :
  trimStart s = EmptyString \/
  exists c r, trimStart s = String c r /\ is_white c = false.
Proof.
  induction s as [|c r IH]; [by left|]. simpl.
  destruct (is_white c) eqn:Hc; [exact IH|]. right. by exists c, r.
Qed.

Lemma trim_all_white s : trim s = EmptyString -> all_white s = true.
Proof.
  unfold trim. intros H. apply trimEnd_all_white in H.
  destruct (trimStart_head s) as [He|(c & r & He & Hc)].
  - by apply trimStart_all_white.
  - rewrite He in H. simpl in H. by rewrite Hc in H.
Qed.

Lemma all_white_app a b : all_white (a +:+ b) = all_white a && all_white b.
Proof.
  induction a as [|c a IH]; [done|]. simpl. by rewrite IH, andb_assoc.
Qed.

Lemma blank_all_white k : blank k = true -> all_white k = true.
Proof.
  unfold blank. intros H. apply orb_prop in H as [H|H]; apply String.eqb_eq in H.
  - by subst k.
  - by apply trim_all_white.
Qed.

Lemma composite_key_not_blank st s k :
  st <> EmailDeduplicationStrategy -> generateKey st s = Normal k -> blank k = false.
Proof.
  intros Hst Hk. destruct (blank k) eqn:Hb; [|done].
  apply blank_all_white in Hb. exfalso. revert Hk Hb.
  destruct st; [done| |]; simpl; unfold bind.
  - destruct (lowered "subscriber.email" (email s)) as [e|]; [|done].
    destruct (trimmed "subscriber.phoneNumber" (phoneNumber s)) as [p|]; [|done].
    intros [= <-]. rewrite !all_white_app. simpl. by rewrite andb_false_r.
  - destruct (lowered "subscriber.email" (email s)) as [e|]; [|done].
    destruct (trimmed "subscriber.phoneNumber" (phoneNumber s)) as [p|]; [|done].
    destruct (lowered "subscriber.firstName" (firstName s)) as [f|]; [|done].
    destruct (lowered "subscriber.lastName" (lastName s)) as [l|]; [|done].
    intros [= <-]. rewrite !all_white_app. simpl. by rewrite andb_false_r.
Qed.

(** X19.  Under the two composite strategies no key is blank, since it
    holds a separator: every subscriber whose key is computed is stored
    or merged into a group, a subscriber without email and phone
    included, and is reported as a duplicate exactly when its key was
    already stored. *)
Theorem composite_keys_are_never_blank :
  forall (clock : Clock) (t : nat) (svc : DeduplicationService) (sub : Subscriber)
         (k : string),
    strategy svc <> EmailDeduplicationStrategy ->
    generateKey (strategy svc) sub = Normal k ->
    blank k = false /\
    exists result svc' t',
      checkDuplicate clock t svc (IsSubscriber sub) = (Normal result, svc', t') /\
      isDuplicate result = bool_decide (is_Some (seenRecords svc !! k)) /\
      is_Some (seenRecords svc' !! k).
Proof.
  intros clock t svc sub k Hst Hk.
  pose proof (composite_key_not_blank _ _ _ Hst Hk) as Hb.
  split; [exact Hb|].
  destruct (seenRecords svc !! k) as [rec|] eqn:Hs.
  - rewrite (DedupFacts.checkDuplicate_seen clock t svc sub k rec Hk Hb Hs).
    eexists _, _, _. split; [reflexivity|]. simpl.
    rewrite lookup_insert_eq. split; [done|by eexists].
  - rewrite (DedupFacts.checkDuplicate_fresh clock t svc sub k Hk Hb Hs).
    eexists _, _, _. split; [reflexivity|]. simpl.
    rewrite lookup_insert_eq. split; [done|by eexists].
Qed.

(** Two subscribers with neither email nor phone, under the email and
    phone strategy: the second is a duplicate of the first. *)
Lemma second_record_without_email_and_phone :
  blank "|" = false /\
  exists result svc' t',
    checkDuplicate ticking 2
      (processBatch ticking 0 (new_DeduplicationService (Some EmailPhoneDeduplicationStrategy))
                    [IsSubscriber (no_email 1)]).1.2
      (IsSubscriber (no_email 2)) = (Normal result, svc', t') /\
    isDuplicate result =
      bool_decide (is_Some (seenRecords
        (processBatch ticking 0
           (new_DeduplicationService (Some EmailPhoneDeduplicationStrategy))
           [IsSubscriber (no_email 1)]).1.2 !! "|")) /\
    is_Some (seenRecords svc' !! "|").
Proof.
  apply (composite_keys_are_never_blank ticking 2
           (processBatch ticking 0
              (new_DeduplicationService (Some EmailPhoneDeduplicationStrategy))
              [IsSubscriber (no_email 1)]).1.2
           (no_email 2) "|").
  - discriminate.
  - reflexivity.
Defined.

(** ** Keys of the email strategy *)

Lemma is_white_lower c : is_white (lower_ascii c) = is_white c.
Proof. destruct c as [[|] [|] [|] [|] [|] [|] [|] [|]]; reflexivity. Qed.

Lemma toLowerCase_app a b : toLowerCase (a +:+ b) = toLowerCase a +:+ toLowerCase b.
Proof. induction a as [|c a IH]; [done|]. simpl. by rewrite IH. Qed.

Lemma all_white_lower s : all_white (toLowerCase s) = all_white s.
Proof. induction s as [|c s IH]; [done|]. simpl. by rewrite is_white_lower, IH. Qed.

Lemma trimStart_app x w :
  trimStart (x +:+ w) = if all_white x then trimStart w else trimStart x +:+ w.
Proof.
  induction x as [|c x IH]; [done|]. simpl.
  destruct (is_white c); [exact IH|done].
Qed.

Lemma trimEnd_white w : all_white w = true -> trimEnd w = EmptyString.
Proof.
  induction w as [|c w IH]; [done|]. simpl. intros H.
  apply andb_prop in H as [Hc Hw]. by rewrite (IH Hw), Hc.
Qed.

Lemma trimStart_white w : all_white w = true -> trimStart w = EmptyString.
Proof.
  induction w as [|c w IH]; [done|]. simpl. intros H.
  apply andb_prop in H as [Hc Hw]. by rewrite Hc, (IH Hw).
Qed.

Lemma trimEnd_pad x w : all_white w = true -> trimEnd (x +:+ w) = trimEnd x.
Proof.
  intros Hw. induction x as [|c x IH]; simpl; [by apply trimEnd_white|].
  by rewrite IH.
Qed.

Lemma trim_pad w1 x w2 :
  all_white w1 = true -> all_white w2 = true -> trim (w1 +:+ x +:+ w2) = trim x.
Proof.
  intros H1 H2. unfold trim. rewrite trimStart_app, H1, trimStart_app.
  destruct (all_white x) eqn:Hx.
  - by rewrite (trimStart_white w2 H2), (trimStart_white x Hx).
  - by apply trimEnd_pad.
Qed.

Lemma lowered_string path x :
  lowered path (JString x) = Normal (trim (toLowerCase x)).
Proof. unfold lowered. simpl. by destruct x. Qed.

(** X20.  On ASCII text, the key of the email strategy does not see the
    case of the letters A to Z nor the white space (tab, line feed,
    vertical tab, form feed, carriage return, space) around the address:
    two subscribers whose ASCII emails differ only in these have the same
    key, so that, the key not being blank, the second is reported as a
    duplicate of the first.  Nothing is said of emails with other
    characters. *)
Theorem email_key_ignores_case_and_padding :
  forall (clock : Clock) (t : nat) (svc : DeduplicationService) (s s' : Subscriber)
         (e e' w1 w2 k : string),
    email s = JString e -> email s' = JString (w1 +:+ e' +:+ w2) ->
    ascii_text e = true -> ascii_text e' = true ->
    all_white w1 = true -> all_white w2 = true ->
    toLowerCase e' = toLowerCase e ->
    strategy svc = EmailDeduplicationStrategy ->
    generateKey EmailDeduplicationStrategy s = Normal k ->
    blank k = false -> seenRecords svc !! k = None ->
    generateKey EmailDeduplicationStrategy s' = Normal k /\
    exists r1 svc1 t1 r2 svc2 t2,
      checkDuplicate clock t svc (IsSubscriber s) = (Normal r1, svc1, t1) /\
      checkDuplicate clock t1 svc1 (IsSubscriber s') = (Normal r2, svc2, t2) /\
      isDuplicate r1 = false /\
      isDuplicate r2 = true /\ originalRecord r2 = Some s /\ duplicateCount r2 = 2.
Proof.
  intros clock t svc s s' e e' w1 w2 k He He' _ _ H1 H2 Hlow Hst Hk Hb Hfresh.
  assert (generateKey EmailDeduplicationStrategy s' = Normal k) as Hk'.
  { revert Hk. simpl. rewrite He, He', !lowered_string, !toLowerCase_app, Hlow.
    by rewrite trim_pad by (by rewrite all_white_lower). }
  split; [exact Hk'|].
  rewrite <- Hst in Hk, Hk'.
  rewrite (DedupFacts.checkDuplicate_fresh clock t svc s k Hk Hb Hfresh).
  eexists _, _, _.
  set (svc1 := {| strategy := strategy svc; seenRecords := _; duplicateGroups := _;
                  statistics := _ |}).
  assert (seenRecords svc1 !! k =
          Some {| subscriber := s; count := 1; firstSeen := clock t; key := k |}) as Hseen.
  { unfold svc1. simpl. by rewrite lookup_insert_eq. }
  rewrite (DedupFacts.checkDuplicate_seen clock (S (S t)) svc1 s' k _ Hk' Hb Hseen).
  eexists _, _, _. by repeat split.
Qed.

(** The two records of the specification's scenario that share an
    email. *)
Lemma ann_is_a_duplicate_of_Ann :
  generateKey EmailDeduplicationStrategy ten_second = Normal "ann@example.com" /\
  exists r1 svc1 t1 r2 svc2 t2,
    checkDuplicate ticking 0 (new_DeduplicationService None) (IsSubscriber ten_first) =
      (Normal r1, svc1, t1) /\
    checkDuplicate ticking t1 svc1 (IsSubscriber ten_second) = (Normal r2, svc2, t2) /\
    isDuplicate r1 = false /\
    isDuplicate r2 = true /\ originalRecord r2 = Some ten_first /\ duplicateCount r2 = 2.
Proof.
  apply (email_key_ignores_case_and_padding ticking 0 (new_DeduplicationService None)
           ten_first ten_second "Ann@Example.com" "ann@example.COM" " " " "
           "ann@example.com"); reflexivity.
Defined.

End DedupReportFacts.

(* ================================================================== *)
(** * Properties of the similarity of two strings *)

Module SimilarityFacts.
Import Similarity.

Lemma fillRow_bounded c2 (i : Z) : forall str1 above left j0,
  length above = S (length str1) ->
  bounded (i - 1) j0 above ->
  Z.abs (i - j0) <= left <= Z.max i j0 ->
  length (fillRow c2 str1 above left) = length str1 /\
  bounded i (j0 + 1) (fillRow c2 str1 above left).
Proof.
  induction str1 as [|c1 rest IH]; intros above left j0 Hlen Hab Hleft.
  - destruct above; simpl; (split; [done|]); by intros [|?] ?.
  - destruct above as [|diag [|up above]]; [done|done|].
    pose proof (Hab 0%nat diag eq_refl) as Hdiag.
    pose proof (Hab 1%nat up eq_refl) as Hup.
    cbn [fillRow].
    set (v := if Ascii.eqb c2 c1 then diag else Z.min (diag + 1) (Z.min (left + 1) (up + 1))).
    assert (Z.abs (i - (j0 + 1)) <= v <= Z.max i (j0 + 1)) as Hv.
    { unfold v. destruct (Ascii.eqb c2 c1); lia. }
    destruct (IH (up :: above) v (j0 + 1)) as [Hl Hb].
    + simpl in *. lia.
    + intros j w Hj. specialize (Hab (S j) w Hj). lia.
    + exact Hv.
    + split; [simpl; by rewrite Hl|].
      intros [|j] w Hj.
      * injection Hj as <-. lia.
      * specialize (Hb j w Hj). lia.
Qed.

Lemma firstRow_bounded str1 :
  length (firstRow str1) = S (length str1) /\ bounded 0 0 (firstRow str1).
Proof.
  unfold firstRow. split; [by rewrite length_map, length_seq|].
  intros j v Hj. rewrite list_lookup_fmap in Hj.
  destruct (seq 0 (S (length str1)) !! j) as [n|] eqn:Hn; [|done].
  apply lookup_seq in Hn as [-> _]. injection Hj as <-. lia.
Qed.

Lemma lastRow_bounded str1 str2 :
  (lastRow str1 str2).1 = Z.of_nat (length str2) /\
  length (lastRow str1 str2).2 = S (length str1) /\
  bounded (Z.of_nat (length str2)) 0 (lastRow str1 str2).2.
Proof.
  unfold lastRow.
  induction str2 as [|c2 str2 IH] using rev_ind.
  - destruct (firstRow_bounded str1) as [Hl Hb].
    cbn [fold_left fst snd length]. split; [done|]. split; [exact Hl|exact Hb].
  - rewrite fold_left_app. cbn [fold_left nextRow fst snd].
    destruct IH as (Hi & Hl & Hb).
    set (acc := fold_left (nextRow str1) str2 (0, firstRow str1)) in *.
    rewrite length_app, Nat.add_1_r, Nat2Z.inj_succ, <- Hi.
    destruct (fillRow_bounded c2 (acc.1 + 1) str1 acc.2 (acc.1 + 1) 0) as [Hl' Hb'].
    + exact Hl.
    + replace (acc.1 + 1 - 1) with acc.1 by lia. by rewrite Hi.
    + lia.
    + unfold Z.succ. split; [done|]. split; [simpl; by rewrite Hl'|].
      intros [|j] w Hj.
      * injection Hj as <-. lia.
      * specialize (Hb' j w Hj). lia.
Qed.

Lemma length_chars s : length (list_ascii_of_string s) = String.length s.
Proof. induction s as [|c s IH]; [done|]. simpl. by rewrite IH. Qed.

Lemma distance_between_lengths str1 str2 :
  Z.abs (len str1 - len str2) <= levenshteinDistance str1 str2 <=
  Z.max (len str1) (len str2).
Proof.
  unfold levenshteinDistance, len. cbv zeta.
  destruct (lastRow_bounded (list_ascii_of_string str1) (list_ascii_of_string str2))
    as (_ & Hl & Hb).
  rewrite !length_chars in *.
  destruct ((lastRow _ _).2 !! String.length str1) as [v|] eqn:Hv.
  - specialize (Hb _ _ Hv). simpl. lia.
  - apply lookup_ge_None in Hv. lia.
Qed.

(** X21.  The Levenshtein distance the matrix yields lies between the
    difference of the two lengths and the larger of them; against the
    empty string it is the length of the other string. *)
Theorem levenshteinDistance_bounds :
  forall str1 str2 : string,
    Z.abs (len str1 - len str2) <= levenshteinDistance str1 str2 <=
      Z.max (len str1) (len str2) /\
    levenshteinDistance str1 "" = len str1 /\
    levenshteinDistance "" str2 = len str2.
Proof.
  intros str1 str2. split; [apply distance_between_lengths|]. split.
  - pose proof (distance_between_lengths str1 "") as H1. unfold len in *. simpl in H1. lia.
  - pose proof (distance_between_lengths "" str2) as H2. unfold len in *. simpl in H2. lia.
Qed.

(** X22.  The similarity of two strings is a number between 0 and 1:
    0 when one of them is empty, 1 when they are equal, and otherwise at
    most the ratio of the shorter length to the longer. *)
Theorem calculateSimilarity_range :
  forall str1 str2 : string,
    (0 <= calculateSimilarity str1 str2 <= 1)%Q /\
    (str1 = "" \/ str2 = "" -> calculateSimilarity str1 str2 = 0%Q) /\
    (str1 <> "" -> calculateSimilarity str1 str1 = 1%Q) /\
    (str1 <> "" -> str2 <> "" -> str1 <> str2 ->
     (calculateSimilarity str1 str2 * inject_Z (Z.max (len str1) (len str2)) <=
      inject_Z (Z.min (len str1) (len str2)))%Q).
Proof.
  intros str1 str2.
  assert (forall s, s <> "" -> 0 < len s) as Hpos.
  { intros [|c s] Hs; [done|]. unfold len. simpl. lia. }
  unfold calculateSimilarity.
  destruct (String.eqb_spec str1 "") as [->|H1]; simpl.
  { split; [split; lra|]. split; [done|]. split; [done|]. done. }
  destruct (String.eqb_spec str2 "") as [->|H2]; simpl.
  { split; [split; lra|]. split; [done|]. rewrite String.eqb_refl.
    split; [done|]. done. }
  rewrite String.eqb_refl.
  destruct (String.eqb_spec str1 str2) as [->|Hne].
  { split; [split; lra|]. split; [intros [?|?]; done|]. split; done. }
  set (longer := if len str2 <? len str1 then str1 else str2).
  set (shorter := if len str2 <? len str1 then str2 else str1).
  assert (len longer = Z.max (len str1) (len str2) /\
          len shorter = Z.min (len str1) (len str2)) as [Hlong Hshort].
  { unfold longer, shorter. destruct (Z.ltb_spec (len str2) (len str1)); lia. }
  pose proof (Hpos str1 H1). pose proof (Hpos str2 H2).
  destruct (Z.eqb_spec (len longer) 0) as [?|_]; [lia|].
  destruct (distance_between_lengths longer shorter) as [Hlo Hhi].
  set (d := levenshteinDistance longer shorter) in *.
  assert (0 < inject_Z (len longer))%Q as HL.
  { rewrite <- (Zlt_Qlt 0). lia. }
  assert (0 <= inject_Z (len longer - d))%Q as Hnum0.
  { rewrite <- (Zle_Qle 0). lia. }
  assert (inject_Z (len longer - d) <= inject_Z (len longer))%Q as Hnum1.
  { rewrite <- Zle_Qle. lia. }
  assert (inject_Z (len longer - d) <= inject_Z (len shorter))%Q as Hnum2.
  { rewrite <- Zle_Qle. lia. }
  split; [split|].
  - apply Qle_shift_div_l; [done|]. by rewrite Qmult_0_l.
  - apply Qle_shift_div_r; [done|]. by rewrite Qmult_1_l.
  - split; [intros [?|?]; done|]. split; [done|].
    intros _ _ _. rewrite <- Hlong, <- Hshort.
    assert (inject_Z (len longer - d) / inject_Z (len longer) * inject_Z (len longer)
            == inject_Z (len longer - d))%Q as E.
    { field. lra. }
    by rewrite E.
Qed.

End SimilarityFacts.

(* ================================================================== *)
(** * Properties of the checkpoint store *)

Module StoreFacts.
Import Persistence Store.

Lemma endsWith_fileName s : endsWith (fileName s) ".json" = true.
Proof. unfold fileName. apply PersistenceFacts.endsWith_json. Qed.

(** ** Files *)

Lemma filter_all {A} (f : A -> bool) l :
  (forall x, In x l -> f x = true) -> List.filter f l = l.
Proof.
  induction l as [|x l IH]; intros H; [done|]. simpl.
  rewrite (H x) by (by left). f_equal. apply IH. intros y Hy. apply H. by right.
Qed.

Lemma filter_filter {A} (f g : A -> bool) l :
  List.filter g (List.filter f l) = List.filter (fun x => f x && g x) l.
Proof.
  induction l as [|x l IH]; [done|]. simpl.
  destruct (f x); simpl; [|done]. destruct (g x); by rewrite IH.
Qed.

Lemma filter_sublist {A} (f : A -> bool) l : sublist (List.filter f l) l.
Proof.
  induction l as [|x l IH]; simpl; [constructor|].
  destruct (f x); by constructor.
Qed.

Lemma filter_perm {A} (f : A -> bool) l1 l2 :
  Permutation l1 l2 -> Permutation (List.filter f l1) (List.filter f l2).
Proof.
  induction 1 as [|x l1 l2 _ IH|x y l|l1 l2 l3 _ IH1 _ IH2]; simpl.
  - done.
  - destruct (f x); [by constructor|done].
  - destruct (f x), (f y); try done. apply perm_swap.
  - by rewrite IH1.
Qed.

Lemma deleteCheckpoint_unlink files i :
  (deleteCheckpoint files i).2 = unlink files (fileName i).
Proof.
  unfold deleteCheckpoint, exists_file, unlink.
  destruct (existsb _ files) eqn:He; [done|]. simpl. symmetry.
  apply filter_all. intros f Hf. apply negb_true_iff.
  destruct (String.eqb f.1 (fileName i)) eqn:E; [|done].
  assert (existsb (fun f0 => String.eqb f0.1 (fileName i)) files = true) as Ht.
  { apply existsb_exists. by exists f. }
  congruence.
Qed.

(** The clean-up keeps the files that are not named after a checkpoint
    it deletes. *)
Lemma cleanup_filter max files :
  cleanupOldCheckpoints max files =
  List.filter (fun f => negb (named_after (toDelete max (listCheckpoints files)) f)) files.
Proof.
  unfold cleanupOldCheckpoints.
  generalize (toDelete max (listCheckpoints files)). intros D. revert files.
  induction D as [|d D IH]; intros files; simpl.
  - symmetry. by apply filter_all.
  - rewrite deleteCheckpoint_unlink, IH. unfold unlink. rewrite filter_filter.
    apply List.filter_ext. intros f. by rewrite negb_orb.
Qed.

Lemma listCheckpoints_filter D files :
  (forall f c, In (f, Json c) files -> f = fileName (id c)) ->
  listCheckpoints (List.filter (fun f => negb (named_after D f)) files) =
  List.filter (kept D) (listCheckpoints files).
Proof.
  induction files as [|[n x] files IH]; intros Hnames; [done|].
  assert (listCheckpoints (List.filter (fun f => negb (named_after D f)) files) =
          List.filter (kept D) (listCheckpoints files)) as IH'.
  { apply IH. intros f c Hin. apply Hnames. by right. }
  simpl. destruct (endsWith n ".json") eqn:Hjson.
  - destruct x as [|c].
    + destruct (negb (named_after D (n, Unreadable))); [|done].
      simpl. by rewrite Hjson.
    + assert (n = fileName (id c)) as -> by (apply Hnames; by left).
      simpl. unfold named_after at 1, kept at 1. simpl.
      destruct (negb (existsb _ D)); [|done].
      simpl. by rewrite Hjson, IH'.
  - destruct (negb (named_after D (n, x))); [|done].
    simpl. by rewrite Hjson.
Qed.

Lemma listCheckpoints_names files :
  tidy files -> NoDup (map (fun c => fileName (id c)) (listCheckpoints files)).
Proof.
  intros [Hnd Hnames]. induction files as [|[n x] files IH]; [constructor|].
  simpl in Hnd. apply NoDup_cons in Hnd as [Hn Hnd].
  assert (NoDup (map (fun c => fileName (id c)) (listCheckpoints files))) as IH'.
  { apply IH; [done|]. intros f c Hin. apply Hnames. by right. }
  simpl. destruct (endsWith n ".json") eqn:E; [destruct x as [|c]|]; try exact IH'.
  simpl. apply NoDup_cons. split; [|exact IH'].
  assert (n = fileName (id c)) as Hn' by (apply Hnames; by left).
  rewrite <- Hn'. intros Hin. apply Hn.
  apply list_elem_of_In, in_map_iff in Hin as (c' & Hc' & Hin).
  apply PersistenceFacts.listCheckpoints_In in Hin as (f & Hf & _).
  apply list_elem_of_In. rewrite <- Hc'.
  rewrite <- (Hnames f c') by (by right). by apply (in_map fst _ (f, Json c')).
Qed.

(** Dropping the elements named like the first [k] leaves the rest. *)
Lemma filter_kept_take (l : list ProgressCheckpoint) : forall k,
  NoDup (map (fun c => fileName (id c)) l) ->
  List.filter (kept (take k l)) l = drop k l.
Proof.
  induction l as [|x l IH]; intros k Hnd; [by destruct k|].
  simpl in Hnd. apply NoDup_cons in Hnd as [Hx Hnd].
  destruct k as [|k]; simpl.
  - f_equal. by apply filter_all.
  - unfold kept at 1. simpl. rewrite String.eqb_refl. simpl.
    rewrite <- (IH k Hnd). apply List.filter_ext_in. intros y Hy.
    unfold kept. simpl.
    destruct (String.eqb_spec (fileName (id y)) (fileName (id x))) as [E|_]; [|done].
    exfalso. apply Hx. rewrite <- E. apply list_elem_of_In.
    by apply (in_map (fun c => fileName (id c))).
Qed.

Lemma sortOldestFirst_perm l : Permutation (sortOldestFirst l) l.
Proof. apply PersistenceFacts.sortNewestFirst_perm. Qed.

Lemma sortOldestFirst_sorted l :
  StronglySorted (fun a b => timestamp a <= timestamp b) (sortOldestFirst l).
Proof.
  pose proof (PersistenceFacts.sortNewestFirst_sorted (fun c => - timestamp c) l) as H.
  unfold sortOldestFirst.
  induction H as [|x l' Hs IH Hall]; constructor; [done|].
  eapply Forall_impl; [exact Hall|]. intros y Hy. simpl in Hy. lia.
Qed.

(** What the clean-up leaves, up to the order of the files: the
    checkpoints after the first [length - maxCheckpoints], oldest
    first. *)
Lemma cleanup_listCheckpoints max files :
  tidy files ->
  Permutation
    (listCheckpoints (cleanupOldCheckpoints max files))
    (drop (Z.to_nat (Z.of_nat (length (listCheckpoints files)) - max))
          (sortOldestFirst (listCheckpoints files))).
Proof.
  intros Htidy. pose proof (listCheckpoints_names files Htidy) as Hnd.
  destruct Htidy as [_ Hnames].
  rewrite cleanup_filter, (listCheckpoints_filter _ files Hnames).
  set (L := listCheckpoints files) in *.
  unfold toDelete. destruct (Z.ltb_spec max (Z.of_nat (length L))) as [Hlt|Hge].
  - rewrite (filter_perm _ L (sortOldestFirst L)) by (symmetry; apply sortOldestFirst_perm).
    rewrite filter_kept_take; [done|].
    assert (Permutation (map (fun c => fileName (id c)) (sortOldestFirst L))
                        (map (fun c => fileName (id c)) L)) as Hp
      by apply Permutation_map, sortOldestFirst_perm.
    by rewrite Hp.
  - replace (Z.to_nat (Z.of_nat (length L) - max)) with 0%nat by lia.
    rewrite filter_all by done. simpl. symmetry. apply sortOldestFirst_perm.
Qed.

Lemma sorted_app_cross {A} (R : A -> A -> Prop) l1 l2 x y :
  StronglySorted R (l1 ++ l2) -> In x l1 -> In y l2 -> R x y.
Proof.
  induction l1 as [|z l1 IH]; intros Hs Hx Hy; [done|].
  simpl in Hs. apply StronglySorted_inv in Hs as [Hs Hall].
  destruct Hx as [->|Hx]; [|by apply IH].
  rewrite List.Forall_forall in Hall. apply Hall, in_or_app. by right.
Qed.

Lemma one_file_per_name (files : Files) f x y :
  NoDup (map fst files) -> In (f, x) files -> In (f, y) files -> x = y.
Proof.
  intros Hnd Hx Hy.
  pose proof (PersistenceFacts.readFile_In files f x Hnd Hx) as H1.
  pose proof (PersistenceFacts.readFile_In files f y Hnd Hy) as H2.
  congruence.
Qed.

Lemma listCheckpoints_file files c :
  tidy files -> In c (listCheckpoints files) -> In (fileName (id c), Json c) files.
Proof.
  intros [_ Hnames] Hc.
  apply PersistenceFacts.listCheckpoints_In in Hc as (f & Hf & _).
  by rewrite <- (Hnames f c Hf).
Qed.

Lemma cleanup_retention (max : Z) (files : Files) :
  tidy files -> 0 <= max ->
  let files' := cleanupOldCheckpoints max files in
  Z.of_nat (length (listCheckpoints files')) =
    Z.min (Z.of_nat (length (listCheckpoints files))) max /\
  (forall c, In c (listCheckpoints files') -> In c (listCheckpoints files)) /\
  (forall c d, In c (listCheckpoints files') ->
               In d (listCheckpoints files) -> ~ In d (listCheckpoints files') ->
               timestamp d <= timestamp c).
Proof.
  intros Htidy Hmax. cbv zeta.
  pose proof (cleanup_listCheckpoints max files Htidy) as Hperm.
  set (L := listCheckpoints files) in *.
  set (k := Z.to_nat (Z.of_nat (length L) - max)) in *.
  pose proof (sortOldestFirst_perm L) as Hsort.
  pose proof (sortOldestFirst_sorted L) as Hsorted.
  rewrite <- (take_drop k (sortOldestFirst L)) in Hsorted.
  split; [|split].
  - rewrite (Permutation_length Hperm), length_drop, (Permutation_length Hsort).
    unfold k. lia.
  - intros c Hc. apply (Permutation_in _ Hperm) in Hc.
    apply (Permutation_in _ Hsort).
    apply list_elem_of_In. apply list_elem_of_In in Hc.
    eapply elem_of_sublist; [exact Hc|apply sublist_drop].
  - intros c d Hc Hd Hnot.
    apply (Permutation_in _ Hperm) in Hc.
    apply (Permutation_in _ (Permutation_sym Hsort)) in Hd.
    rewrite <- (take_drop k (sortOldestFirst L)) in Hd.
    apply in_app_or in Hd as [Hd|Hd].
    + by apply (sorted_app_cross _ _ _ d c Hsorted).
    + exfalso. apply Hnot. by apply (Permutation_in _ (Permutation_sym Hperm)).
Qed.

(** X23.  In a session directory where every checkpoint sits in the
    file named after its id, the clean-up leaves at most [maxCheckpoints]
    checkpoints, and exactly that many when there were more; those left
    are among the ones that were there and no deleted checkpoint is newer
    than one that is kept.  No file is added, and a file that cannot be
    read is never deleted. *)
Theorem cleanup_keeps_the_newest_checkpoints :
  forall (max : Z) (files : Files),
    tidy files -> 0 <= max ->
    let files' := cleanupOldCheckpoints max files in
    Z.of_nat (length (listCheckpoints files')) =
      Z.min (Z.of_nat (length (listCheckpoints files))) max /\
    (forall c, In c (listCheckpoints files') -> In c (listCheckpoints files)) /\
    (forall c d, In c (listCheckpoints files') ->
                 In d (listCheckpoints files) -> ~ In d (listCheckpoints files') ->
                 timestamp d <= timestamp c) /\
    (forall f x, In (f, x) files' -> In (f, x) files) /\
    (forall f, In (f, Unreadable) files -> In (f, Unreadable) files').
Proof.
  intros max files Htidy Hmax. cbv zeta.
  destruct (cleanup_retention max files Htidy Hmax) as (Hlen & Hsub & Hord).
  split; [exact Hlen|]. split; [exact Hsub|]. split; [exact Hord|]. split.
  - intros f x Hin. rewrite cleanup_filter in Hin. by apply List.filter_In in Hin as [? _].
  - intros f Hin. rewrite cleanup_filter. apply List.filter_In. split; [done|].
    apply negb_true_iff. destruct (named_after _ _) eqn:Hn; [|done].
    apply existsb_exists in Hn as (d & Hd & Hname). simpl in Hname.
    apply String.eqb_eq in Hname. exfalso.
    assert (In d (listCheckpoints files)) as HdL.
    { unfold toDelete in Hd. destruct (max <? _); [|done].
      apply (Permutation_in _ (sortOldestFirst_perm (listCheckpoints files))).
      apply list_elem_of_In.
      apply list_elem_of_In in Hd. eapply elem_of_sublist; [exact Hd|apply sublist_take]. }
    pose proof (listCheckpoints_file files d Htidy HdL) as Hfile.
    rewrite <- Hname in Hfile. destruct Htidy as [Hnd _].
    by pose proof (one_file_per_name files f _ _ Hnd Hin Hfile).
Qed.

(** Two checkpoints and a stray file, one checkpoint allowed. *)
Lemma cleanup_sample_directory :
  let files' := cleanupOldCheckpoints 1 sample_files in
  Z.of_nat (length (listCheckpoints files')) =
    Z.min (Z.of_nat (length (listCheckpoints sample_files))) 1 /\
  (forall c, In c (listCheckpoints files') -> In c (listCheckpoints sample_files)) /\
  (forall c d, In c (listCheckpoints files') ->
               In d (listCheckpoints sample_files) -> ~ In d (listCheckpoints files') ->
               timestamp d <= timestamp c) /\
  (forall f x, In (f, x) files' -> In (f, x) sample_files) /\
  (forall f, In (f, Unreadable) sample_files -> In (f, Unreadable) files').
Proof.
  apply (cleanup_keeps_the_newest_checkpoints 1 sample_files).
  - split.
    + simpl. repeat (apply NoDup_cons; split; [compute_done|]). constructor.
    + simpl. intros f c [[= <- <-]|[[= <- <-]|[[=]|[]]]]; reflexivity.
  - lia.
Defined.

(** ** Saving *)

Lemma writeFile_In files n y f x :
  In (f, x) (writeFile files n y) -> (f, x) = (n, y) \/ In (f, x) files.
Proof.
  induction files as [|[n0 c0] files IH]; simpl.
  - intros [<-|[]]. by left.
  - destruct (String.eqb_spec n0 n) as [->|Hne]; simpl.
    + intros [<-|Hin]; [by left|]. right. by right.
    + intros [<-|Hin]; [right; by left|].
      destruct (IH Hin) as [?|?]; [by left|]. right. by right.
Qed.

Lemma writeFile_written files n y : In (n, y) (writeFile files n y).
Proof.
  induction files as [|[n0 c0] files IH]; simpl; [by left|].
  destruct (String.eqb_spec n0 n) as [->|Hne]; simpl; [by left|by right].
Qed.

Lemma writeFile_names files n y :
  NoDup (map fst files) -> NoDup (map fst (writeFile files n y)).
Proof.
  induction files as [|[n0 c0] files IH]; simpl; intros Hnd.
  - apply NoDup_singleton.
  - apply NoDup_cons in Hnd as [Hn0 Hnd].
    destruct (String.eqb_spec n0 n) as [->|Hne]; simpl.
    + by apply NoDup_cons.
    + apply NoDup_cons. split; [|by apply IH].
      intros Hin. apply list_elem_of_In, in_map_iff in Hin as ([f x] & Hf & Hin).
      simpl in Hf. subst f.
      apply writeFile_In in Hin as [[= ? ?]|Hin]; [done|].
      apply Hn0, list_elem_of_In. by apply (in_map fst _ (n0, x)).
Qed.

Lemma writeFile_listCheckpoints files n c :
  endsWith n ".json" = true ->
  exists l1 l2,
    listCheckpoints (writeFile files n (Json c)) = l1 ++ c :: l2 /\
    sublist (l1 ++ l2) (listCheckpoints files).
Proof.
  intros Hjson. induction files as [|[n0 x0] files (l1 & l2 & IH1 & IH2)]; simpl.
  - rewrite Hjson. by exists [], [].
  - destruct (String.eqb_spec n0 n) as [->|Hne]; simpl.
    + rewrite Hjson. exists [], (listCheckpoints files). split; [done|].
      simpl. destruct x0; [done|]. by constructor.
    + destruct (endsWith n0 ".json"); [destruct x0 as [|c0]|].
      * by exists l1, l2.
      * exists (c0 :: l1), l2. rewrite IH1. split; [done|]. simpl. by constructor.
      * by exists l1, l2.
Qed.

Lemma sublist_map {A B} (f : A -> B) l1 l2 :
  sublist l1 l2 -> sublist (map f l1) (map f l2).
Proof. induction 1; simpl; by constructor. Qed.

Lemma listCheckpoints_sublist files1 files2 :
  sublist files1 files2 -> sublist (listCheckpoints files1) (listCheckpoints files2).
Proof.
  induction 1 as [|[n x] l1 l2 _ IH|[n x] l1 l2 _ IH]; simpl.
  - constructor.
  - destruct (endsWith n ".json"); [destruct x|]; try done. by constructor.
  - destruct (endsWith n ".json"); [destruct x|]; try done. by constructor.
Qed.

Lemma saved_session_tidy sid files : saved_session sid files -> tidy files.
Proof.
  intros (_ & Hnd & _ & Hsaved). split; [done|].
  intros f c Hin. by destruct (Hsaved f c Hin) as (-> & _).
Qed.

(** A saved directory stays one when files are taken away. *)
Lemma saved_session_filter sid files (P : string * FileContent -> bool) :
  saved_session sid files -> saved_session sid (List.filter P files).
Proof.
  intros (Hsid & Hnd & Hts & Hsaved).
  pose proof (filter_sublist P files) as Hsub.
  split; [done|]. split; [|split].
  - eapply sublist_NoDup; [exact Hnd|]. by apply sublist_map.
  - eapply sublist_NoDup; [exact Hts|]. by apply sublist_map, listCheckpoints_sublist.
  - intros f c Hin. apply Hsaved. by apply List.filter_In in Hin as [? _].
Qed.

(** A saved directory stays one when a newer checkpoint of the session
    is written to the file named after its id. *)
Lemma saved_session_written sid files ck :
  saved_session sid files ->
  sessionId ck = Some sid -> state ck <> None ->
  (forall c, In c (listCheckpoints files) -> timestamp c < timestamp ck) ->
  let files1 := writeFile files (fileName (id ck)) (Json ck) in
  saved_session sid files1 /\
  In ck (listCheckpoints files1) /\
  (forall c, In c (listCheckpoints files1) -> c = ck \/ In c (listCheckpoints files)).
Proof.
  intros (Hsid & Hnd & Hts & Hsaved) Hck Hstate Hnew. cbv zeta.
  destruct (writeFile_listCheckpoints files (fileName (id ck)) ck (endsWith_fileName _))
    as (l1 & l2 & HL & Hsub).
  assert (forall c, In c (l1 ++ l2) -> In c (listCheckpoints files)) as Hold.
  { intros c Hc. apply list_elem_of_In. apply list_elem_of_In in Hc.
    by eapply elem_of_sublist. }
  split; [|split].
  - split; [done|]. split; [by apply writeFile_names|]. split.
    + rewrite HL, map_app. simpl.
      assert (NoDup (map timestamp (l1 ++ l2))) as Hnd12.
      { eapply sublist_NoDup; [exact Hts|]. by apply sublist_map. }
      rewrite map_app in Hnd12. apply NoDup_app in Hnd12 as (H1 & H12 & H2).
      assert (forall l, (forall c, In c l -> In c (l1 ++ l2)) ->
                        timestamp ck ∉ map timestamp l) as Hfresh.
      { intros l Hl Hin. apply list_elem_of_In, in_map_iff in Hin as (c & Hc & Hin).
        specialize (Hnew c (Hold c (Hl c Hin))). lia. }
      apply NoDup_app. split; [done|]. split.
      * intros t Ht Ht'. apply elem_of_cons in Ht' as [->|Ht']; [|by apply (H12 t)].
        apply (Hfresh l1); [|done]. intros c Hc. apply in_or_app. by left.
      * apply NoDup_cons. split; [|done].
        apply Hfresh. intros c Hc. apply in_or_app. by right.
    + intros f c Hin. apply writeFile_In in Hin as [[= -> ->]|Hin]; [done|].
      by apply Hsaved.
  - rewrite HL. apply in_or_app. right. by left.
  - intros c Hc. rewrite HL in Hc. apply in_app_or in Hc as [Hc|[->|Hc]].
    + right. apply Hold, in_or_app. by left.
    + by left.
    + right. apply Hold, in_or_app. by right.
Qed.

(** X24.  Saving and loading round-trip: in the directory of a session,
    filled by earlier saves, a checkpoint saved at a later clock reading
    with room for at least one checkpoint is the one
    [loadLatestCheckpoint] returns next, and the directory is again one
    that saves have filled. *)
Theorem saved_checkpoint_is_loaded_back :
  forall (max now : Z) (name sid : string) (p : Progress.ProgressState)
         (csv : option string) (batch record : Z) (files : Files),
    saved_session sid files ->
    Progress.sessionId p = Some sid ->
    (forall c, In c (listCheckpoints files) -> timestamp c < now) ->
    1 <= max ->
    let saved := saveCheckpoint max now name p csv batch record files in
    saved.1 = new_ProgressCheckpoint now name p csv batch record /\
    loadLatestCheckpoint saved.2 = Loaded saved.1 /\
    saved_session sid saved.2 /\
    Z.of_nat (length (listCheckpoints saved.2)) <= max.
Proof.
  intros max now name sid p csv batch record files Hsaved Hsid Hnew Hmax. cbv zeta.
  unfold saveCheckpoint. cbn [fst snd].
  set (ck := new_ProgressCheckpoint now name p csv batch record).
  destruct (saved_session_written sid files ck Hsaved Hsid) as (Hsaved1 & Hin1 & Hall1);
    [done|exact Hnew|].
  set (files1 := writeFile files (fileName (id ck)) (Json ck)) in *.
  pose proof (saved_session_tidy sid files1 Hsaved1) as Htidy1.
  assert (saved_session sid (cleanupOldCheckpoints max files1)) as Hsaved2.
  { rewrite cleanup_filter. by apply saved_session_filter. }
  destruct (cleanup_retention max files1 Htidy1) as (Hlen & Hsub & Hord);
    [lia|].
  assert (forall c, In c (listCheckpoints files1) -> timestamp c <= timestamp ck) as Hmaxts.
  { intros c Hc. destruct (Hall1 c Hc) as [->|Hold]; [lia|].
    specialize (Hnew c Hold). simpl. lia. }
  assert (In ck (listCheckpoints (cleanupOldCheckpoints max files1))) as Hkept.
  { destruct (listCheckpoints (cleanupOldCheckpoints max files1)) as [|c0 rest] eqn:HL.
    - simpl in Hlen. assert (length (listCheckpoints files1) = 0%nat) as Hz by lia.
      destruct (listCheckpoints files1); [done|simpl in Hz; lia].
    - destruct Hsaved1 as (_ & _ & Hts1 & _).
      destruct (In_dec Z.eq_dec (timestamp ck) (map timestamp (c0 :: rest)))
        as [Hyes|Hno].
      + apply in_map_iff in Hyes as (c & Hc & Hin).
        assert (c = ck) as <-; [|done].
        apply (PersistenceFacts.NoDup_stamp_inj timestamp (listCheckpoints files1));
          [done|by apply Hsub|done|done].
      + exfalso.
        assert (~ In ck (c0 :: rest)) as Hno'.
        { intros Hin. apply Hno. by apply in_map. }
        assert (In c0 (c0 :: rest)) as Hc0 by (by left).
        pose proof (Hord c0 ck Hc0 Hin1 Hno') as Hle.
        pose proof (Hmaxts c0 (Hsub c0 Hc0)) as Hge.
        assert (c0 = ck) as E.
        { apply (PersistenceFacts.NoDup_stamp_inj timestamp (listCheckpoints files1));
            [done|by apply Hsub|done|lia]. }
        apply Hno'. by rewrite <- E. }
  split; [done|]. split; [|split; [done|lia]].
  apply (PersistenceFacts.loadLatestCheckpoint_latest sid); [done|].
  split; [done|]. intros c Hc. by apply Hmaxts, Hsub.
Qed.

(** A third checkpoint saved in the sample directory. *)
Lemma saved_checkpoint_in_sample_directory :
  let saved := saveCheckpoint 10 3000 "checkpoint_3000" sample_state None 0 0 sample_files in
  saved.1 = new_ProgressCheckpoint 3000 "checkpoint_3000" sample_state None 0 0 /\
  loadLatestCheckpoint saved.2 = Loaded saved.1 /\
  saved_session "session_a" saved.2 /\
  Z.of_nat (length (listCheckpoints saved.2)) <= 10.
Proof.
  apply (saved_checkpoint_is_loaded_back 10 3000 "checkpoint_3000" "session_a"
           sample_state None 0 0 sample_files).
  - split; [discriminate|]. split; [compute_done|]. split; [compute_done|].
    intros f c Hf. simpl in Hf.
    destruct Hf as [Hf|[Hf|[Hf|[]]]]; [| |discriminate Hf];
      injection Hf as <- <-; repeat split; discriminate.
  - reflexivity.
  - simpl. intros c [<-|[<-|[]]]; simpl; lia.
  - lia.
Defined.

(** ** Deleting a session *)

(** X25.  [deleteSessionCheckpoints] removes every file whose name ends
    in [.json], readable or not, and nothing else; it reports the number
    of files removed, which is at least the number of checkpoints there
    were; no checkpoint is listed afterwards. *)
Theorem deleteSessionCheckpoints_removes_the_json_files :
  forall files : Files,
    let deleted := (deleteSessionCheckpoints files).1 in
    let files' := (deleteSessionCheckpoints files).2 in
    listCheckpoints files' = [] /\
    (forall f x, In (f, x) files' <-> In (f, x) files /\ endsWith f ".json" = false) /\
    deleted = Z.of_nat (length files) - Z.of_nat (length files') /\
    Z.of_nat (length (listCheckpoints files)) <= deleted.
Proof.
  intros files. cbv zeta. unfold deleteSessionCheckpoints. cbn [fst snd].
  split; [|split; [|split]].
  - induction files as [|[n x] files IH]; [done|]. simpl.
    destruct (endsWith n ".json") eqn:E; simpl; [done|]. by rewrite E.
  - intros f x. rewrite List.filter_In. simpl. by rewrite negb_true_iff.
  - induction files as [|[n x] files IH]; [done|]. simpl.
    destruct (endsWith n ".json"); simpl; lia.
  - induction files as [|[n x] files IH]; [done|]. simpl.
    destruct (endsWith n ".json"); [destruct x|]; simpl; lia.
Qed.

(** ** Sessions that have ended *)

Lemma status_update env e s :
  Progress.status (Progress.update env e s) =
  match e with
  | Progress.SESSION_COMPLETE ok => if ok then Progress.completed else Progress.failed
  | _ => Progress.status s
  end.
Proof.
  unfold Progress.update.
  destruct e as [| | |d|ok| | | | |[q|]|]; try reflexivity.
  - by destruct (negb (Qeq_bool d 0)).
  - unfold Progress.updatePerformanceMetrics.
    destruct ok; simpl; destruct (Progress.startTime s); try reflexivity;
      destruct (Qlt_bool 0 _); try reflexivity; by destruct (_ && _).
Qed.

Lemma terminal_call env c t :
  ProgressSummary.reports_progress c = true ->
  ProgressSummary.terminal (Progress.status (Progress.state t)) = true ->
  ProgressSummary.terminal (Progress.status (Progress.state (Progress.call env c t))) = true.
Proof.
  intros Hc Ht. destruct c; try done; simpl.
  - rewrite ProgressSummaryFacts.state_updateProgress, status_update.
    destruct e; try done. by destruct success.
  - destruct (Progress.updateInterval t); [|done].
    destruct (Progress.status (Progress.state t)) eqn:Est; try done; by rewrite Est.
Qed.

Lemma isValid_terminal now name p csv batch record :
  ProgressSummary.terminal (Progress.status p) = true ->
  isValid (new_ProgressCheckpoint now name p csv batch record) = false.
Proof.
  unfold isValid. simpl. destruct (Progress.sessionId p); [|done].
  destruct (Progress.status p); try done; simpl; by rewrite ?andb_false_r.
Qed.

(** X26.  Once a session has completed or failed, feeding its tracker
    further events or timer ticks never brings it back: after each such
    call the status is still completed or failed, the auto-save timer
    leaves the store as it is, and a checkpoint taken of the state is not
    valid for resuming. *)
Theorem ended_session_is_never_resumable :
  forall (cs : list (Progress.Env * Progress.TrackerCall)) (t : Progress.ProgressTracker),
    ProgressSummary.terminal (Progress.status (Progress.state t)) = true ->
    Forall (fun ec => ProgressSummary.reports_progress ec.2 = true) cs ->
    Forall (fun t' =>
              ProgressSummary.terminal (Progress.status (Progress.state t')) = true /\
              (forall max now name files, autoSave max now name t' files = files) /\
              (forall now name csv batch record,
                 isValid (new_ProgressCheckpoint now name (Progress.state t')
                                                 csv batch record) = false))
           (Progress.history t cs).
Proof.
  induction cs as [|[env c] cs IH]; intros t Ht Hcs; [constructor|].
  apply Forall_cons in Hcs as [Hc Hcs]. simpl in Hc. simpl.
  pose proof (terminal_call env c t Hc Ht) as Ht'.
  constructor; [|by apply IH].
  split; [done|]. split.
  - intros max now name files. unfold autoSave.
    by destruct (Progress.status (Progress.state (Progress.call env c t))).
  - intros now name csv batch record. by apply isValid_terminal.
Qed.

Lemma ended_tracker_is_never_resumable :
  Forall (fun t' =>
            ProgressSummary.terminal (Progress.status (Progress.state t')) = true /\
            (forall max now name files, autoSave max now name t' files = files) /\
            (forall now name csv batch record,
               isValid (new_ProgressCheckpoint now name (Progress.state t')
                                               csv batch record) = false))
         (Progress.history ended_tracker late_calls).
Proof.
  apply (ended_session_is_never_resumable late_calls ended_tracker).
  - reflexivity.
  - repeat constructor.
Defined.

End StoreFacts.

(* ================================================================== *)
(** * Properties of the import session and of batching *)

Module SessionFacts.
Import Session.

Lemma coherent_new opt : coherent (new_ImportSession opt).
Proof. unfold coherent. simpl. repeat split; try lia; done. Qed.

Lemma coherent_call c s : coherent s -> coherent (call c s).
Proof.
  unfold coherent.
  intros (H1 & H2 & H3 & H4 & H5 & H6 & H7 & H8 & H9 & H10 & H11 & H12 & H13 & H14 & H15).
  destruct c as [total|ok| | |r|r e|r reason|i|ph]; simpl;
    rewrite ?length_app; simpl length.
  - repeat split; try lia; try done; by apply H15.
  - repeat split; try lia; try done; by destruct ok.
  - repeat split; try lia; done.
  - repeat split; try lia; done.
  - repeat split; try lia; try done; by apply H15.
  - unfold bump.
    destruct (String.eqb e "ValidationError"), (String.eqb e "ApiError"),
      (String.eqb e "NetworkError"); simpl;
      repeat split; try lia; try done; by apply H15.
  - unfold bump.
    destruct (String.eqb_spec reason "duplicate") as [->|?]; simpl;
      [|destruct (String.eqb_spec reason "invalid_email") as [->|?]; simpl;
        [|destruct (String.eqb reason "missing_phone")]];
      rewrite ?length_app; simpl length;
      repeat split; try lia; try done; by apply H15.
  - repeat split; try lia; try done; by apply H15.
  - repeat split; try lia; try done; by apply H15.
Qed.

(** X27.  Whatever methods are called on a new import session, in any
    order, its books balance: every processed record is successful,
    failed or skipped; each of these counters is the length of its data
    array; the duplicates found are the duplicate records kept; the
    counted skip reasons and error categories never exceed the skipped
    and failed records; [lastProcessedIndex] is one below
    [processedRecords]; and [canResume()] answers yes exactly when the
    session is paused. *)
Theorem import_session_books_balance :
  forall (optBatchSize : option Z) (cs : list Call),
    let s := calls (new_ImportSession optBatchSize) cs in
    coherent s /\
    (canResume s = true <-> status s = paused) /\
    (isCompleted s = true -> canResume s = false).
Proof.
  intros opt cs. cbv zeta.
  assert (coherent (calls (new_ImportSession opt) cs)) as Hc.
  { unfold calls. generalize (coherent_new opt). generalize (new_ImportSession opt).
    induction cs as [|c cs IH]; intros s Hs; [done|].
    simpl. apply IH. by apply coherent_call. }
  split; [exact Hc|].
  destruct Hc as (_ & _ & _ & _ & _ & _ & _ & _ & _ & _ & _ & _ & _ & _ & Hp).
  unfold canResume, isCompleted.
  destruct (status (calls (new_ImportSession opt) cs)) eqn:Est;
    (split; [split|]); try done; rewrite ?andb_false_r; try done.
  intros _. destruct (Hp eq_refl) as [-> _]. done.
Qed.

(** ** Batches *)

Lemma ceilDiv_pos n b :
  0 < b -> ceilDiv n b = Some ((n + b - 1) / b).
Proof.
  intros Hb. unfold ceilDiv. destruct (Z.eqb_spec b 0) as [?|_]; [lia|].
  f_equal. unfold Qceiling.
  assert (- (inject_Z n / inject_Z b) == inject_Z (- n) / inject_Z b)%Q as E.
  { rewrite inject_Z_opp. field. intros H. apply (inject_Z_injective b 0) in H. lia. }
  rewrite E, <- Zdiv_Qdiv.
  pose proof (Z.div_mod (- n) b ltac:(lia)) as Hdm.
  pose proof (Z.mod_pos_bound (- n) b Hb) as Hr.
  apply (Z.div_unique (n + b - 1) b (- (- n / b)) (b - 1 - (- n) mod b)); lia.
Qed.

Lemma slice_chunk {A} (l : list A) i b :
  0 <= i < Z.of_nat (length l) -> 0 < b ->
  slice l i (i + b) = take (Z.to_nat b) (drop (Z.to_nat i) l).
Proof.
  intros Hi Hb. unfold slice. cbv zeta.
  destruct (Z.ltb_spec i 0); [lia|]. destruct (Z.ltb_spec (i + b) 0); [lia|].
  rewrite (Z.min_l i) by lia.
  destruct (Z.le_gt_cases (i + b) (Z.of_nat (length l))) as [Hin|Hout].
  - rewrite Z.min_l by lia. f_equal. lia.
  - rewrite Z.min_r by lia.
    rewrite !take_ge; [done| |]; rewrite length_drop; lia.
Qed.

Lemma batchLoop_chunks {A} (l : list A) b fuel : forall i acc,
  0 < b -> 0 <= i ->
  (Z.to_nat (Z.of_nat (length l) - i) < fuel)%nat ->
  exists bs,
    batchLoop fuel l b i acc = Some (acc ++ bs) /\
    concat bs = drop (Z.to_nat i) l /\
    Forall (fun batch => 0 < Z.of_nat (length batch) <= b) bs /\
    Z.of_nat (length bs) = (Z.max 0 (Z.of_nat (length l) - i) + b - 1) / b /\
    (forall k batch, bs !! k = Some batch -> (S k < length bs)%nat ->
                     Z.of_nat (length batch) = b).
Proof.
  induction fuel as [|fuel IH]; intros i acc Hb Hi Hfuel; [lia|].
  simpl. destruct (Z.ltb_spec i (Z.of_nat (length l))) as [Hlt|Hge].
  - destruct (IH (i + b) (acc ++ [slice l i (i + b)])) as (bs & Hrun & Hcat & Hall & Hlen & Hfull);
      [lia|lia|lia|].
    rewrite slice_chunk in * by lia.
    set (c := take (Z.to_nat b) (drop (Z.to_nat i) l)) in *.
    assert (Z.of_nat (length c) = Z.min b (Z.of_nat (length l) - i)) as Hc.
    { unfold c. rewrite length_take, length_drop. lia. }
    exists (c :: bs). rewrite Hrun, <- app_assoc. split; [done|].
    split; [|split; [|split]].
    + simpl. rewrite Hcat. unfold c.
      replace (Z.to_nat (i + b)) with (Z.to_nat i + Z.to_nat b)%nat by lia.
      by rewrite <- drop_drop, take_drop.
    + constructor; [lia|done].
    + simpl length. rewrite Nat2Z.inj_succ, Hlen.
      destruct (Z.le_gt_cases b (Z.of_nat (length l) - i)) as [Hfits|Hshort].
      * rewrite !Z.max_r by lia.
        replace (Z.of_nat (length l) - i + b - 1)
          with (Z.of_nat (length l) - (i + b) + b - 1 + 1 * b) by lia.
        rewrite Z.div_add by lia. lia.
      * rewrite Z.max_l, (Z.max_r 0 (Z.of_nat (length l) - i)) by lia.
        rewrite Z.div_small by lia.
        change (Z.succ 0) with 1.
        apply (Z.div_unique _ b 1 (Z.of_nat (length l) - i - 1)); lia.
    + intros [|k] batch Hk Hmore.
      * injection Hk as <-. simpl in Hmore.
        destruct (Z.le_gt_cases b (Z.of_nat (length l) - i)) as [Hfits|Hshort]; [lia|].
        exfalso. rewrite Z.max_l, Z.div_small in Hlen by lia. lia.
      * simpl in Hk, Hmore. apply (Hfull k batch Hk). lia.
  - exists []. rewrite app_nil_r. split; [done|]. split; [|split; [|split]].
    + simpl. rewrite drop_ge; [done|lia].
    + constructor.
    + simpl. rewrite Z.max_l, Z.div_small by lia. done.
    + intros k batch Hk. done.
Qed.

Lemma batchLoop_more_fuel {A} (l : list A) b fuel : forall fuel' i acc res,
  batchLoop fuel l b i acc = Some res -> (fuel <= fuel')%nat ->
  batchLoop fuel' l b i acc = Some res.
Proof.
  induction fuel as [|fuel IH]; intros fuel' i acc res H Hle; [done|].
  destruct fuel' as [|fuel']; [lia|]. simpl in *.
  destruct (i <? Z.of_nat (length l)); [|done].
  apply IH; [done|lia].
Qed.

(** X28.  With a positive batch size [createBatches] returns, and its
    batches are the subscribers in order, cut into runs of [batchSize]:
    joined they give back the input, none is empty, each but the last has
    exactly [batchSize] elements and the last no more.  Their number is
    the [totalBatches] an import session of that batch size announces
    when started with as many records. *)
Theorem createBatches_partitions_the_input :
  forall (A : Type) (subscribers : list A) (size : Z) (s : ImportSession),
    0 < size -> batchSize s = size ->
    exists batches,
      (forall fuel, (length subscribers < fuel)%nat ->
                    createBatches fuel subscribers size = Some batches) /\
      concat batches = subscribers /\
      Forall (fun batch => 0 < Z.of_nat (length batch) <= size) batches /\
      (forall k batch, batches !! k = Some batch -> (S k < length batches)%nat ->
                       Z.of_nat (length batch) = size) /\
      totalBatches (call (start (Z.of_nat (length subscribers))) s) =
        Some (Z.of_nat (length batches)).
Proof.
  intros A subscribers size s Hsize Hs.
  destruct (batchLoop_chunks subscribers size (S (length subscribers)) 0 [])
    as (bs & Hrun & Hcat & Hall & Hlen & Hfull); [lia|lia|lia|].
  exists bs. split; [|split; [done|split; [done|split; [done|]]]].
  - intros fuel Hfuel. unfold createBatches.
    apply (batchLoop_more_fuel subscribers size (S (length subscribers))); [done|lia].
  - simpl. rewrite Hs, (ceilDiv_pos _ size Hsize). f_equal. rewrite Hlen. f_equal. lia.
Qed.

(** Seven subscribers in batches of three. *)
Lemma createBatches_seven_by_three :
  exists batches,
    (forall fuel, (length [1; 2; 3; 4; 5; 6; 7]%nat < fuel)%nat ->
                  createBatches fuel [1; 2; 3; 4; 5; 6; 7]%nat 3 = Some batches) /\
    concat batches = [1; 2; 3; 4; 5; 6; 7]%nat /\
    Forall (fun batch => 0 < Z.of_nat (length batch) <= 3) batches /\
    (forall k batch, batches !! k = Some batch -> (S k < length batches)%nat ->
                     Z.of_nat (length batch) = 3) /\
    totalBatches (call (start (Z.of_nat (length [1; 2; 3; 4; 5; 6; 7]%nat)))
                       (new_ImportSession (Some 3))) =
      Some (Z.of_nat (length batches)).
Proof.
  apply (createBatches_partitions_the_input nat [1; 2; 3; 4; 5; 6; 7]%nat 3
           (new_ImportSession (Some 3))).
  - lia.
  - reflexivity.
Defined.

Lemma batchLoop_runs_on {A} (l : list A) b fuel : forall i acc,
  b <= 0 -> i <= 0 -> l <> [] -> batchLoop fuel l b i acc = None.
Proof.
  induction fuel as [|fuel IH]; intros i acc Hb Hi Hl; [done|].
  simpl. destruct (Z.ltb_spec i (Z.of_nat (length l))) as [_|Hge].
  - apply IH; [done|lia|done].
  - destruct l; [done|]. simpl in Hge. lia.
Qed.

(** X29.  With a batch size of zero or less, [createBatches] on a list
    that is not empty never returns: the index never passes the end of
    the list, however many iterations are run. *)
Theorem createBatches_needs_a_positive_batch_size :
  forall (A : Type) (subscribers : list A) (size : Z) (fuel : nat),
    size <= 0 -> subscribers <> [] ->
    createBatches fuel subscribers size = None.
Proof.
  intros A subscribers size fuel Hsize Hne. by apply batchLoop_runs_on.
Qed.

Lemma createBatches_with_batch_size_zero :
  createBatches 1000 [1; 2; 3]%nat 0 = None.
Proof.
  apply (createBatches_needs_a_positive_batch_size nat [1; 2; 3]%nat 0 1000).
  - lia.
  - discriminate.
Defined.

End SessionFacts.

(* ================================================================== *)
(** * Properties of the field names *)

Module FieldsFacts.
Import Fields.

Lemma normalizeFieldNames_lookup rawData k :
  normalizeFieldNames rawData !! k = firstDefined rawData (sourcesOf k).
Proof.
  unfold normalizeFieldNames, fieldMappings. cbn [fold_left fst snd].
  set (e := firstDefined rawData ["email"; "EMAIL"; "Email"; "email_address"; "emailAddress"]).
  set (f := firstDefined rawData
              ["first_name"; "firstName"; "FIRST_NAME"; "FirstName"; "fname"]).
  set (l := firstDefined rawData ["last_name"; "lastName"; "LAST_NAME"; "LastName"; "lname"]).
  set (p := firstDefined rawData
              ["phone_number"; "phoneNumber"; "PHONE_NUMBER"; "PhoneNumber";
               "phone"; "Phone"; "PHONE"]).
  unfold sourcesOf, fieldMappings. cbn [List.find fst snd].
  destruct (String.eqb_spec "email" k) as [<-|He].
  { cbn [snd]. fold e. destruct e, f, l, p;
      repeat (rewrite lookup_insert_ne by done); by rewrite ?lookup_insert_eq. }
  destruct (String.eqb_spec "firstName" k) as [<-|Hf].
  { cbn [snd]. fold f. destruct e, f, l, p;
      repeat (rewrite lookup_insert_ne by done); by rewrite ?lookup_insert_eq. }
  destruct (String.eqb_spec "lastName" k) as [<-|Hl].
  { cbn [snd]. fold l. destruct e, f, l, p;
      repeat (rewrite lookup_insert_ne by done); by rewrite ?lookup_insert_eq. }
  destruct (String.eqb_spec "phoneNumber" k) as [<-|Hp].
  { cbn [snd]. fold p. destruct e, f, l, p;
      repeat (rewrite lookup_insert_ne by done); by rewrite ?lookup_insert_eq. }
  simpl. destruct e, f, l, p;
    repeat (rewrite lookup_insert_ne by done); by rewrite lookup_empty.
Qed.

(** The inner loop finds the value of the first listed column the row
    has. *)
Lemma firstDefined_first rawData sources v :
  firstDefined rawData sources = Some v <->
  exists before f after,
    sources = before ++ f :: after /\
    rawData !! f = Some v /\
    Forall (fun g => rawData !! g = None) before.
Proof.
  induction sources as [|g sources IH]; simpl.
  - split; [done|]. intros (before & f & after & Heq & _). by destruct before.
  - destruct (rawData !! g) as [w|] eqn:Hg.
    + split.
      * intros [= ->]. exists [], g, sources. by repeat split.
      * intros ([|g' before] & f & after & Heq & Hf & Hnone).
        -- injection Heq as -> ->. congruence.
        -- injection Heq as -> ->. apply Forall_inv in Hnone. congruence.
    + rewrite IH. split.
      * intros (before & f & after & -> & Hf & Hnone).
        exists (g :: before), f, after. repeat split; try done. by constructor.
      * intros ([|g' before] & f & after & Heq & Hf & Hnone).
        -- injection Heq as -> ->. congruence.
        -- injection Heq as -> ->. exists before, f, after.
           repeat split; try done. by apply Forall_inv_tail in Hnone.
Qed.

(** X30.  [normalizeFieldNames] keeps at most the four fields [email],
    [firstName], [lastName] and [phoneNumber] and drops every other
    column.  A kept field has the value of the first column, in the order
    of the field's list of column names, that the row has: the field is
    [v] exactly when the list splits into columns the row does not have,
    a column whose value is [v], and the rest.  Applied to its own
    result, [normalizeFieldNames] changes nothing. *)
Theorem normalizeFieldNames_is_idempotent :
  forall rawData : gmap string string,
    (forall k, is_Some (normalizeFieldNames rawData !! k) ->
               In k ["email"; "firstName"; "lastName"; "phoneNumber"]) /\
    (forall target sources v,
       In (target, sources)
          [ ("email", ["email"; "EMAIL"; "Email"; "email_address"; "emailAddress"]);
            ("firstName",
             ["first_name"; "firstName"; "FIRST_NAME"; "FirstName"; "fname"]);
            ("lastName", ["last_name"; "lastName"; "LAST_NAME"; "LastName"; "lname"]);
            ("phoneNumber",
             ["phone_number"; "phoneNumber"; "PHONE_NUMBER"; "PhoneNumber";
              "phone"; "Phone"; "PHONE"]) ] ->
       normalizeFieldNames rawData !! target = Some v <->
       exists before f after,
         sources = before ++ f :: after /\
         rawData !! f = Some v /\
         Forall (fun g => rawData !! g = None) before) /\
    normalizeFieldNames (normalizeFieldNames rawData) = normalizeFieldNames rawData.
Proof.
  intros rawData.
  assert (forall k, is_Some (normalizeFieldNames rawData !! k) ->
                    In k ["email"; "firstName"; "lastName"; "phoneNumber"]) as Hkeys.
  { intros k. rewrite normalizeFieldNames_lookup.
    unfold sourcesOf, fieldMappings. cbn [List.find fst snd].
    destruct (String.eqb_spec "email" k) as [<-|?]; [simpl; tauto|].
    destruct (String.eqb_spec "firstName" k) as [<-|?]; [simpl; tauto|].
    destruct (String.eqb_spec "lastName" k) as [<-|?]; [simpl; tauto|].
    destruct (String.eqb_spec "phoneNumber" k) as [<-|?]; [simpl; tauto|].
    simpl. by intros [? ?]. }
  split; [exact Hkeys|]. split.
  { intros target sources v Hin.
    rewrite normalizeFieldNames_lookup, <- firstDefined_first.
    simpl in Hin.
    destruct Hin as [Heq|[Heq|[Heq|[Heq|[]]]]]; by injection Heq as <- <-. }
  assert (forall k, ~ In k ["email"; "firstName"; "lastName"; "phoneNumber"] ->
                    normalizeFieldNames rawData !! k = None) as Hnone.
  { intros k Hk. destruct (normalizeFieldNames rawData !! k) eqn:E; [|done].
    exfalso. apply Hk, Hkeys. by eexists. }
  apply map_eq. intros k.
  rewrite (normalizeFieldNames_lookup (normalizeFieldNames rawData) k).
  unfold sourcesOf, fieldMappings. cbn [List.find fst snd].
  assert (forall (k' : string) (rest : list string),
            ~ In k' ["email"; "firstName"; "lastName"; "phoneNumber"] ->
            firstDefined (normalizeFieldNames rawData) (k' :: rest) =
            firstDefined (normalizeFieldNames rawData) rest) as Hskip.
  { intros k' rest Hk'. simpl. by rewrite (Hnone k' Hk'). }
  assert (forall rest, Forall (fun k' => ~ In k' ["email"; "firstName"; "lastName";
                                                  "phoneNumber"]) rest ->
                       firstDefined (normalizeFieldNames rawData) rest = None) as Hall.
  { induction 1 as [|k' rest Hk' _ IH]; [done|]. by rewrite Hskip. }
  assert (forall (k' : string) (rest : list string),
            Forall (fun k' => ~ In k' ["email"; "firstName"; "lastName"; "phoneNumber"])
                   rest ->
            firstDefined (normalizeFieldNames rawData) (k' :: rest) =
            normalizeFieldNames rawData !! k') as Hhit.
  { intros k' rest Hrest. simpl. rewrite (Hall rest Hrest).
    by destruct (normalizeFieldNames rawData !! k'). }
  destruct (String.eqb_spec "email" k) as [<-|?].
  { cbn [snd]. apply Hhit. repeat constructor; simpl; intuition discriminate. }
  destruct (String.eqb_spec "firstName" k) as [<-|?].
  { cbn [snd]. rewrite Hskip by (simpl; intuition discriminate).
    apply Hhit. repeat constructor; simpl; intuition discriminate. }
  destruct (String.eqb_spec "lastName" k) as [<-|?].
  { cbn [snd]. rewrite Hskip by (simpl; intuition discriminate).
    apply Hhit. repeat constructor; simpl; intuition discriminate. }
  destruct (String.eqb_spec "phoneNumber" k) as [<-|?].
  { cbn [snd]. rewrite Hskip by (simpl; intuition discriminate).
    apply Hhit. repeat constructor; simpl; intuition discriminate. }
  simpl. symmetry. apply Hnone. simpl. intuition congruence.
Qed.

(** The sample row: the email comes from [EMAIL], the first name from
    [first_name], which is listed before [firstName], the phone from
    [Phone]; there is no last name and the unknown column is dropped. *)
Lemma sample_row_normalized :
  normalizeFieldNames sample_row !! "email" = Some "ann@example.com" /\
  normalizeFieldNames sample_row !! "firstName" = Some "Ann" /\
  normalizeFieldNames sample_row !! "lastName" = None /\
  normalizeFieldNames sample_row !! "phoneNumber" = Some "555 0100" /\
  normalizeFieldNames sample_row !! "age" = None /\
  normalizeFieldNames (normalizeFieldNames sample_row) = normalizeFieldNames sample_row.
Proof.
  destruct (normalizeFieldNames_is_idempotent sample_row) as (Hkeys & Hfirst & Hagain).
  split.
  { apply (Hfirst "email" ["email"; "EMAIL"; "Email"; "email_address"; "emailAddress"]);
      [simpl; tauto|].
    exists ["email"], "EMAIL", ["Email"; "email_address"; "emailAddress"].
    split; [reflexivity|]. split; [reflexivity|]. repeat constructor. }
  split.
  { apply (Hfirst "firstName"
             ["first_name"; "firstName"; "FIRST_NAME"; "FirstName"; "fname"]);
      [simpl; tauto|].
    exists [], "first_name", ["firstName"; "FIRST_NAME"; "FirstName"; "fname"].
    split; [reflexivity|]. split; [reflexivity|]. constructor. }
  split; [reflexivity|].
  split.
  { apply (Hfirst "phoneNumber"
             ["phone_number"; "phoneNumber"; "PHONE_NUMBER"; "PhoneNumber";
              "phone"; "Phone"; "PHONE"]);
      [simpl; tauto|].
    exists ["phone_number"; "phoneNumber"; "PHONE_NUMBER"; "PhoneNumber"; "phone"],
           "Phone", ["PHONE"].
    split; [reflexivity|]. split; [reflexivity|]. repeat constructor. }
  split; [reflexivity|]. exact Hagain.
Defined.

End FieldsFacts.
